(** * Pointer-generator summarisation model: losses and copy mechanism

    A shallow embedding of the numeric core of [model_old.py]
    ([SummarizationModel._calc_final_dist], the loss block of
    [_add_seq2seq], [_add_train_op], [_add_gcn_layer], [_mask_and_avg],
    [_coverage_loss]), of the wiring of the encoders in [_add_seq2seq]
    and [_add_gcn_seq2seq] and of the handling of decoder states in
    beam search, together with the properties the specification states
    about them.

    Conventions.
    - A [float32] tensor entry is read as a real number, so every
      statement is about exact arithmetic; a float result that is not a
      finite number (a division by zero, the logarithm of zero) is kept
      apart, as [NotFinite] or as a point of [xreal].
    - A rank-1 tensor is a list, a rank-2 tensor a list of rows, and a
      Python list of per-step tensors a list of those.
    - Token ids index a vocabulary and are natural numbers. *)

From Stdlib Require String.
From Stdlib Require Import Reals List Lia Lra Bool Arith PeanoNat Sorted Permutation.
From Stdlib Require Import FunctionalExtensionality.
Import ListNotations.
Import String.StringSyntax.
Delimit Scope string_scope with string.
Open Scope R_scope.

Definition vec := list R.
Definition mat := list vec.

(** ** Tensor primitives *)

Module Tensor.

(** Pointwise combination of two sequences; the shorter one decides
    the length, as Python's [zip] does. *)
Fixpoint map2 {A B C : Type} (f : A -> B -> C) (l1 : list A) (l2 : list B)
  : list C :=
  match l1, l2 with
  | a :: l1', b :: l2' => f a b :: map2 f l1' l2'
  | _, _ => []
  end.

(** [tf.zeros((r, c))]. *)
Definition zeros (r c : nat) : mat := repeat (repeat 0 c) r.

(** [tf.reduce_sum] of a rank-1 tensor. *)
Definition reduce_sum (v : vec) : R := fold_right Rplus 0 v.

(** [tf.reduce_sum(m, axis=1)]. *)
Definition reduce_sum_axis1 (m : mat) : vec := map reduce_sum m.

(** Elementwise sum of two tensors of one shape. *)
Definition vadd (u v : vec) : vec := map2 Rplus u v.
Definition madd (m n : mat) : mat := map2 vadd m n.

(** [p * m] for [p] of shape (batch, 1) and [m] of shape (batch, w):
    row [b] of [m] is scaled by [p[b]]. *)
Definition bcast_mul (p : vec) (m : mat) : mat :=
  map2 (fun pb row => map (Rmult pb) row) p m.

(** [tf.concat(axis=1, values=[m, n])]. *)
Definition concat1 (m n : mat) : mat := map2 (@app R) m n.

(** Entry [(b, j)] of a rank-2 tensor. *)
Definition get2 (m : mat) (b j : nat) : R := nth j (nth b m []) 0.

(** Apply [f] to entry [n] of a list; a list too short is left as it is. *)
Fixpoint upd {A : Type} (n : nat) (f : A -> A) (l : list A) : list A :=
  match l, n with
  | [], _ => []
  | a :: l', O => f a :: l'
  | a :: l', S n' => a :: upd n' f l'
  end.

(** [m[r][c] += x]. An index outside the tensor is ignored, which is what
    the GPU kernel of [tf.scatter_nd] does (the graph is built under
    [tf.device("/gpu:0")]); the CPU kernel raises there instead, so what
    is said below of such an index holds for the GPU placement only. *)
Definition add_at (m : mat) (ix : nat * nat * R) : mat :=
  let '(r, c, x) := ix in upd r (upd c (fun y => y + x)) m.

(** [tf.scatter_nd(indices, updates, shape)] for [indices] of shape
    (batch, n, 2) and [updates] of shape (batch, n): starting from zeros,
    every update is added at its index, one after the other. *)
Definition scatter_nd (indices : list (list (nat * nat))) (updates : mat)
    (shape : nat * nat) : mat :=
  fold_left add_at
    (concat (map2 (@combine (nat * nat) R) indices updates))
    (zeros (fst shape) (snd shape)).

(** [tf.gather_nd(m, stack((rows, cols), axis=1))]. *)
Definition gather_nd (m : mat) (rows cols : list nat) : vec :=
  map2 (get2 m) rows cols.

(** [tf.range(0, limit=n)]. *)
Definition range (n : nat) : list nat := seq 0 n.

(** [tf.tile(tf.expand_dims(v, 1), [1, n])]. *)
Definition tile1 (v : list nat) (n : nat) : list (list nat) :=
  map (fun b => repeat b n) v.

(** [tf.stack((a, b), axis=2)] for two rank-2 integer tensors. *)
Definition stack2 (a b : list (list nat)) : list (list (nat * nat)) :=
  map2 (map2 pair) a b.

(** [tf.shape(m)[1]]. *)
Definition shape1 {A : Type} (m : list (list A)) : nat :=
  match m with
  | [] => O
  | r :: _ => length r
  end.

(** [m] has [r] rows of [c] entries. *)
Definition has_shape {A : Type} (m : list (list A)) (r c : nat) : Prop :=
  length m = r /\ Forall (fun row => length row = c) m.

End Tensor.

Import Tensor.

(** ** The copy/pointer combiner *)

(** What [_calc_final_dist] reads from [self]. *)
Record pointer_state := {
  vocab_size : nat;                               (* self._vocab.size() *)
  max_art_oovs : nat;                             (* self._max_art_oovs *)
  batch_size : nat;                               (* self._hps.batch_size *)
  enc_batch_extend_vocab : list (list nat);       (* (batch_size, attn_len) *)
  p_gens : list vec                               (* per step, (batch_size, 1) *)
}.

Definition _calc_final_dist (self : pointer_state)
    (vocab_dists attn_dists : list mat) : list mat :=
  let vocab_dists := map2 bcast_mul (p_gens self) vocab_dists in
  let attn_dists :=
    map2 (fun p_gen dist => bcast_mul (map (fun p => 1 - p) p_gen) dist)
         (p_gens self) attn_dists in
  let extended_vsize := (vocab_size self + max_art_oovs self)%nat in
  let extra_zeros := zeros (batch_size self) (max_art_oovs self) in
  let vocab_dists_extended :=
    map (fun dist => concat1 dist extra_zeros) vocab_dists in
  let batch_nums := range (batch_size self) in
  let attn_len := shape1 (enc_batch_extend_vocab self) in
  let batch_nums := tile1 batch_nums attn_len in
  let indices := stack2 batch_nums (enc_batch_extend_vocab self) in
  let shape := (batch_size self, extended_vsize) in
  let attn_dists_projected :=
    map (fun copy_dist => scatter_nd indices copy_dist shape) attn_dists in
  map2 madd vocab_dists_extended attn_dists_projected.

(** The attention mass of one example that is directed at slot [j]:
    the sum of the weights of the encoder positions whose
    extended-vocabulary id is [j]. *)
Fixpoint copy_mass (j : nat) (ids : list nat) (ws : vec) : R :=
  match ids, ws with
  | id :: ids', w :: ws' =>
      (if Nat.eqb id j then w else 0) + copy_mass j ids' ws'
  | _, _ => 0
  end.

(** ** Results that are not numbers *)

(** What a piece of graph construction or evaluation comes to. *)
Inductive outcome (A : Type) : Type :=
| Value (a : A)   (* every float computed on the way is finite; the result *)
| NotFinite       (* a float operation gave an infinity or a NaN *)
| Raised.         (* a Python exception or a failed assertion *)

Arguments Value {A} a.
Arguments NotFinite {A}.
Arguments Raised {A}.

Definition bind {A B : Type} (m : outcome A) (f : A -> outcome B)
  : outcome B :=
  match m with
  | Value a => f a
  | NotFinite => NotFinite
  | Raised => Raised
  end.

Notation "x <- m ;; k" := (bind m (fun x => k))
  (at level 61, m at next level, right associativity).

Fixpoint mapM {A B : Type} (f : A -> outcome B) (l : list A)
  : outcome (list B) :=
  match l with
  | [] => Value []
  | a :: l' => b <- f a ;; bs <- mapM f l' ;; Value (b :: bs)
  end.

(** A float: a real number, an infinity or a NaN. *)
Inductive xreal : Type :=
| NegInf
| Fin (x : R)
| PosInf
| NaN.

(** [tf.log]. *)
Definition tf_log (x : R) : xreal :=
  if Rlt_dec x 0 then NaN
  else if Req_dec_T x 0 then NegInf
  else Fin (ln x).

(** Unary minus on floats. *)
Definition xopp (x : xreal) : xreal :=
  match x with
  | NegInf => PosInf
  | Fin r => Fin (- r)
  | PosInf => NegInf
  | NaN => NaN
  end.

Definition finite (x : xreal) : outcome R :=
  match x with
  | Fin r => Value r
  | _ => NotFinite
  end.

(** [x <= y] on floats; a NaN compares with nothing. *)
Definition xle (x y : xreal) : Prop :=
  match x, y with
  | NaN, _ | _, NaN => False
  | NegInf, _ => True
  | _, PosInf => True
  | Fin a, Fin b => a <= b
  | _, _ => False
  end.

(** Float division: by zero it gives an infinity or a NaN. *)
Definition fdiv (x y : R) : outcome R :=
  if Req_dec_T y 0 then NotFinite else Value (x / y).

(** ** The loss module *)

(** [m[:, t]]. *)
Definition column (m : mat) (t : nat) : vec := map (fun row => nth t row 0) m.
Definition column_nat (m : list (list nat)) (t : nat) : list nat :=
  map (fun row => nth t row O) m.

Definition vmul (u v : vec) : vec := map2 Rmult u v.

Definition vdiv (u v : vec) : outcome vec :=
  mapM (fun xy => fdiv (fst xy) (snd xy)) (combine u v).

(** [tf.reduce_mean] of a rank-1 tensor; of an empty one it is 0/0. *)
Definition reduce_mean (v : vec) : outcome R :=
  fdiv (reduce_sum v) (INR (length v)).

(** Python's [sum] of a list of rank-1 tensors of length [n]: they are
    added from the left onto 0. *)
Definition py_sum (n : nat) (vs : list vec) : vec :=
  fold_left vadd vs (repeat 0 n).

Definition _mask_and_avg (values : list vec) (padding_mask : mat)
  : outcome R :=
  let dec_lens := reduce_sum_axis1 padding_mask in
  let values_per_step :=
    map2 (fun dec_step v => vmul v (column padding_mask dec_step))
         (seq 0 (length values)) values in
  values_per_ex <- vdiv (py_sum (length dec_lens) values_per_step) dec_lens ;;
  reduce_mean values_per_ex.

(** A float that is a number, and the number it is. *)
Definition is_finite (x : xreal) : Prop := exists r, x = Fin r.

Definition is_finb (x : xreal) : bool :=
  match x with
  | Fin _ => true
  | _ => false
  end.

Definition to_real (x : xreal) : R :=
  match x with
  | Fin r => r
  | _ => 0
  end.

(** [_mask_and_avg] on values that may be infinite or NaN. A value
    that is not a number stays one through lines 1148-1151: its
    product with a mask entry is an infinity or, for the entry 0, a
    NaN, and so are the sums, the quotient and the mean it enters. The
    result is a number only when every value is. *)
Definition _mask_and_avg_float (values : list (list xreal))
    (padding_mask : mat) : outcome R :=
  values <- mapM (mapM finite) values ;;
  _mask_and_avg values padding_mask.

(** [-tf.log(gold_probs)]. *)
Definition neg_log (gold_probs : vec) : outcome vec :=
  mapM (fun p => finite (xopp (tf_log p))) gold_probs.

(** The pointer-generator branch of the loss block of [_add_seq2seq]. *)
Definition pointer_gen_loss (batch_size : nat) (final_dists : list mat)
    (target_batch : list (list nat)) (dec_padding_mask : mat) : outcome R :=
  let batch_nums := range batch_size in
  loss_per_step <-
    mapM (fun sd =>
            let targets := column_nat target_batch (fst sd) in
            let gold_probs := gather_nd (snd sd) batch_nums targets in
            neg_log gold_probs)
         (combine (seq 0 (length final_dists)) final_dists) ;;
  _mask_and_avg loss_per_step dec_padding_mask.

Definition mmin (a c : mat) : mat := map2 (map2 Rmin) a c.

(** [tf.zeros_like]. *)
Definition zeros_like (m : mat) : mat := map (map (fun _ => 0)) m.

(** One turn of the loop of [_coverage_loss], on the pair
    [(covlosses, coverage)]. *)
Definition coverage_step (st : list vec * mat) (a : mat) : list vec * mat :=
  let covloss := reduce_sum_axis1 (mmin a (snd st)) in
  (fst st ++ [covloss], madd (snd st) a).

(** The list [covlosses] of [_coverage_loss] when its loop is over. *)
Definition covlosses_of (attn_dists : list mat) : list vec :=
  fst (fold_left coverage_step attn_dists
                 ([], zeros_like (hd [] attn_dists))).

Definition _coverage_loss (attn_dists : list mat) (padding_mask : mat)
  : outcome R :=
  match attn_dists with
  | [] => Raised                       (* attn_dists[0]: IndexError *)
  | _ :: _ => _mask_and_avg (covlosses_of attn_dists) padding_mask
  end.

(** ** Regularisation, total loss and the loss that is minimised *)

Inductive run_mode : Type := Train | Eval | Decode.

(** The hyperparameters read below ([self._hps]). *)
Module Hps.
Record hparams := {
  mode : run_mode;
  pointer_gen : bool;
  coverage : bool;
  use_regularizer : bool;
  beta_l2 : R;
  cov_loss_wt : R;
  use_label_information : bool
}.
End Hps.
Definition hparams := Hps.hparams.

(** [tf.nn.l2_loss(t)]: half the sum of the squares of the entries. *)
Definition l2_loss (t : vec) : R := reduce_sum (map (fun x => x * x) t) / 2.

(** A regulariser maps a tensor (its entries, flattened) to a penalty,
    or to Python's [None]. *)
Definition regularizer := vec -> option R.

(** [tf.contrib.layers.l2_regularizer(scale)]: a negative scale is
    refused, a zero scale gives the regulariser that returns [None], and
    any other gives [scale * l2_loss(weights)]. *)
Definition l2_regularizer (scale : R) : outcome regularizer :=
  if Rlt_dec scale 0 then Raised
  else if Req_dec_T scale 0 then Value (fun _ => None)
  else Value (fun weights => Some (scale * l2_loss weights)).

(** [self._regularizer] as [__init__] sets it. *)
Definition init_regularizer (hps : hparams) : outcome regularizer :=
  let beta := if Hps.use_regularizer hps then Hps.beta_l2 hps else 0 in
  l2_regularizer beta.

(** The collection [tf.GraphKeys.REGULARIZATION_LOSSES]:
    [tf.get_variable(..., regularizer=r)] appends [r(variable)] to it
    unless that is [None].  [tagged] lists the variables (flattened)
    created with [regularizer=self._regularizer]; every entry of the
    collection is a scalar. *)
Definition regularization_losses (r : regularizer) (tagged : list vec)
  : list R :=
  flat_map (fun w => match r w with Some p => [p] | None => [] end) tagged.

(** [tf.contrib.layers.apply_regularization(regularizer, weights_list)]:
    the sum of [regularizer(w)] over the tensors [w] of [weights_list],
    a [None] counting as 0.  An empty [weights_list] is replaced by the
    collection [tf.GraphKeys.WEIGHTS], to which this program adds
    nothing, and an empty list then raises [ValueError]. *)
Definition apply_regularization (r : regularizer) (weights_list : list vec)
  : outcome R :=
  match weights_list with
  | [] => Raised
  | _ :: _ =>
      Value (reduce_sum
               (map (fun w => match r w with Some p => p | None => 0 end)
                    weights_list))
  end.

(** The scalars the loss block leaves on [self]. *)
Record loss_graph := {
  self_loss : R;                      (* self._loss *)
  self_coverage_loss : option R;      (* self._coverage_loss, when set *)
  self_total_loss : option R          (* self._total_loss, when set *)
}.

(** The loss block of [_add_seq2seq] (modes train and eval).  [base] is
    the value of the branch on [FLAGS.pointer_gen]: [pointer_gen_loss],
    or the library's [sequence_loss] for the baseline model. *)
Definition add_loss (hps : hparams) (tagged : list vec) (base : outcome R)
    (attn_dists : list mat) (dec_padding_mask : mat) : outcome loss_graph :=
  r <- init_regularizer hps ;;
  loss <- base ;;
  loss <- (if Hps.use_regularizer hps
           then pen <- apply_regularization r
                         (map (fun p => [p]) (regularization_losses r tagged)) ;;
                Value (loss + pen)
           else Value loss) ;;
  if Hps.coverage hps
  then cl <- _coverage_loss attn_dists dec_padding_mask ;;
       Value {| self_loss := loss;
                self_coverage_loss := Some cl;
                self_total_loss := Some (loss + Hps.cov_loss_wt hps * cl) |}
  else Value {| self_loss := loss;
                self_coverage_loss := None;
                self_total_loss := None |}.

(** [loss_to_minimize] of [_add_train_op]. *)
Definition loss_to_minimize (hps : hparams) (g : loss_graph) : outcome R :=
  if Hps.coverage hps
  then match self_total_loss g with
       | Some t => Value t
       | None => Raised                 (* AttributeError *)
       end
  else Value (self_loss g).

(** The sum of the L2 penalties of the tagged weights, scaled by
    [beta]: what the specification calls the regularisation penalty. *)
Definition l2_penalty (beta : R) (tagged : list vec) : R :=
  reduce_sum (map (fun w => beta * l2_loss w) tagged).

(** ** Decode mode: the top [2 * batch_size] entries *)

(** Insertion into a list kept in non-increasing order of value; of two
    equal values the one inserted later comes first. *)
Fixpoint insert_desc (x : nat * R) (l : list (nat * R)) : list (nat * R) :=
  match l with
  | [] => [x]
  | y :: l' =>
      if Rle_dec (snd y) (snd x) then x :: y :: l' else y :: insert_desc x l'
  end.

(** The (index, value) pairs of a row, largest value first and, among
    equal values, lowest index first. *)
Definition sort_desc (row : vec) : list (nat * R) :=
  fold_right insert_desc [] (combine (seq 0 (length row)) row).

(** [tf.nn.top_k(m, k)]: per row the [k] largest entries, sorted, and
    their indices; it is an error for [k] to exceed the row length. *)
Definition top_k (m : mat) (k : nat) : outcome (mat * list (list nat)) :=
  if forallb (fun row => Nat.leb k (length row)) m
  then Value (map (fun row => map snd (firstn k (sort_desc row))) m,
              map (fun row => map fst (firstn k (sort_desc row))) m)
  else Raised.

(** What decode mode leaves on [self]. *)
Record topk_graph := {
  _topk_ids : list (list nat);
  _topk_log_probs : list (list xreal)
}.

(** The decode block of [_add_seq2seq]. *)
Definition add_decode (hps_batch_size : nat) (final_dists : list mat)
  : outcome topk_graph :=
  match final_dists with
  | [final_dists0] =>
      res <- top_k final_dists0 (hps_batch_size * 2) ;;
      Value {| _topk_ids := snd res;
               _topk_log_probs := map (map tf_log) (fst res) |}
  | _ => Raised                         (* assert len(final_dists) == 1 *)
  end.

(** ** The graph-convolution layer *)

(** A rank-3 tensor (batch, nodes, dim): one matrix per example. *)
Definition t3 := list mat.

(** A sparse matrix: its non-zero entries (row, column, value) and its
    number of rows. *)
Record sparse := {
  sp_entries : list (nat * nat * R);
  sp_rows : nat
}.

Definition empty_sparse : sparse := {| sp_entries := []; sp_rows := O |}.

Definition vscale (x : R) (v : vec) : vec := map (Rmult x) v.

(** Row [r] of the product of [sp] with the dense matrix [d]. *)
Definition sparse_row (sp : sparse) (d : mat) (r : nat) : vec :=
  fold_left
    (fun acc e =>
       let '(r', c, v) := e in
       if Nat.eqb r' r
       then vadd acc (vscale v (nth c d (repeat 0 (shape1 d))))
       else acc)
    (sp_entries sp) (repeat 0 (shape1 d)).

(** [tf.sparse_tensor_dense_matmul(sp, d)]. *)
Definition sparse_tensor_dense_matmul (sp : sparse) (d : mat) : mat :=
  map (sparse_row sp d) (seq 0 (sp_rows sp)).

(** A row vector times a matrix. *)
Definition row_times (row : vec) (w : mat) : vec :=
  fold_left (fun acc xw => vadd acc (vscale (fst xw) (snd xw)))
            (combine row w) (repeat 0 (shape1 w)).

(** [tf.tensordot(t, w, axes=[[2], [0]])]. *)
Definition tensordot (t : t3) (w : mat) : t3 :=
  map (map (fun row => row_times row w)) t.

Definition sigmoid (x : R) : R := 1 / (1 + exp (- x)).

Definition t3map (f : R -> R) (t : t3) : t3 := map (map (map f)) t.
Definition t3add (s t : t3) : t3 := map2 madd s t.
Definition t3zeros (b n d : nat) : t3 := repeat (zeros n d) b.

(** [t * g] for [t] of shape (batch, nodes, dim) and [g] of shape
    (batch, nodes, 1): every node's row is scaled by its gate. *)
Definition t3gate (t g : t3) : t3 :=
  map2 (map2 (fun row gr => vscale (hd 0 gr) row)) t g.

(** [adj[i][lbl]]: the adjacency matrix of label [lbl] of example [i]. *)
Definition adj_at (adj : list (list sparse)) (i lbl : nat) : option sparse :=
  match nth_error adj i with
  | Some of_example => nth_error of_example lbl
  | None => None
  end.

(** [tf.stack([tf.sparse_tensor_dense_matmul(adj[i][lbl], inp[i])
    for i in range(batch_size)])]; an example or a label that [adj] or
    [inp] does not have raises. *)
Definition arcs (adj : list (list sparse)) (lbl batch_size : nat) (inp : t3)
  : outcome t3 :=
  mapM (fun i =>
          match adj_at adj i lbl, nth_error inp i with
          | Some sp, Some d => Value (sparse_tensor_dense_matmul sp d)
          | _, _ => Raised                         (* KeyError, IndexError *)
          end)
       (seq 0 batch_size).

(** [t / tf.expand_dims(neighbour_count, -1)]. *)
Definition t3normalise (t : t3) (neighbour_count : mat) : outcome t3 :=
  mapM (fun mc =>
          mapM (fun rc => mapM (fun x => fdiv x (snd rc)) (fst rc))
               (combine (fst mc) (snd mc)))
       (combine t neighbour_count).

(** [tf.get_variable(name, ...)] in a variable scope that does not
    reuse variables: [created] holds the names created in the scope so
    far, and creating a name a second time raises [ValueError]. *)
Definition get_variable {A : Type} (created : list String.string)
    (name : String.string) (value : A)
  : outcome (A * list String.string) :=
  if existsb (String.eqb name) created
  then Raised
  else Value (value, name :: created).

(** The values of the variables of one label's scope. *)
Record label_vars := {
  b_gout : R;
  b_gin : R;
  b_gloop : R
}.

(** The values of the variables of one layer's scope, whose names are
    pairwise distinct, and, in [label lbl], those of the scope of label
    [lbl]. *)
Record layer_vars := {
  w_in : mat;
  w_out : mat;
  w_loop : mat;
  b_layer : R;
  b_out : vec;
  w_gin : mat;
  w_gout : mat;
  w_gloop : mat;
  w_adjust : mat;
  label : nat -> label_vars
}.

(** The scope of one label, lines 314-326. The Python names [b_gout],
    [b_gin] and [b_gloop] are bound together; [bound] is their binding
    before the scope and the result is their binding after it. With
    gating, the variable ['b_gout'] is created for [b_common] and then
    once more for [b_gout]. *)
Definition label_scope (L : label_vars) (bound : option label_vars)
    (use_gating use_skip : bool) : outcome (option label_vars) :=
  let created := [] in
  created <-
    (if use_gating
     then b_common <- get_variable created "b_gout"%string (b_gout L) ;;
          Value (snd b_common)
     else Value created) ;;
  st <-
    (if use_gating
     then
       b_gout' <- get_variable created "b_gout"%string (b_gout L) ;;
       b_gin' <- get_variable (snd b_gout') "b_gin"%string (b_gin L) ;;
       b_gloop' <- get_variable (snd b_gin') "b_gloop"%string (b_gloop L) ;;
       Value (Some {| b_gout := fst b_gout';
                      b_gin := fst b_gin';
                      b_gloop := fst b_gloop' |},
              snd b_gloop')
     else Value (bound, created)) ;;
  w_skip <-
    (if use_skip
     then get_variable (snd st) "w_skip"%string tt
     else Value (tt, snd st)) ;;
  Value (fst st).

(** Reading a Python name that a label's scope binds: it raises when
    no scope has bound it. *)
Definition read_local {A : Type} (bound : option label_vars)
    (f : label_vars -> A) : outcome A :=
  match bound with
  | Some L => Value (f L)
  | None => Raised                                  (* NameError *)
  end.

Section GCN.

(** [tf.nn.dropout(x, keep_prob)] at the call site named by the key
    (layer, label, branch); the random mask it draws is left open. *)
Variable nn_dropout : list nat -> R -> t3 -> t3.

Definition dropout_at (key : list nat) (dropout : R) (x : t3) : t3 :=
  if Req_dec_T dropout 1 then x else nn_dropout key dropout x.

(** The body of the loop over layers of [_add_gcn_layer]: from the
    layer's input [gcn_in] to [gcn_out]. The loop over labels carries
    [act_sum] and the binding of the names of the labels' scopes. *)
Definition gcn_layer_body (V : layer_vars) (layer : nat) (gcn_in : t3)
    (in_dim gcn_dim batch_size max_nodes max_labels : nat)
    (adj_in adj_out : list (list sparse)) (neighbour_count : mat)
    (use_gating use_skip use_normalization : bool) (dropout : R)
  : outcome t3 :=
  let act_sum := t3zeros batch_size max_nodes gcn_dim in
  let pre_com_o_in := tensordot gcn_in (w_in V) in
  let pre_com_o_out := tensordot gcn_in (w_out V) in
  let pre_com_o_loop := tensordot gcn_in (w_loop V) in
  let pre_com_o_gin := tensordot gcn_in (w_gin V) in
  let pre_com_o_gout := tensordot gcn_in (w_gout V) in
  let pre_com_o_gloop := tensordot gcn_in (w_gloop V) in
  st <-
    fold_left
      (fun st lbl =>
         st <- st ;;
         let act_sum := fst st in
         bound <- label_scope (label V lbl) (snd st) use_gating use_skip ;;
         let inp_in := pre_com_o_in in
         in_t <- arcs adj_in lbl batch_size inp_in ;;
         let in_t := dropout_at [layer; lbl; 0%nat] dropout in_t in
         in_act <-
           (if use_gating
            then
              b_gin <- read_local bound b_gin ;;
              let inp_gin := t3map (fun x => x + b_gin) pre_com_o_gin in
              in_gate <- arcs adj_in lbl batch_size inp_gin ;;
              let in_gsig := t3map sigmoid in_gate in
              Value (t3gate in_t in_gsig)
            else Value in_t) ;;
         let in_act := in_t in
         let inp_out := pre_com_o_out in
         out_t <- arcs adj_out lbl batch_size inp_out ;;
         let out_t := dropout_at [layer; lbl; 1%nat] dropout out_t in
         out_act <-
           (if use_gating
            then
              b_gout <- read_local bound b_gout ;;
              let inp_gout := t3map (fun x => x + b_gout) pre_com_o_gout in
              out_gate <- arcs adj_out lbl batch_size inp_gout ;;
              let out_gsig := t3map sigmoid out_gate in
              Value (t3gate out_t out_gsig)
            else Value out_t) ;;
         let out_act := out_t in
         Value (t3add act_sum (t3add in_act out_act), bound))
      (seq 0 max_labels) (Value (act_sum, None)) ;;
  let act_sum := fst st in
  let bound := snd st in
  let inp_loop := pre_com_o_loop in
  let inp_loop := dropout_at [layer; max_labels; 2%nat] dropout inp_loop in
  loop_act <-
    (if use_gating
     then
       b_gloop <- read_local bound b_gloop ;;
       let inp_gloop := t3map (fun x => x + b_gloop) pre_com_o_gloop in
       let loop_gsig := t3map sigmoid inp_gloop in
       Value (t3gate inp_loop loop_gsig)
     else Value inp_loop) ;;
  let act_sum := t3add act_sum loop_act in
  let act_sum := map (map (fun row => vadd row (b_out V))) act_sum in
  act_sum <-
    (if use_normalization
     then t3normalise act_sum neighbour_count
     else Value act_sum) ;;
  let gcn_out := t3map (Rmax 0) act_sum in
  if use_skip
  then
    let gcn_in :=
      if negb (Nat.eqb in_dim gcn_dim)
      then tensordot gcn_in (w_adjust V)
      else gcn_in in
    Value (t3add (t3map (Rmult (b_layer V)) gcn_in)
                 (t3map (Rmult (1 - b_layer V)) gcn_out))
  else Value gcn_out.

(** [_add_gcn_layer]; [vars name layer] holds the variables of the scope
    ['%s-%d' % (name, layer)], and the result is the last layer's
    [gcn_out]. *)
Definition _add_gcn_layer (hps : hparams) (vars : String.string -> nat -> layer_vars)
    (gcn_in : t3) (in_dim gcn_dim batch_size max_nodes max_labels : nat)
    (adj_in adj_out : list (list sparse)) (neighbour_count : mat)
    (num_layers : nat) (use_gating use_skip use_normalization : bool)
    (dropout : R) (name : String.string) (use_label_information : bool)
  : outcome t3 :=
  let out := [gcn_in] in
  let max_labels :=
    if negb (Hps.use_label_information hps) then 1%nat else max_labels in
  out <-
    fold_left
      (fun st layer =>
         out <- st ;;
         let gcn_in := last out [] in
         let in_dim :=
           if Nat.ltb 1 (length out) then gcn_dim else in_dim in
         gcn_out <-
           gcn_layer_body (vars name layer) layer gcn_in in_dim gcn_dim
             batch_size max_nodes max_labels adj_in adj_out neighbour_count
             use_gating use_skip use_normalization dropout ;;
         Value (out ++ [gcn_out]))
      (seq 0 num_layers) (Value out) ;;
  match num_layers with
  | O => Raised                         (* gcn_out was never bound *)
  | S _ => Value (last out [])
  end.

End GCN.

(** ** The specification's reading of the losses *)

(** The sum of [f t] for [t] below [n]. *)
Definition sum_below (n : nat) (f : nat -> R) : R :=
  reduce_sum (map f (seq 0 n)).

(** For a batch of [B] examples and [T] decoder steps: every example's
    masked sum of [f t b] over the steps is divided by the sum of the
    example's mask row, and these quotients are averaged over the
    batch. *)
Definition masked_average (B T : nat) (mask : mat) (f : nat -> nat -> R) : R :=
  sum_below B (fun b =>
    sum_below T (fun t => f t b * get2 mask b t)
    / sum_below T (fun t => get2 mask b t))
  / INR B.

(** The negative log of the probability that step [t]'s distribution
    gives to example [b]'s target token at that step. *)
Definition target_nll (final_dists : list mat) (target_batch : list (list nat))
    (t b : nat) : R :=
  - ln (get2 (nth t final_dists []) b (nth t (nth b target_batch []) O)).

(** The coverage of example [b] at encoder position [i] before step [t]:
    the sum of the attention of the earlier steps. *)
Definition coverage_before (attn_dists : list mat) (t b i : nat) : R :=
  sum_below t (fun s => get2 (nth s attn_dists []) b i).

(** Step [t]'s coverage-loss term of example [b], over [n] encoder
    positions. *)
Definition covloss_term (n : nat) (attn_dists : list mat) (t b : nat) : R :=
  sum_below n (fun i =>
    Rmin (get2 (nth t attn_dists []) b i) (coverage_before attn_dists t b i)).

(** An attention distribution over [n] positions with all its mass on
    position [p]. *)
Definition one_hot (n p : nat) : vec :=
  map (fun i => if Nat.eqb i p then 1 else 0) (seq 0 n).

(** [T] decoder steps in which example [b] attends to position
    [nth b ps] alone, every step. *)
Definition repeated_attention (n : nat) (ps : list nat) (T : nat) : list mat :=
  repeat (map (one_hot n) ps) T.

(** The padding mask of [B] examples with [T] unpadded steps each. *)
Definition ones (B T : nat) : mat := repeat (repeat 1 T) B.

(** A padding mask holds 0s and 1s. *)
Definition is_mask (m : mat) : Prop :=
  Forall (Forall (fun x => x = 0 \/ x = 1)) m.

(** Every entry of a tensor is a probability weight. *)
Definition nonneg (m : mat) : Prop := Forall (Forall (fun x => 0 <= x)) m.

(** A row of floats that never increases from left to right. *)
Fixpoint non_increasing (l : list xreal) : Prop :=
  match l with
  | a :: (b :: _) as t => xle b a /\ non_increasing t
  | _ => True
  end.

(** ** Auxiliary sums used in the proofs *)

(** The update that hits entry [(b, j)], and 0 for any other. *)
Definition hit (b j : nat) (ix : nat * nat * R) : R :=
  let '(r, c, x) := ix in if Nat.eqb r b && Nat.eqb c j then x else 0.

Definition hits (b j : nat) (l : list (nat * nat * R)) : R :=
  fold_right (fun ix s => hit b j ix + s) 0 l.

(** Largest value first. *)
Definition desc (x y : nat * R) : Prop := snd y <= snd x.

(** ** Concrete inputs *)

(** One example, a vocabulary of two words and one in-article OOV word
    (id 2) that occupies the first two of three encoder positions. *)
Definition ex_self : pointer_state :=
  {| vocab_size := 2;
     max_art_oovs := 1;
     batch_size := 1;
     enc_batch_extend_vocab := [[2; 2; 0]]%nat;
     p_gens := [[1 / 2]] |}.

Definition ex_vocab_dists : list mat := [[[1 / 2; 1 / 2]]].
Definition ex_attn_dists : list mat := [[[1 / 4; 1 / 2; 1 / 4]]].

(** Two decoder steps of one example whose second step is padding. *)
Definition ex_final_dists : list mat := [[[1 / 2; 1 / 2]]; [[1 / 4; 3 / 4]]].
Definition ex_target_batch : list (list nat) := [[1; 0]]%nat.
Definition ex_padding_mask : mat := [[1; 0]].
Definition ex_values : list vec := [[2]; [3]].
Definition ex_attn_steps : list mat := [[[1; 0]]; [[1 / 2; 1 / 2]]].

(** A one-node graph with a self-arc among the incoming arcs, weight 1
    on the incoming projection and every other weight and bias 0. *)
Definition ex_label_vars : label_vars :=
  {| b_gout := 0; b_gin := 0; b_gloop := 0 |}.

Definition ex_layer_vars : layer_vars :=
  {| w_in := [[1]];
     w_out := [[0]];
     w_loop := [[0]];
     b_layer := 0;
     b_out := [0];
     w_gin := [[0]];
     w_gout := [[0]];
     w_gloop := [[0]];
     w_adjust := [[1]];
     label := fun _ => ex_label_vars |}.

Definition ex_adj_in : list (list sparse) :=
  [[ {| sp_entries := [(O, O, 1)]; sp_rows := 1 |} ]].
Definition ex_adj_out : list (list sparse) :=
  [[ {| sp_entries := []; sp_rows := 1 |} ]].

Definition ex_hps (reg cov : bool) : hparams :=
  {| Hps.mode := Train;
     Hps.pointer_gen := true;
     Hps.coverage := cov;
     Hps.use_regularizer := reg;
     Hps.beta_l2 := 1;
     Hps.cov_loss_wt := 1;
     Hps.use_label_information := true |}.

(** The layer on the one-node graph, with gating and without skip
    connection, normalisation or dropout. *)
Definition ex_gcn (nn_dropout : list nat -> R -> t3 -> t3) : outcome t3 :=
  _add_gcn_layer nn_dropout (ex_hps false false) (fun _ _ => ex_layer_vars)
    [[[1]]] 1 1 1 1 1 ex_adj_in ex_adj_out [[1]] 1
    true false false 1 String.EmptyString false.

(** The same layer without gating. *)
Definition ex_gcn_ungated (nn_dropout : list nat -> R -> t3 -> t3)
  : outcome t3 :=
  _add_gcn_layer nn_dropout (ex_hps false false) (fun _ _ => ex_layer_vars)
    [[[1]]] 1 1 1 1 1 ex_adj_in ex_adj_out [[1]] 1
    false false false 1 String.EmptyString false.

(** ** Further quantities used in the statements *)

(** The attention of one example on the encoder positions whose
    extended-vocabulary id is below [W]. *)
Definition in_range_mass (W : nat) (ids : list nat) (ws : vec) : R :=
  reduce_sum (map2 (fun id w => if Nat.ltb id W then w else 0) ids ws).

(** ** Further concrete inputs *)

(** [ex_values] as floats, and with another value at the padded
    step. *)
Definition ex_values_float : list (list xreal) := [[Fin 2]; [Fin 3]].
Definition ex_values_float_alt : list (list xreal) := [[Fin 2]; [Fin 7]].

(** Two steps of one example whose second, padded, step gives its
    target token (id 0) no probability. *)
Definition ex_final_dists_zero : list mat := [[[1 / 2; 1 / 2]]; [[0; 1]]].

(** Two steps of one example that attend to different positions. *)
Definition ex_attn_disjoint : list mat := [[[1; 0]]; [[0; 1]]].

(** Hyperparameters with [use_label_information] off. *)
Definition ex_hps_unlabelled : hparams :=
  {| Hps.mode := Train;
     Hps.pointer_gen := true;
     Hps.coverage := false;
     Hps.use_regularizer := false;
     Hps.beta_l2 := 1;
     Hps.cov_loss_wt := 1;
     Hps.use_label_information := false |}.

(** [ex_adj_in] with an arc of a second label. *)
Definition ex_adj_in_two_labels : list (list sparse) :=
  [[ {| sp_entries := [(O, O, 1)]; sp_rows := 1 |};
     {| sp_entries := [(O, O, 4)]; sp_rows := 1 |} ]].

(** A dropout that keeps every entry. *)
Definition ex_dropout : list nat -> R -> t3 -> t3 := fun _ _ x => x.

(** ** The wiring of the encoders ([_add_seq2seq]) *)

Module Topology.

(** The variable scopes of the calls of [_add_encoder] and
    [_add_gcn_layer], and the weights the wiring itself creates. *)
Inductive encoder_scope : Type := Encoder | StackedEncoder | QueryEncoder.
Inductive gcn_scope : Type := GcnWord | GcnQuery.
Inductive weight : Type :=
| W_adjust | B_highway | W_adjust_upper_concat | B_upper_concat
| W_word | B_word | W_gcn_lstm | B_gcn_lstm.

(** A tensor of the graph that [_add_seq2seq] builds between the
    embeddings and the decoder. *)
Inductive node : Type :=
| emb_enc_inputs                                    (* (batch, steps, emb_dim) *)
| emb_query_inputs
| encoder_outputs (scope : encoder_scope) (inputs : node)
    (* first result of [_add_encoder(inputs, ..., name=scope)] *)
| gcn_outputs (scope : gcn_scope) (in_dim gcn_dim : nat) (gcn_in : node)
    (* [_add_gcn_layer(gcn_in=gcn_in, in_dim=in_dim, gcn_dim=gcn_dim, ...)] *)
| tensordot_node (x : node) (w : weight) (rows cols : nat)
    (* [tf.tensordot(x, w, axes=[[2],[0]])], [w] of shape [rows, cols] *)
| dense_relu (x : node) (w b : weight) (rows cols : nat)
    (* [tf.nn.relu(tf.add(tf.tensordot(x, w, axes=[[2],[0]]), b))],
       [w] of shape [rows, cols] and [b] of shape [1, cols] *)
| highway (b : weight) (x y : node)                 (* [b * x + (1.0 - b) * y] *)
| concat_axis2 (x y : node).                        (* [tf.concat(axis=2, [x, y])] *)

(** The hyperparameters that select the wiring; the flags that
    [_add_placeholders] reads from [FLAGS] are taken to have the values
    of [self._hps]. *)
Record flags := {
  no_lstm_encoder : bool;
  stacked_lstm : bool;
  word_gcn : bool;
  use_gcn_lstm_parallel : bool;
  concat_with_word_embedding : bool;
  concat_gcn_lstm : bool;
  query_encoder : bool;
  no_lstm_query_encoder : bool;
  query_gcn : bool;
  simple_concat : bool;
  emb_dim : nat;
  hidden_dim : nat;
  word_gcn_dim : nat;
  query_gcn_dim : nat
}.

(** What the wiring leaves on [self]: the attention memories, and the
    encoder whose final states [_reduce_states] turns into
    [self._dec_in_state] ([None] when that is left to [_add_decoder]). *)
Record wiring := {
  _enc_states : node;
  _query_states : option node;
  reduced_encoder : option encoder_scope
}.

(** The size of the last axis of a tensor; a sum broadcasts an axis of
    size 1. *)
Fixpoint last_dim (f : flags) (n : node) : nat :=
  match n with
  | emb_enc_inputs | emb_query_inputs => emb_dim f
  | encoder_outputs _ _ => (hidden_dim f * 2)%nat
  | gcn_outputs _ _ gcn_dim _ => gcn_dim
  | tensordot_node _ _ _ cols => cols
  | dense_relu _ _ _ _ cols => cols
  | highway _ x y =>
      if Nat.eqb (last_dim f x) 1 then last_dim f y else last_dim f x
  | concat_axis2 x y => (last_dim f x + last_dim f y)%nat
  end.

(** Two last axes that a sum accepts: of one size, or one of size 1. *)
Definition broadcastable (a b : nat) : bool :=
  Nat.eqb a b || Nat.eqb a 1 || Nat.eqb b 1.

(** [b * x + (1.0 - b) * y]; the sum of two tensors whose last axes,
    both known when the graph is built, cannot be broadcast raises
    [ValueError]. *)
Definition mix (f : flags) (b : weight) (x y : node) : outcome node :=
  if broadcastable (last_dim f x) (last_dim f y)
  then Value (highway b x y)
  else Raised.

(** Lines 582-598: [(self._enc_states, enc_outputs, reduced encoder)];
    [enc_outputs] is not bound when there is no recurrent encoder. *)
Definition encoder_part (f : flags)
  : node * option node * option encoder_scope :=
  if no_lstm_encoder f
  then (emb_enc_inputs, None, None)
  else
    let enc_outputs := encoder_outputs Encoder emb_enc_inputs in
    if stacked_lstm f
    then let enc_outputs := encoder_outputs StackedEncoder enc_outputs in
         (enc_outputs, Some enc_outputs, Some StackedEncoder)
    else (enc_outputs, Some enc_outputs, Some Encoder).

(** Lines 601-648: the new [self._enc_states]. Without a recurrent
    encoder [enc_states] is the embeddings as they were before line
    612 projects them, so that line 615 adds tensors of widths
    [2 * hidden_dim] and [emb_dim]. *)
Definition word_part (f : flags) (enc_states : node)
    (enc_outputs : option node) : outcome node :=
  if word_gcn f
  then
    gcn_in_dim <-
      (if use_gcn_lstm_parallel f
       then Value (emb_enc_inputs, emb_dim f)
       else if concat_with_word_embedding f
       then
         let emb_enc_inputs :=
           if negb (Nat.eqb (emb_dim f) (hidden_dim f * 2))
           then tensordot_node emb_enc_inputs W_adjust
                               (emb_dim f) (hidden_dim f * 2)
           else emb_enc_inputs in
         gcn_in <- mix f B_highway emb_enc_inputs enc_states ;;
         Value (gcn_in, (hidden_dim f * 2)%nat)
       else Value (enc_states,
                   if no_lstm_encoder f
                   then emb_dim f else (hidden_dim f * 2)%nat)) ;;
    let gcn_outputs :=
      gcn_outputs GcnWord (snd gcn_in_dim) (word_gcn_dim f) (fst gcn_in_dim) in
    if concat_gcn_lstm f && word_gcn f
    then
      let gcn_outputs :=
        if negb (Nat.eqb (word_gcn_dim f) (hidden_dim f * 2))
        then tensordot_node gcn_outputs W_adjust_upper_concat
                            (word_gcn_dim f) (hidden_dim f * 2)
        else gcn_outputs in
      match enc_outputs with
      | Some enc_outputs => mix f B_upper_concat enc_outputs gcn_outputs
      | None => Raised                       (* NameError: enc_outputs *)
      end
    else Value gcn_outputs
  else Value enc_states.

(** Lines 651-687: [self._query_states], set when there is a query
    encoder. *)
Definition query_part (f : flags) : outcome (option node) :=
  if query_encoder f
  then
    let qs_qo :=
      if no_lstm_query_encoder f
      then (emb_query_inputs, None)
      else let query_outputs := encoder_outputs QueryEncoder emb_query_inputs in
           (query_outputs, Some query_outputs) in
    let query_states := fst qs_qo in
    let query_outputs := snd qs_qo in
    if query_gcn f
    then
      let q_gcn_in_dim :=
        if use_gcn_lstm_parallel f
        then (emb_query_inputs, emb_dim f)
        else (query_states,
              if no_lstm_query_encoder f
              then emb_dim f else (hidden_dim f * 2)%nat) in
      let q_gcn_outputs :=
        gcn_outputs GcnQuery (snd q_gcn_in_dim) (query_gcn_dim f)
                    (fst q_gcn_in_dim) in
      if concat_gcn_lstm f && query_gcn f
      then
        if simple_concat f
        then match query_outputs with
             | Some query_outputs =>
                 Value (Some (concat_axis2 query_outputs q_gcn_outputs))
             | None => Raised                 (* NameError: query_outputs *)
             end
        else Raised                           (* NameError: q_gcn_word_w *)
      else Value (Some q_gcn_outputs)
    else Value (Some query_states)
  else Value None.

(** The encoder wiring of [_add_seq2seq], lines 582-688. *)
Definition add_seq2seq_wiring (f : flags) : outcome wiring :=
  let '(enc_states, enc_outputs, reduced) := encoder_part f in
  enc_states <- word_part f enc_states enc_outputs ;;
  query_states <- query_part f ;;
  Value {| _enc_states := enc_states;
           _query_states := query_states;
           reduced_encoder := reduced |}.

(** The encoder wiring of [_add_gcn_seq2seq], lines 801-872: the GCN
    first, the recurrent encoder over its outputs. The call of line 807
    reads [self._max_word_seq_len], [self._word_adj_in] and the other
    placeholders that [_add_placeholders] creates only with
    [word_gcn]. *)
Definition add_gcn_seq2seq_wiring (f : flags) : outcome wiring :=
  let gcn_in := emb_enc_inputs in
  let in_dim := emb_dim f in
  gcn_outputs <-
    (if word_gcn f
     then Value (gcn_outputs GcnWord in_dim (word_gcn_dim f) gcn_in)
     else Raised) ;;                   (* AttributeError: _max_word_seq_len *)
  let gcn_outputs :=
    if concat_with_word_embedding f
    then
      let interm_outputs_1 := concat_axis2 emb_enc_inputs gcn_outputs in
      dense_relu interm_outputs_1 W_word B_word
                 (word_gcn_dim f + emb_dim f) (word_gcn_dim f)
    else gcn_outputs in
  let enc_outputs := encoder_outputs Encoder gcn_outputs in
  let enc_states :=
    if concat_gcn_lstm f && word_gcn f
    then
      if simple_concat f
      then concat_axis2 enc_outputs gcn_outputs
      else
        let interm_outputs_2 := concat_axis2 enc_outputs gcn_outputs in
        dense_relu interm_outputs_2 W_gcn_lstm B_gcn_lstm
                   (word_gcn_dim f + hidden_dim f * 2) (hidden_dim f * 2)
    else enc_outputs in
  query_states <-
    (if query_encoder f
     then
       let q_gcn_in := emb_query_inputs in
       let q_in_dim := emb_dim f in
       let q_gcn_outputs :=
         if query_gcn f
         then
           let q_gcn_outputs :=
             Topology.gcn_outputs GcnQuery q_in_dim (query_gcn_dim f)
                                  q_gcn_in in
           if concat_with_word_embedding f
           then concat_axis2 emb_query_inputs q_gcn_outputs
           else q_gcn_outputs
         else q_gcn_in in
       let query_outputs := encoder_outputs QueryEncoder q_gcn_outputs in
       if concat_gcn_lstm f && query_gcn f
       then
         if simple_concat f
         then Value (Some (concat_axis2 q_gcn_outputs query_outputs))
         else Raised                          (* NameError: q_gcn_word_w *)
       else Value (Some query_outputs)
     else Value None) ;;
  Value {| _enc_states := enc_states;
           _query_states := query_states;
           reduced_encoder := Some Encoder |}.

(** Every [in_dim] handed to [_add_gcn_layer] is the last dimension of
    its [gcn_in], every weight matrix has as many rows as the tensor
    it is contracted with has entries along its last axis, and the last
    axes of the two tensors of every mix [b * x + (1 - b) * y] can be
    broadcast. *)
Fixpoint well_shaped (f : flags) (n : node) : Prop :=
  match n with
  | emb_enc_inputs | emb_query_inputs => True
  | encoder_outputs _ x => well_shaped f x
  | gcn_outputs _ in_dim _ x => well_shaped f x /\ in_dim = last_dim f x
  | tensordot_node x _ rows _ => well_shaped f x /\ rows = last_dim f x
  | dense_relu x _ _ rows _ => well_shaped f x /\ rows = last_dim f x
  | highway _ x y =>
      well_shaped f x /\ well_shaped f y
      /\ broadcastable (last_dim f x) (last_dim f y) = true
  | concat_axis2 x y => well_shaped f x /\ well_shaped f y
  end.

(** A word GCN over the mix of the embeddings with the encoder's
    outputs, its own outputs mixed with the encoder's again. *)
Definition ex_flags : flags :=
  {| no_lstm_encoder := false;
     stacked_lstm := false;
     word_gcn := true;
     use_gcn_lstm_parallel := false;
     concat_with_word_embedding := true;
     concat_gcn_lstm := true;
     query_encoder := false;
     no_lstm_query_encoder := false;
     query_gcn := false;
     simple_concat := false;
     emb_dim := 6;
     hidden_dim := 8;
     word_gcn_dim := 12;
     query_gcn_dim := 12 |}.

(** A query GCN to be mixed with the query encoder's outputs, without
    [simple_concat]. *)
Definition ex_flags_raising : flags :=
  {| no_lstm_encoder := false;
     stacked_lstm := false;
     word_gcn := false;
     use_gcn_lstm_parallel := false;
     concat_with_word_embedding := false;
     concat_gcn_lstm := true;
     query_encoder := true;
     no_lstm_query_encoder := false;
     query_gcn := true;
     simple_concat := false;
     emb_dim := 6;
     hidden_dim := 8;
     word_gcn_dim := 12;
     query_gcn_dim := 12 |}.

(** No recurrent encoder, and a word GCN over the mix of the embeddings
    of width 6, projected to width 16, with the embeddings
    themselves. *)
Definition ex_flags_mismatch : flags :=
  {| no_lstm_encoder := true;
     stacked_lstm := false;
     word_gcn := true;
     use_gcn_lstm_parallel := false;
     concat_with_word_embedding := true;
     concat_gcn_lstm := false;
     query_encoder := false;
     no_lstm_query_encoder := false;
     query_gcn := false;
     simple_concat := false;
     emb_dim := 6;
     hidden_dim := 8;
     word_gcn_dim := 12;
     query_gcn_dim := 12 |}.

End Topology.

(** ** Decoder states in beam search ([get_initial_cell_state],
       [run_encoder], [decode_onestep]) *)

Module Beam.

(** The decoder state of a whole batch, as [sess.run] returns it: an
    [LSTMStateTuple] of two arrays (batch, hidden_dim), or one such
    array for the basic RNN cell. *)
Inductive batch_state : Type :=
| BatchLSTMStateTuple (c h : mat)
| batch_array (a : mat).

(** The decoder state of one hypothesis: an [LSTMStateTuple] of two
    arrays (hidden_dim), or a bare array of rank 1 or 2. *)
Inductive beam_state : Type :=
| LSTMStateTuple (c h : vec)
| array1 (a : vec)
| array2 (a : mat).

(** [cell.state_size]: a pair for [LSTMCell(state_is_tuple=True)], an
    integer for [BasicRNNCell]. *)
Inductive state_size : Type :=
| size_tuple (c h : nat)
| size_int (n : nat).

(** [variable_state_initializer], lines 66-88: the variable
    [init_state_<index>], given by [var], with a new leading axis,
    tiled [batch_size] times. *)
Definition variable_state_initializer (var : option nat -> vec)
    (batch_size : nat) (index : option nat) : mat :=
  repeat (var index) batch_size.

(** [get_initial_cell_state], lines 33-62. *)
Definition get_initial_cell_state (size : state_size)
    (var : option nat -> vec) (batch_size : nat) : batch_state :=
  match size with
  | size_tuple _ _ =>
      BatchLSTMStateTuple
        (variable_state_initializer var batch_size (Some 0%nat))
        (variable_state_initializer var batch_size (Some 1%nat))
  | size_int _ =>
      batch_array (variable_state_initializer var batch_size None)
  end.

(** [a[i]] and [a[i, :]] on an array of rank 2. *)
Definition row_at (i : nat) (a : mat) : outcome vec :=
  match nth_error a i with
  | Some r => Value r
  | None => Raised                               (* IndexError *)
  end.

(** [run_encoder], lines 1041-1044: the state handed to beam search. *)
Definition run_encoder_state (use_lstm : bool) (dec_in_state : batch_state)
  : outcome beam_state :=
  if use_lstm
  then match dec_in_state with
       | BatchLSTMStateTuple c h =>
           c0 <- row_at 0 c ;; h0 <- row_at 0 h ;;
           Value (LSTMStateTuple c0 h0)
       | batch_array _ => Raised                 (* AttributeError: c *)
       end
  else match dec_in_state with
       | BatchLSTMStateTuple c _ => Value (array2 c)
       | batch_array a => a0 <- row_at 0 a ;; Value (array1 a0)
       end.

(** [state.c] and [state.h]. *)
Definition state_c (state : beam_state) : outcome vec :=
  match state with
  | LSTMStateTuple c _ => Value c
  | _ => Raised                                  (* AttributeError *)
  end.

Definition state_h (state : beam_state) : outcome vec :=
  match state with
  | LSTMStateTuple _ h => Value h
  | _ => Raised
  end.

(** [np.concatenate(rows, axis=0)] of arrays [np.expand_dims(r, axis=0)]:
    at least one array, all of one length. *)
Definition np_concatenate (rows : list vec) : outcome mat :=
  match rows with
  | [] => Raised                                 (* ValueError *)
  | r :: rest =>
      if forallb (fun x => Nat.eqb (length x) (length r)) rest
      then Value rows
      else Raised                                (* ValueError *)
  end.

(** [decode_onestep], lines 1073-1077: [new_dec_in_state]. *)
Definition stack_states (dec_init_states : list beam_state)
  : outcome batch_state :=
  cells <- mapM state_c dec_init_states ;;
  hiddens <- mapM state_h dec_init_states ;;
  new_c <- np_concatenate cells ;;
  new_h <- np_concatenate hiddens ;;
  Value (BatchLSTMStateTuple new_c new_h).

(** [decode_onestep], lines 1115-1116: [new_states]. *)
Definition split_states (beam_size : nat) (states : batch_state)
  : outcome (list beam_state) :=
  mapM (fun i =>
          match states with
          | BatchLSTMStateTuple c h =>
              ci <- row_at i c ;; hi <- row_at i h ;;
              Value (LSTMStateTuple ci hi)
          | batch_array _ => Raised              (* AttributeError: c *)
          end)
       (seq 0 beam_size).

(** A beam of LSTM states of dimensions [n] and [m]. *)
Definition lstm_state_of (n m : nat) (state : beam_state) : Prop :=
  match state with
  | LSTMStateTuple c h => length c = n /\ length h = m
  | _ => False
  end.

Definition ex_beam : list beam_state :=
  [LSTMStateTuple [1; 2] [3; 4]; LSTMStateTuple [5; 6] [7; 8];
   LSTMStateTuple [0; 1] [0; 2]].

Definition ex_var (index : option nat) : vec :=
  match index with
  | Some 0%nat => [1; 2]
  | Some _ => [3; 4]
  | None => [5; 6]
  end.

End Beam.

(** * Properties *)

(** ** Lists and tensors *)

Lemma map2_length {A B C : Type} (f : A -> B -> C) (l1 : list A) (l2 : list B) :
  length (map2 f l1 l2) = Nat.min (length l1) (length l2).
Proof.
  revert l2; induction l1 as [|a l1 IH]; intros [|b l2]; simpl; auto.
Qed.

Lemma nth_map2 {A B C : Type} (f : A -> B -> C) (da : A) (db : B) (dc : C) :
  forall (l1 : list A) (l2 : list B) (i : nat),
    (i < length l1)%nat -> (i < length l2)%nat ->
    nth i (map2 f l1 l2) dc = f (nth i l1 da) (nth i l2 db).
Proof.
  induction l1 as [|a l1 IH]; intros [|b l2] [|i] H1 H2; simpl in *;
    try lia; auto.
  apply IH; lia.
Qed.

Lemma has_shape_nth {A : Type} (m : list (list A)) (r c b : nat) :
  has_shape m r c -> (b < r)%nat -> length (nth b m []) = c.
Proof.
  intros [Hl Hf] Hb. rewrite Forall_forall in Hf.
  apply Hf, nth_In. lia.
Qed.

Lemma upd_length {A : Type} (f : A -> A) (l : list A) :
  forall n, length (upd n f l) = length l.
Proof.
  induction l as [|a l IH]; intros [|n]; simpl; auto.
Qed.

Lemma nth_upd_same {A : Type} (f : A -> A) (d : A) (l : list A) :
  forall n, (n < length l)%nat -> nth n (upd n f l) d = f (nth n l d).
Proof.
  induction l as [|a l IH]; intros [|n] H; simpl in *; try lia; auto.
  apply IH; lia.
Qed.

Lemma nth_upd_other {A : Type} (f : A -> A) (d : A) (l : list A) :
  forall n k, n <> k -> nth k (upd n f l) d = nth k l d.
Proof.
  induction l as [|a l IH]; intros [|n] [|k] H; simpl; auto; try lia.
Qed.

Lemma add_at_row_length (m : mat) (ix : nat * nat * R) (b : nat) :
  length (nth b (add_at m ix) []) = length (nth b m []).
Proof.
  destruct ix as [[r c] x]. unfold add_at.
  destruct (Nat.eq_dec r b) as [->|Hne].
  - destruct (Nat.lt_ge_cases b (length m)) as [Hlt|Hge].
    + rewrite nth_upd_same by assumption. apply upd_length.
    + rewrite !nth_overflow; auto. rewrite upd_length. assumption.
  - rewrite nth_upd_other by assumption. reflexivity.
Qed.

Lemma add_at_length (m : mat) (ix : nat * nat * R) :
  length (add_at m ix) = length m.
Proof. destruct ix as [[r c] x]. apply upd_length. Qed.

Lemma get2_add_at (m : mat) (ix : nat * nat * R) (b j : nat) :
  (b < length m)%nat -> (j < length (nth b m []))%nat ->
  get2 (add_at m ix) b j = get2 m b j + hit b j ix.
Proof.
  intros Hb Hj. destruct ix as [[r c] x]. unfold get2, add_at, hit.
  destruct (Nat.eq_dec r b) as [->|Hr].
  - rewrite Nat.eqb_refl. simpl. rewrite nth_upd_same by assumption.
    destruct (Nat.eq_dec c j) as [->|Hc].
    + rewrite Nat.eqb_refl, nth_upd_same by assumption. reflexivity.
    + rewrite nth_upd_other by assumption.
      apply Nat.eqb_neq in Hc. rewrite Hc. lra.
  - rewrite nth_upd_other by assumption.
    apply Nat.eqb_neq in Hr. rewrite Hr. simpl. lra.
Qed.

Lemma get2_fold_add_at (l : list (nat * nat * R)) :
  forall (m : mat) (b j : nat),
    (b < length m)%nat -> (j < length (nth b m []))%nat ->
    get2 (fold_left add_at l m) b j = get2 m b j + hits b j l.
Proof.
  induction l as [|ix l IH]; intros m b j Hb Hj; simpl.
  - lra.
  - rewrite IH.
    + rewrite get2_add_at by assumption. lra.
    + rewrite add_at_length. assumption.
    + rewrite add_at_row_length. assumption.
Qed.

Lemma hits_app (b j : nat) (l1 l2 : list (nat * nat * R)) :
  hits b j (l1 ++ l2) = hits b j l1 + hits b j l2.
Proof.
  induction l1 as [|ix l1 IH]; simpl.
  - lra.
  - rewrite IH. lra.
Qed.

Lemma nth_repeat_lt {A : Type} (a d : A) (n i : nat) :
  (i < n)%nat -> nth i (repeat a n) d = a.
Proof.
  revert i; induction n as [|n IH]; intros [|i] H; simpl; try lia; auto.
  apply IH; lia.
Qed.

Lemma get2_zeros (r c b j : nat) : get2 (zeros r c) b j = 0.
Proof.
  unfold get2, zeros.
  destruct (Nat.lt_ge_cases b r) as [Hb|Hb].
  - rewrite (nth_repeat_lt _ _ _ _ Hb).
    destruct (Nat.lt_ge_cases j c) as [Hj|Hj].
    + apply nth_repeat_lt; assumption.
    + apply nth_overflow. rewrite repeat_length. assumption.
  - rewrite (nth_overflow (repeat _ _)) by (rewrite repeat_length; assumption).
    destruct j; reflexivity.
Qed.

Lemma copy_mass_nil_r (j : nat) (ids : list nat) : copy_mass j ids [] = 0.
Proof. destruct ids; reflexivity. Qed.

Lemma nth_nil {A : Type} (k : nat) (d : A) : nth k [] d = d.
Proof. destruct k; reflexivity. Qed.

(** The updates of one example all go to that example's row. *)
Lemma hits_row (b j b' : nat) (row : list nat) :
  forall (len : nat) (ws : vec),
    (length row <= len)%nat ->
    hits b j (combine (map2 pair (repeat b' len) row) ws)
    = if Nat.eqb b' b then copy_mass j row ws else 0.
Proof.
  induction row as [|id row IH]; intros len ws Hlen.
  - destruct len; simpl; destruct (Nat.eqb b' b); reflexivity.
  - destruct len as [|len]; [simpl in Hlen; lia|].
    destruct ws as [|w ws]; simpl.
    + destruct (Nat.eqb b' b); reflexivity.
    + rewrite IH by (simpl in Hlen; lia).
      destruct (Nat.eqb b' b); simpl; lra.
Qed.

Lemma hits_rows (b j len : nat) (ext : list (list nat)) :
  forall (upds : mat) (s n : nat),
    Forall (fun row => length row = len) ext ->
    hits b j (concat (map2 (@combine (nat * nat) R)
                           (stack2 (tile1 (seq s n) len) ext) upds))
    = if Nat.leb s b && Nat.ltb b (s + n)
      then copy_mass j (nth (b - s) ext []) (nth (b - s) upds [])
      else 0.
Proof.
  induction ext as [|row ext IH]; intros upds s n Hf.
  - replace (stack2 (tile1 (seq s n) len) []) with (@nil (list (nat * nat)))
      by (unfold stack2; destruct (tile1 (seq s n) len); reflexivity).
    simpl. destruct (b - s)%nat; destruct (_ && _); reflexivity.
  - inversion Hf as [|? ? Hrow Hext]. clear Hf.
    destruct n as [|n].
    + simpl. replace (Nat.ltb b (s + 0)) with (negb (Nat.leb s b)).
      * destruct (Nat.leb s b); reflexivity.
      * destruct (Nat.leb_spec s b), (Nat.ltb_spec b (s + 0)); simpl; auto; lia.
    + destruct upds as [|ws upds].
      * rewrite nth_nil, copy_mass_nil_r. simpl.
        destruct (_ && _); reflexivity.
      * cbn [tile1 seq map stack2 map2 concat].
        rewrite hits_app, hits_row by lia.
        fold (tile1 (seq (S s) n) len).
        fold (stack2 (tile1 (seq (S s) n) len) ext).
        rewrite (IH upds (S s) n Hext).
        destruct (Nat.lt_trichotomy b s) as [Hlt|[Heq|Hgt]].
        -- rewrite (proj2 (Nat.eqb_neq s b)) by lia.
           rewrite (proj2 (Nat.leb_gt s b)) by lia.
           rewrite (proj2 (Nat.leb_gt (S s) b)) by lia.
           simpl andb. cbv iota. lra.
        -- subst b.
           rewrite Nat.eqb_refl, Nat.sub_diag.
           rewrite (proj2 (Nat.leb_gt (S s) s)) by lia.
           rewrite (proj2 (Nat.leb_le s s)) by lia.
           rewrite (proj2 (Nat.ltb_lt s (s + S n))) by lia.
           simpl. lra.
        -- rewrite (proj2 (Nat.eqb_neq s b)) by lia.
           rewrite (proj2 (Nat.leb_le s b)) by lia.
           rewrite (proj2 (Nat.leb_le (S s) b)) by lia.
           replace (s + S n)%nat with (S s + n)%nat by lia.
           replace (b - s)%nat with (S (b - S s)) by lia.
           simpl andb. cbn [nth].
           destruct (Nat.ltb b (S s + n)); lra.
Qed.

Lemma get2_scatter_nd (B W len b j : nat) (ext : list (list nat)) (upds : mat) :
  Forall (fun row => length row = len) ext ->
  (b < B)%nat -> (j < W)%nat ->
  get2 (scatter_nd (stack2 (tile1 (range B) len) ext) upds (B, W)) b j
  = copy_mass j (nth b ext []) (nth b upds []).
Proof.
  intros Hf Hb Hj. unfold scatter_nd, range. simpl fst; simpl snd.
  rewrite get2_fold_add_at.
  - rewrite get2_zeros, (hits_rows b j len ext upds 0 B Hf).
    rewrite Nat.sub_0_r. simpl Nat.leb.
    replace (Nat.ltb b (0 + B)) with true
      by (symmetry; apply Nat.ltb_lt; lia).
    simpl. lra.
  - unfold zeros. rewrite repeat_length. assumption.
  - unfold zeros. rewrite (nth_repeat_lt _ _ _ _ Hb), repeat_length.
    assumption.
Qed.

(** [lia] after the tensor types are unfolded to lists. *)
Ltac len_lia := unfold mat, vec in *; lia.

Lemma nth_map_lt {A B : Type} (f : A -> B) (da : A) (db : B) (l : list A) :
  forall i, (i < length l)%nat -> nth i (map f l) db = f (nth i l da).
Proof.
  induction l as [|a l IH]; intros [|i] H; simpl in *; try lia; auto.
  apply IH; lia.
Qed.

Lemma get2_madd (m n : mat) (b j : nat) :
  (b < length m)%nat -> (b < length n)%nat ->
  (j < length (nth b m []))%nat -> (j < length (nth b n []))%nat ->
  get2 (madd m n) b j = get2 m b j + get2 n b j.
Proof.
  intros Hm Hn Hjm Hjn. unfold get2, madd.
  rewrite (nth_map2 (A:=vec) (B:=vec) (C:=vec) vadd [] [] []) by assumption.
  unfold vadd. apply (nth_map2 Rplus 0 0 0); assumption.
Qed.

Lemma copy_mass_scale (c : R) (j : nat) (ids : list nat) :
  forall ws, copy_mass j ids (map (Rmult c) ws) = c * copy_mass j ids ws.
Proof.
  induction ids as [|id ids IH]; intros [|w ws]; simpl; try lra.
  rewrite IH. destruct (Nat.eqb id j); lra.
Qed.

Lemma shape1_has_shape {A : Type} (m : list (list A)) (r c : nat) :
  has_shape m r c -> (0 < r)%nat -> shape1 m = c.
Proof.
  intros [Hl Hf] Hr. destruct m as [|row m]; simpl in *; [lia|].
  inversion Hf; assumption.
Qed.

Lemma scatter_nd_shape (idx : list (list (nat * nat))) (upds : mat) (B W : nat) :
  has_shape (scatter_nd idx upds (B, W)) B W.
Proof.
  unfold scatter_nd. simpl fst; simpl snd.
  generalize (concat (map2 (@combine (nat * nat) R) idx upds)) as l.
  assert (H0 : has_shape (zeros B W) B W).
  { split.
    - apply repeat_length.
    - apply Forall_forall. intros row Hin.
      apply repeat_spec in Hin. subst row. apply repeat_length. }
  revert H0. generalize (zeros B W) as m. intros m Hm l. revert m Hm.
  induction l as [|ix l IH]; intros m Hm; simpl; [assumption|].
  apply IH. destruct Hm as [Hl Hf]. split.
  - rewrite add_at_length. assumption.
  - apply Forall_forall. intros row Hin.
    destruct (In_nth _ _ [] Hin) as [k [Hk Hrow]].
    rewrite <- Hrow, add_at_row_length.
    rewrite Forall_forall in Hf. apply Hf, nth_In.
    rewrite add_at_length in Hk. assumption.
Qed.

Lemma concat1_row (pg : vec) (vd : mat) (B M b : nat) :
  length pg = B -> length vd = B -> (b < B)%nat ->
  nth b (concat1 (bcast_mul pg vd) (zeros B M)) []
  = map (Rmult (nth b pg 0)) (nth b vd []) ++ repeat 0 M.
Proof.
  intros Hp Hv Hb. unfold concat1.
  rewrite (nth_map2 (A:=vec) (B:=vec) (C:=vec) (@app R) [] [] []).
  - unfold bcast_mul.
    rewrite (nth_map2 (A:=R) (B:=vec) (C:=vec) _ 0 [] []) by len_lia.
    unfold zeros. rewrite (nth_repeat_lt _ _ _ _ Hb). reflexivity.
  - unfold bcast_mul. rewrite map2_length. len_lia.
  - unfold zeros. rewrite repeat_length. assumption.
Qed.

(** Entry [(b, j)] of step [t] of the distributions of
    [_calc_final_dist]. *)
Lemma final_dist_entry :
  forall (self : pointer_state) (vocab_dists attn_dists : list mat)
         (n t b j : nat),
    has_shape (enc_batch_extend_vocab self) (batch_size self) n ->
    (t < length (p_gens self))%nat ->
    (t < length vocab_dists)%nat ->
    (t < length attn_dists)%nat ->
    length (nth t (p_gens self) []) = batch_size self ->
    has_shape (nth t vocab_dists []) (batch_size self) (vocab_size self) ->
    has_shape (nth t attn_dists []) (batch_size self) n ->
    (b < batch_size self)%nat ->
    (j < vocab_size self + max_art_oovs self)%nat ->
    let p_gen := nth b (nth t (p_gens self) []) 0 in
    get2 (nth t (_calc_final_dist self vocab_dists attn_dists) []) b j
    = p_gen * (if Nat.ltb j (vocab_size self)
               then get2 (nth t vocab_dists []) b j else 0)
      + (1 - p_gen)
        * copy_mass j (nth b (enc_batch_extend_vocab self) [])
                      (nth b (nth t attn_dists []) []).
Proof.
  intros self vocab_dists attn_dists n t b j Hext Htp Htv Hta Hp Hv Ha Hb Hj
         p_gen.
  unfold _calc_final_dist. cbv zeta.
  set (B := batch_size self) in *. set (V := vocab_size self) in *.
  set (M := max_art_oovs self) in *.
  set (pg := nth t (p_gens self) []) in *.
  set (vd := nth t vocab_dists []) in *.
  set (ad := nth t attn_dists []) in *.
  rewrite (nth_map2 (A:=mat) (B:=mat) (C:=mat) madd [] [] []).
  2:{ rewrite length_map, map2_length. apply Nat.min_glb_lt; assumption. }
  2:{ rewrite length_map, map2_length. apply Nat.min_glb_lt; assumption. }
  rewrite (nth_map_lt (A:=mat) (B:=mat) _ [] [])
    by (rewrite map2_length; apply Nat.min_glb_lt; assumption).
  rewrite (nth_map_lt (A:=mat) (B:=mat) _ [] [])
    by (rewrite map2_length; apply Nat.min_glb_lt; assumption).
  rewrite (nth_map2 (A:=vec) (B:=mat) (C:=mat) bcast_mul [] [] [])
    by assumption.
  rewrite (nth_map2 (A:=vec) (B:=mat) (C:=mat) _ [] [] []) by assumption.
  fold pg vd ad.
  rewrite (shape1_has_shape _ _ _ Hext) by len_lia.
  pose proof (scatter_nd_shape
                (stack2 (tile1 (range B) n) (enc_batch_extend_vocab self))
                (bcast_mul (map (fun p => 1 - p) pg) ad) B (V + M)) as Hs.
  assert (Hrowv : length (nth b vd []) = V) by (apply (has_shape_nth _ B); assumption).
  assert (Hrow1 : nth b (concat1 (bcast_mul pg vd) (zeros B M)) []
                  = map (Rmult p_gen) (nth b vd []) ++ repeat 0 M)
    by (apply concat1_row; [assumption|apply Hv|assumption]).
  rewrite get2_madd.
  - rewrite (get2_scatter_nd B (V + M) n b j) by (destruct Hext; assumption).
    unfold get2 at 1. rewrite Hrow1.
    assert (Hrow2 : nth b (bcast_mul (map (fun p => 1 - p) pg) ad) []
                    = map (Rmult (1 - p_gen)) (nth b ad [])).
    { unfold bcast_mul. destruct Ha as [Hal _].
      rewrite (nth_map2 (A:=R) (B:=vec) (C:=vec) _ 0 [] [])
        by (rewrite ?length_map; len_lia).
      rewrite (nth_map_lt _ 0) by len_lia. reflexivity. }
    rewrite Hrow2, copy_mass_scale.
    f_equal.
    destruct (Nat.ltb_spec j V) as [Hlt|Hge].
    + rewrite app_nth1 by (rewrite length_map; len_lia).
      rewrite (nth_map_lt _ 0) by len_lia. reflexivity.
    + rewrite app_nth2 by (rewrite length_map; len_lia).
      rewrite nth_repeat_lt by (rewrite length_map; len_lia). lra.
  - unfold concat1, bcast_mul, zeros. destruct Hv as [Hvl _].
    rewrite !map2_length, repeat_length. len_lia.
  - destruct Hs as [Hsl _]. len_lia.
  - rewrite Hrow1, length_app, length_map, repeat_length. len_lia.
  - pose proof (has_shape_nth _ _ _ _ Hs Hb) as Hlen. len_lia.
Qed.

(** C1. At every decoder step [t], example [b] and slot [j] of the
    extended vocabulary, the distribution built by [_calc_final_dist] is
    the step's generation probability times the vocabulary distribution
    (zero on the [max_art_oovs] appended slots) plus [1 - p_gen] times the
    sum of the attention weights of all encoder positions whose
    extended-vocabulary id is [j]: weights directed at one slot add up. *)
Theorem calc_final_dist_entry :
  forall (self : pointer_state) (vocab_dists attn_dists : list mat)
         (n t b j : nat),
    has_shape (enc_batch_extend_vocab self) (batch_size self) n ->
    (t < length (p_gens self))%nat ->
    (t < length vocab_dists)%nat ->
    (t < length attn_dists)%nat ->
    length (nth t (p_gens self) []) = batch_size self ->
    has_shape (nth t vocab_dists []) (batch_size self) (vocab_size self) ->
    has_shape (nth t attn_dists []) (batch_size self) n ->
    (b < batch_size self)%nat ->
    (j < vocab_size self + max_art_oovs self)%nat ->
    let p_gen := nth b (nth t (p_gens self) []) 0 in
    get2 (nth t (_calc_final_dist self vocab_dists attn_dists) []) b j
    = p_gen * (if Nat.ltb j (vocab_size self)
               then get2 (nth t vocab_dists []) b j else 0)
      + (1 - p_gen)
        * copy_mass j (nth b (enc_batch_extend_vocab self) [])
                      (nth b (nth t attn_dists []) []).
Proof. exact final_dist_entry. Qed.

(** ** Sums *)

Lemma reduce_sum_app (u v : vec) :
  reduce_sum (u ++ v) = reduce_sum u + reduce_sum v.
Proof.
  unfold reduce_sum. induction u as [|x u IH]; simpl; lra.
Qed.

Lemma sum_below_S (n : nat) (f : nat -> R) :
  sum_below (S n) f = sum_below n f + f n.
Proof.
  unfold sum_below. rewrite seq_S, map_app, reduce_sum_app. simpl. lra.
Qed.

Lemma sum_below_ext (n : nat) (f g : nat -> R) :
  (forall i, (i < n)%nat -> f i = g i) -> sum_below n f = sum_below n g.
Proof.
  induction n as [|n IH]; intros H; [reflexivity|].
  rewrite !sum_below_S, IH, (H n) by auto with arith. reflexivity.
Qed.

Lemma sum_below_plus (n : nat) (f g : nat -> R) :
  sum_below n (fun i => f i + g i) = sum_below n f + sum_below n g.
Proof.
  induction n as [|n IH]; [unfold sum_below; simpl; lra|].
  rewrite !sum_below_S, IH. lra.
Qed.

Lemma sum_below_scale (n : nat) (c : R) (f : nat -> R) :
  sum_below n (fun i => c * f i) = c * sum_below n f.
Proof.
  induction n as [|n IH]; [unfold sum_below; simpl; lra|].
  rewrite !sum_below_S, IH. lra.
Qed.

Lemma sum_below_zero (n : nat) : sum_below n (fun _ => 0) = 0.
Proof.
  induction n as [|n IH]; [reflexivity|]. rewrite sum_below_S, IH. lra.
Qed.

Lemma reduce_sum_nth (v : vec) :
  reduce_sum v = sum_below (length v) (fun i => nth i v 0).
Proof.
  induction v as [|x v IH] using rev_ind; [reflexivity|].
  rewrite reduce_sum_app, length_app, Nat.add_comm. simpl length.
  rewrite sum_below_S, app_nth2, Nat.sub_diag by lia. simpl.
  rewrite IH. f_equal; [|lra].
  apply sum_below_ext. intros i Hi. rewrite app_nth1 by assumption.
  reflexivity.
Qed.

Lemma sum_below_indicator (W id : nat) (w : R) :
  sum_below W (fun j => if Nat.eqb id j then w else 0)
  = if Nat.ltb id W then w else 0.
Proof.
  induction W as [|W IH]; [reflexivity|].
  rewrite sum_below_S, IH.
  destruct (Nat.eqb_spec id W) as [->|Hne].
  - rewrite Nat.ltb_irrefl, (proj2 (Nat.ltb_lt W (S W))) by lia. lra.
  - destruct (Nat.ltb_spec id W), (Nat.ltb_spec id (S W)); try lia; lra.
Qed.

Lemma sum_below_prefix (V M : nat) (f : nat -> R) :
  sum_below (V + M) (fun j => if Nat.ltb j V then f j else 0) = sum_below V f.
Proof.
  induction M as [|M IH].
  - rewrite Nat.add_0_r. apply sum_below_ext. intros i Hi.
    rewrite (proj2 (Nat.ltb_lt i V)) by assumption. reflexivity.
  - rewrite Nat.add_succ_r, sum_below_S, IH.
    rewrite (proj2 (Nat.ltb_ge (V + M) V)) by lia. lra.
Qed.

(** The attention mass that lands inside an extended vocabulary of [W]
    slots. *)
Lemma sum_copy_mass (W : nat) (ids : list nat) :
  forall ws : vec,
    sum_below W (fun j => copy_mass j ids ws)
    = copy_mass 0 (map (fun id => if Nat.ltb id W then O else 1%nat) ids) ws.
Proof.
  induction ids as [|id ids IH]; intros [|w ws]; simpl;
    try apply sum_below_zero.
  rewrite sum_below_plus, sum_below_indicator, IH.
  destruct (Nat.ltb id W); reflexivity.
Qed.

Lemma copy_mass_all (ids : list nat) :
  forall ws : vec,
    length ids = length ws ->
    (forall i, (i < length ws)%nat -> nth i ids O <> O -> nth i ws 0 = 0) ->
    copy_mass 0 ids ws = reduce_sum ws.
Proof.
  induction ids as [|id ids IH]; intros [|w ws] Hl H; simpl in *;
    try discriminate; try reflexivity.
  rewrite IH.
  - destruct id as [|id]; simpl; [lra|].
    rewrite (H O) by (auto; lia). unfold reduce_sum. lra.
  - lia.
  - intros i Hi Hn. apply (H (S i)); [lia|assumption].
Qed.

(** C2. If at step [t] example [b]'s vocabulary distribution sums to 1,
    its attention distribution sums to 1 and gives no weight to an encoder
    position whose extended-vocabulary id is not below
    [vocab_size + max_art_oovs], and its generation probability is in
    [0, 1], then the row of the distribution of [_calc_final_dist] has
    [vocab_size + max_art_oovs] slots and these sum to 1. *)
Theorem calc_final_dist_sums_to_one :
  forall (self : pointer_state) (vocab_dists attn_dists : list mat)
         (n t b : nat),
    has_shape (enc_batch_extend_vocab self) (batch_size self) n ->
    (t < length (p_gens self))%nat ->
    (t < length vocab_dists)%nat ->
    (t < length attn_dists)%nat ->
    length (nth t (p_gens self) []) = batch_size self ->
    has_shape (nth t vocab_dists []) (batch_size self) (vocab_size self) ->
    has_shape (nth t attn_dists []) (batch_size self) n ->
    (b < batch_size self)%nat ->
    reduce_sum (nth b (nth t vocab_dists []) []) = 1 ->
    reduce_sum (nth b (nth t attn_dists []) []) = 1 ->
    (forall i, (i < n)%nat ->
       (vocab_size self + max_art_oovs self
        <= nth i (nth b (enc_batch_extend_vocab self) []) O)%nat ->
       nth i (nth b (nth t attn_dists []) []) 0 = 0) ->
    0 <= nth b (nth t (p_gens self) []) 0 <= 1 ->
    let row := nth b (nth t (_calc_final_dist self vocab_dists attn_dists) [])
                   [] in
    length row = (vocab_size self + max_art_oovs self)%nat
    /\ reduce_sum row = 1.
Proof.
  intros self vocab_dists attn_dists n t b Hext Htp Htv Hta Hp Hv Ha Hb
         Hvs Has Hmass Hpg row.
  assert (Hlen : length row = (vocab_size self + max_art_oovs self)%nat).
  { subst row. unfold _calc_final_dist. cbv zeta.
    rewrite (nth_map2 (A:=mat) (B:=mat) (C:=mat) madd [] [] []).
    2:{ rewrite length_map, map2_length. apply Nat.min_glb_lt; assumption. }
    2:{ rewrite length_map, map2_length. apply Nat.min_glb_lt; assumption. }
    rewrite (nth_map_lt (A:=mat) (B:=mat) _ [] [])
      by (rewrite map2_length; apply Nat.min_glb_lt; assumption).
    rewrite (nth_map_lt (A:=mat) (B:=mat) _ [] [])
      by (rewrite map2_length; apply Nat.min_glb_lt; assumption).
    rewrite (nth_map2 (A:=vec) (B:=mat) (C:=mat) bcast_mul [] [] [])
      by assumption.
    match goal with
    | |- context [scatter_nd ?i ?u (?B, ?W)] =>
        pose proof (scatter_nd_shape i u B W) as Hs
    end.
    pose proof (has_shape_nth _ _ _ _ Hs Hb) as H2.
    pose proof (has_shape_nth _ _ _ _ Hv Hb) as Hlv.
    pose proof (concat1_row (nth t (p_gens self) []) (nth t vocab_dists [])
                  (batch_size self) (max_art_oovs self) b Hp (proj1 Hv) Hb)
      as H1.
    assert (H1' : length (nth b (concat1
                     (bcast_mul (nth t (p_gens self) []) (nth t vocab_dists []))
                     (zeros (batch_size self) (max_art_oovs self))) [])
                  = (vocab_size self + max_art_oovs self)%nat).
    { rewrite H1, length_app, length_map, repeat_length. len_lia. }
    unfold madd.
    rewrite (nth_map2 (A:=vec) (B:=vec) (C:=vec) vadd [] [] []).
    - unfold vadd. rewrite map2_length. len_lia.
    - unfold concat1, bcast_mul, zeros. destruct Hv as [Hvl _].
      rewrite !map2_length, repeat_length. len_lia.
    - destruct Hs as [Hsl _]. len_lia. }
  split; [assumption|].
  rewrite reduce_sum_nth, Hlen.
  rewrite (sum_below_ext _ _
             (fun j => nth b (nth t (p_gens self) []) 0
                       * (if Nat.ltb j (vocab_size self)
                          then nth j (nth b (nth t vocab_dists []) []) 0
                          else 0)
                       + (1 - nth b (nth t (p_gens self) []) 0)
                         * copy_mass j (nth b (enc_batch_extend_vocab self) [])
                                     (nth b (nth t attn_dists []) []))).
  2:{ intros j Hj. subst row.
      apply (final_dist_entry self vocab_dists attn_dists n t b j);
        assumption. }
  rewrite sum_below_plus, !sum_below_scale, sum_below_prefix.
  pose proof (has_shape_nth _ _ _ _ Hv Hb) as Hlv.
  pose proof (has_shape_nth _ _ _ _ Ha Hb) as Hla.
  pose proof (has_shape_nth _ _ _ _ Hext Hb) as Hle.
  rewrite <- Hlv at 1. rewrite <- reduce_sum_nth, Hvs.
  rewrite sum_copy_mass, copy_mass_all, Has.
  - lra.
  - rewrite length_map. len_lia.
  - intros i Hi Hnz. apply Hmass; [len_lia|].
    rewrite (nth_map_lt (A:=nat) (B:=nat) _ O O) in Hnz by len_lia.
    destruct (Nat.ltb_spec (nth i (nth b (enc_batch_extend_vocab self) []) O)
                           (vocab_size self + max_art_oovs self));
      [congruence|assumption].
Qed.

(** ** Masked averages *)

Lemma sum_below_S_head (n : nat) (f : nat -> R) :
  sum_below (S n) f = f O + sum_below n (fun i => f (S i)).
Proof.
  unfold sum_below. simpl. rewrite <- seq_shift, map_map. reflexivity.
Qed.

Lemma vadd_length (u v : vec) :
  length u = length v -> length (vadd u v) = length u.
Proof. intros H. unfold vadd. rewrite map2_length. lia. Qed.

(** Entry [b] of Python's [sum] of a list of vectors. *)
Lemma nth_fold_vadd (l : list vec) :
  forall (acc : vec) (b : nat),
    Forall (fun v => length v = length acc) l ->
    (b < length acc)%nat ->
    nth b (fold_left vadd l acc) 0
    = nth b acc 0 + sum_below (length l) (fun t => nth b (nth t l []) 0).
Proof.
  induction l as [|v l IH]; intros acc b Hf Hb.
  - simpl. unfold sum_below. simpl. lra.
  - inversion Hf as [|? ? Hv Hl]; subst. simpl fold_left. simpl length.
    rewrite IH.
    + rewrite sum_below_S_head. simpl nth. unfold vadd at 1.
      rewrite (nth_map2 Rplus 0 0 0) by lia. lra.
    + rewrite vadd_length by lia. assumption.
    + rewrite vadd_length by lia. assumption.
Qed.

Lemma fold_vadd_length (l : list vec) :
  forall acc : vec,
    Forall (fun v => length v = length acc) l ->
    length (fold_left vadd l acc) = length acc.
Proof.
  induction l as [|v l IH]; intros acc Hf; [reflexivity|].
  inversion Hf as [|? ? Hv Hl]; subst. simpl.
  rewrite IH; rewrite vadd_length by lia; auto.
Qed.

Lemma mapM_fdiv_value (xs : list (R * R)) :
  Forall (fun xy => snd xy <> 0) xs ->
  mapM (fun xy => fdiv (fst xy) (snd xy)) xs
  = Value (map (fun xy => fst xy / snd xy) xs).
Proof.
  induction xs as [|[x y] xs IH]; intros Hf; [reflexivity|].
  inversion Hf as [|? ? Hy Hxs]; subst. simpl in *.
  unfold fdiv at 1. destruct (Req_dec_T y 0) as [Heq|_]; [contradiction|].
  simpl. rewrite (IH Hxs). reflexivity.
Qed.

Lemma mapM_fdiv_not_finite (xs : list (R * R)) :
  Exists (fun xy => snd xy = 0) xs ->
  mapM (fun xy => fdiv (fst xy) (snd xy)) xs = NotFinite.
Proof.
  induction xs as [|[x y] xs IH]; intros He; inversion He as [? ? Hy|? ? Hxs];
    subst; simpl in *.
  - unfold fdiv. destruct (Req_dec_T y 0); [reflexivity|contradiction].
  - unfold fdiv at 1. destruct (Req_dec_T y 0); [reflexivity|].
    simpl. rewrite (IH Hxs). reflexivity.
Qed.

Lemma mapM_fdiv_cases (xs : list (R * R)) :
  mapM (fun xy => fdiv (fst xy) (snd xy)) xs <> Raised.
Proof.
  induction xs as [|[x y] xs IH]; simpl; [discriminate|].
  unfold fdiv at 1. destruct (Req_dec_T y 0); simpl; [discriminate|].
  destruct (mapM _ xs); simpl; congruence.
Qed.

Lemma reduce_sum_axis1_nth (m : mat) (T b : nat) :
  Forall (fun row => length row = T) m ->
  (b < length m)%nat ->
  nth b (reduce_sum_axis1 m) 0 = sum_below T (fun t => get2 m b t).
Proof.
  intros Hf Hb. unfold reduce_sum_axis1.
  rewrite (nth_map_lt (A:=vec) (B:=R) reduce_sum [] 0) by assumption.
  rewrite reduce_sum_nth.
  rewrite Forall_forall in Hf. rewrite (Hf (nth b m [])) by (apply nth_In; assumption).
  reflexivity.
Qed.

Lemma column_length (m : mat) (t : nat) : length (column m t) = length m.
Proof. apply length_map. Qed.

Lemma nth_column (m : mat) (t b : nat) :
  (b < length m)%nat -> nth b (column m t) 0 = get2 m b t.
Proof.
  intros Hb. unfold column, get2.
  apply (nth_map_lt (A:=vec) (B:=R) (fun row => nth t row 0) [] 0). assumption.
Qed.

(** The numerator of an example: the masked sum over the steps. *)
Lemma masked_sum_entry (values : list vec) (mask : mat) (B b : nat) :
  Forall (fun v => length v = B) values ->
  length mask = B -> (b < B)%nat ->
  nth b (py_sum B
           (map2 (fun dec_step v => vmul v (column mask dec_step))
                 (seq 0 (length values)) values)) 0
  = sum_below (length values)
      (fun t => nth b (nth t values []) 0 * get2 mask b t).
Proof.
  intros Hv Hm Hb. unfold py_sum.
  assert (Hsteps : Forall (fun v => length v = length (repeat 0 B))
            (map2 (fun dec_step v => vmul v (column mask dec_step))
                  (seq 0 (length values)) values)).
  { rewrite repeat_length. apply Forall_forall. intros v Hin.
    destruct (In_nth _ _ [] Hin) as [t [Ht Hnth]].
    rewrite map2_length, length_seq, Nat.min_id in Ht.
    rewrite (nth_map2 (A:=nat) (B:=vec) (C:=vec) _ O [] [])
      in Hnth by (rewrite ?length_seq; len_lia).
    subst v. unfold vmul. rewrite map2_length, column_length, Hm.
    rewrite Forall_forall in Hv.
    rewrite (Hv (nth t values [])) by (apply nth_In; assumption).
    apply Nat.min_id. }
  rewrite nth_fold_vadd; [|exact Hsteps|rewrite repeat_length; exact Hb].
  rewrite nth_repeat_lt by assumption.
  rewrite map2_length, length_seq, Nat.min_id, Rplus_0_l.
  apply sum_below_ext. intros t Ht.
  rewrite (nth_map2 (A:=nat) (B:=vec) (C:=vec) _ O [] [])
    by (rewrite ?length_seq; len_lia).
  rewrite seq_nth by assumption. simpl.
  unfold vmul. rewrite Forall_forall in Hv.
  rewrite (nth_map2 Rmult 0 0 0).
  - rewrite nth_column by lia. reflexivity.
  - rewrite (Hv (nth t values [])) by (apply nth_In; assumption). assumption.
  - rewrite column_length. lia.
Qed.

Lemma masked_sum_length (values : list vec) (mask : mat) (B : nat) :
  Forall (fun v => length v = B) values ->
  length mask = B ->
  length (py_sum B
            (map2 (fun dec_step v => vmul v (column mask dec_step))
                  (seq 0 (length values)) values)) = B.
Proof.
  intros Hv Hm. unfold py_sum.
  rewrite fold_vadd_length; rewrite repeat_length; [reflexivity|].
  apply Forall_forall. intros v Hin.
  destruct (In_nth _ _ [] Hin) as [t [Ht Hnth]].
  rewrite map2_length, length_seq, Nat.min_id in Ht.
  rewrite (nth_map2 (A:=nat) (B:=vec) (C:=vec) _ O [] [])
    in Hnth by (rewrite ?length_seq; len_lia).
  subst v. unfold vmul. rewrite map2_length, column_length, Hm.
  rewrite Forall_forall in Hv.
  rewrite (Hv (nth t values [])) by (apply nth_In; assumption).
  apply Nat.min_id.
Qed.

Lemma nth_combine {A B : Type} (da : A) (db : B) (l1 : list A) :
  forall (l2 : list B) (i : nat),
    (i < length l1)%nat -> (i < length l2)%nat ->
    nth i (combine l1 l2) (da, db) = (nth i l1 da, nth i l2 db).
Proof.
  induction l1 as [|a l1 IH]; intros [|b l2] [|i] H1 H2; simpl in *;
    try lia; auto.
  apply IH; lia.
Qed.

(** [_mask_and_avg] is the specification's masked average whenever the
    batch is not empty and no mask row sums to 0. *)
Lemma mask_and_avg_value (values : list vec) (mask : mat) (B T : nat) :
  length values = T ->
  Forall (fun v => length v = B) values ->
  has_shape mask B T ->
  (0 < B)%nat ->
  (forall b, (b < B)%nat -> sum_below T (fun t => get2 mask b t) <> 0) ->
  _mask_and_avg values mask
  = Value (masked_average B T mask (fun t b => nth b (nth t values []) 0)).
Proof.
  intros HT Hv [Hml Hmf] HB Hnz. unfold _mask_and_avg. cbv zeta.
  set (num := py_sum _ _).
  assert (Hdl : length (reduce_sum_axis1 mask) = B)
    by (unfold reduce_sum_axis1; rewrite length_map; assumption).
  assert (Hnl : length num = B).
  { subst num. rewrite Hdl. apply masked_sum_length; assumption. }
  unfold vdiv. rewrite mapM_fdiv_value.
  - simpl bind. unfold reduce_mean, fdiv.
    rewrite length_map, length_combine, Hnl, Hdl, Nat.min_id.
    destruct (Req_dec_T (INR B) 0) as [H0|_].
    + exfalso. apply (not_0_INR B); [lia|assumption].
    + f_equal. unfold masked_average. f_equal.
      rewrite reduce_sum_nth, length_map, length_combine, Hnl, Hdl, Nat.min_id.
      apply sum_below_ext. intros b Hb.
      rewrite (nth_map_lt (A:=R*R) (B:=R) _ (0, 0) 0)
        by (rewrite length_combine; len_lia).
      rewrite nth_combine by len_lia. simpl.
      rewrite (reduce_sum_axis1_nth mask T b) by (try assumption; len_lia).
      f_equal. subst num. rewrite Hdl, masked_sum_entry by assumption.
      rewrite HT. reflexivity.
  - apply Forall_forall. intros [x y] Hin.
    destruct (In_nth _ _ (0, 0) Hin) as [b [Hb Hnth]].
    rewrite length_combine, Hnl, Hdl, Nat.min_id in Hb.
    rewrite nth_combine in Hnth by len_lia.
    injection Hnth as Hx Hy. simpl. rewrite <- Hy.
    rewrite (reduce_sum_axis1_nth mask T b) by (try assumption; len_lia).
    apply Hnz. assumption.
Qed.

(** A mask row that sums to 0 makes the quotient, and the average, not
    finite. *)
Lemma mask_and_avg_not_finite (values : list vec) (mask : mat) (B T b : nat) :
  Forall (fun v => length v = B) values ->
  has_shape mask B T ->
  (b < B)%nat ->
  sum_below T (fun t => get2 mask b t) = 0 ->
  _mask_and_avg values mask = NotFinite.
Proof.
  intros Hv [Hml Hmf] Hb Hz. unfold _mask_and_avg. cbv zeta.
  set (num := py_sum _ _).
  assert (Hdl : length (reduce_sum_axis1 mask) = B)
    by (unfold reduce_sum_axis1; rewrite length_map; assumption).
  assert (Hnl : length num = B).
  { subst num. rewrite Hdl. apply masked_sum_length; assumption. }
  unfold vdiv. rewrite mapM_fdiv_not_finite; [reflexivity|].
  apply Exists_exists.
  exists (nth b (combine num (reduce_sum_axis1 mask)) (0, 0)). split.
  - apply nth_In. rewrite length_combine. lia.
  - rewrite nth_combine by len_lia. simpl.
    rewrite (reduce_sum_axis1_nth mask T b) by (try assumption; len_lia).
    assumption.
Qed.

Lemma masked_average_ext (B T : nat) (mask : mat) (f g : nat -> nat -> R) :
  (forall t b, (t < T)%nat -> (b < B)%nat -> f t b = g t b) ->
  masked_average B T mask f = masked_average B T mask g.
Proof.
  intros H. unfold masked_average. f_equal.
  apply sum_below_ext. intros b Hb. f_equal.
  apply sum_below_ext. intros t Ht. rewrite H by assumption. reflexivity.
Qed.

Lemma mapM_value {A B : Type} (f : A -> outcome B) (g : A -> B) (l : list A) :
  (forall a, In a l -> f a = Value (g a)) -> mapM f l = Value (map g l).
Proof.
  induction l as [|a l IH]; intros H; [reflexivity|].
  simpl. rewrite (H a) by (left; reflexivity). simpl.
  rewrite IH by (intros a' Ha'; apply H; right; assumption). reflexivity.
Qed.

Lemma tf_log_pos (p : R) : 0 < p -> tf_log p = Fin (ln p).
Proof.
  intros Hp. unfold tf_log.
  destruct (Rlt_dec p 0) as [Hlt|_]; [lra|].
  destruct (Req_dec_T p 0) as [Heq|_]; [lra|]. reflexivity.
Qed.

Lemma neg_log_value (gold_probs : vec) :
  Forall (fun p => 0 < p) gold_probs ->
  neg_log gold_probs = Value (map (fun p => - ln p) gold_probs).
Proof.
  intros H. unfold neg_log. apply mapM_value. intros p Hp.
  rewrite Forall_forall in H. rewrite tf_log_pos by (apply H; assumption).
  reflexivity.
Qed.

Lemma row_sum_below (m : mat) (B T b : nat) :
  has_shape m B T -> (b < B)%nat ->
  reduce_sum (nth b m []) = sum_below T (fun t => get2 m b t).
Proof.
  intros Hm Hb. rewrite reduce_sum_nth.
  pose proof (has_shape_nth _ _ _ _ Hm Hb) as Hlen.
  unfold mat, vec in *. rewrite Hlen. reflexivity.
Qed.

Lemma gather_nd_range (m : mat) (B : nat) (cols : list nat) :
  length cols = B ->
  gather_nd m (range B) cols
  = map (fun b => get2 m b (nth b cols O)) (seq 0 B).
Proof.
  intros Hc. unfold gather_nd, range.
  apply (nth_ext _ _ 0 0).
  - rewrite map2_length, length_map, length_seq. lia.
  - intros b Hb. rewrite map2_length, length_seq in Hb.
    rewrite (nth_map2 (get2 m) O O 0) by (rewrite ?length_seq; lia).
    rewrite (nth_map_lt (A:=nat) (B:=R) _ O 0) by (rewrite length_seq; lia).
    rewrite seq_nth by lia. reflexivity.
Qed.

(** C3. In pointer-generator mode the loss is: per decoder step the
    negative logarithm of the probability the step's extended
    distribution gives to the target token, times the padding mask;
    per example the sum of these over the steps divided by the sum of
    the example's mask row (its unpadded decoder length, not the number
    of steps [T]); and the mean of these quotients over the batch. *)
Theorem pointer_gen_loss_masked_average :
  forall (B T : nat) (final_dists : list mat) (target_batch : list (list nat))
         (dec_padding_mask : mat),
    length final_dists = T ->
    has_shape target_batch B T ->
    has_shape dec_padding_mask B T ->
    (0 < B)%nat ->
    (forall t b, (t < T)%nat -> (b < B)%nat ->
       0 < get2 (nth t final_dists []) b (nth t (nth b target_batch []) O)) ->
    (forall b, (b < B)%nat -> reduce_sum (nth b dec_padding_mask []) <> 0) ->
    pointer_gen_loss B final_dists target_batch dec_padding_mask
    = Value (masked_average B T dec_padding_mask
               (target_nll final_dists target_batch)).
Proof.
  intros B T final_dists target_batch mask HT Htgt Hmask HB Hpos Hnz.
  unfold pointer_gen_loss. cbv zeta.
  set (step := fun sd : nat * mat =>
         map (fun b => - ln (get2 (snd sd) b
                               (nth (fst sd) (nth b target_batch []) O)))
             (seq 0 B)).
  assert (Hcol : forall t, length (column_nat target_batch t) = B).
  { intros t. unfold column_nat. rewrite length_map. apply Htgt. }
  assert (Hnthcol : forall t b, (b < B)%nat ->
            nth b (column_nat target_batch t) O
            = nth t (nth b target_batch []) O).
  { intros t b Hb. unfold column_nat.
    apply (nth_map_lt (A:=list nat) (B:=nat) (fun row => nth t row O) [] O).
    destruct Htgt as [Hl _]. lia. }
  rewrite (mapM_value _ step).
  - simpl bind.
    rewrite (mask_and_avg_value _ mask B T); try assumption.
    + f_equal. apply masked_average_ext. intros t b Ht Hb.
      rewrite (nth_map_lt (A:=nat * mat) (B:=vec) step (O, []) [])
        by (rewrite length_combine, length_seq; len_lia).
      rewrite nth_combine by (rewrite ?length_seq; len_lia).
      rewrite seq_nth by len_lia. unfold step. simpl fst; simpl snd.
      rewrite (nth_map_lt (A:=nat) (B:=R) _ O 0) by (rewrite length_seq; lia).
      rewrite seq_nth by lia. reflexivity.
    + rewrite length_map, length_combine, length_seq. len_lia.
    + apply Forall_forall. intros v Hin. apply in_map_iff in Hin.
      destruct Hin as [sd [Hsd _]]. subst v. unfold step.
      rewrite length_map, length_seq. reflexivity.
    + intros b Hb. rewrite <- (row_sum_below _ B T b) by assumption.
      apply Hnz. assumption.
  - intros [t dist] Hin. simpl fst; simpl snd.
    destruct (In_nth _ _ (O, []) Hin) as [k [Hk Hnth]].
    rewrite length_combine, length_seq in Hk.
    rewrite nth_combine in Hnth by (rewrite ?length_seq; len_lia).
    rewrite seq_nth in Hnth by len_lia.
    injection Hnth as Ht Hd. simpl in Ht. subst t.
    rewrite gather_nd_range by apply Hcol.
    rewrite neg_log_value.
    + unfold step. simpl fst; simpl snd. rewrite map_map. f_equal.
      apply map_ext_in. intros b Hb. apply in_seq in Hb.
      rewrite Hnthcol by lia. reflexivity.
    + apply Forall_forall. intros p Hp. apply in_map_iff in Hp.
      destruct Hp as [b [Hp Hb]]. apply in_seq in Hb. subst p.
      rewrite Hnthcol by lia. rewrite <- Hd. apply Hpos; len_lia.
Qed.

Lemma reduce_sum_zero (v : vec) : Forall (fun x => x = 0) v -> reduce_sum v = 0.
Proof.
  induction 1 as [|x v Hx _ IH]; unfold reduce_sum in *; simpl;
    [reflexivity|].
  rewrite IH, Hx. lra.
Qed.

Lemma reduce_sum_mask_nonneg (v : vec) :
  Forall (fun x => x = 0 \/ x = 1) v -> 0 <= reduce_sum v.
Proof.
  induction 1 as [|x v Hx _ IH]; unfold reduce_sum in *; simpl; [lra|].
  destruct Hx; subst; lra.
Qed.

(** C9. [_mask_and_avg] divides every example's masked sum by the sum of
    its mask row without a guard: for a batch that is not empty and a
    mask of 0s and 1s it yields a number exactly when every mask row has
    a strictly positive sum, and a batch with an all-zero mask row makes
    the division, and with it the average, not finite. *)
Theorem mask_and_avg_defined_iff :
  forall (values : list vec) (padding_mask : mat) (B T : nat),
    length values = T ->
    Forall (fun v => length v = B) values ->
    has_shape padding_mask B T ->
    (0 < B)%nat ->
    is_mask padding_mask ->
    ((exists x, _mask_and_avg values padding_mask = Value x)
     <-> (forall b, (b < B)%nat -> 0 < reduce_sum (nth b padding_mask [])))
    /\ ((exists b, (b < B)%nat
                   /\ Forall (fun x => x = 0) (nth b padding_mask []))
        -> _mask_and_avg values padding_mask = NotFinite).
Proof.
  intros values mask B T HT Hv Hm HB Hmask.
  assert (Hzero : forall b, (b < B)%nat -> reduce_sum (nth b mask []) = 0 ->
                    _mask_and_avg values mask = NotFinite).
  { intros b Hb Hz.
    apply (mask_and_avg_not_finite values mask B T b); try assumption.
    rewrite <- (row_sum_below _ B T b) by assumption. assumption. }
  split; [split|].
  - intros [x Hx] b Hb.
    assert (Hge : 0 <= reduce_sum (nth b mask [])).
    { apply reduce_sum_mask_nonneg. unfold is_mask in Hmask.
      rewrite Forall_forall in Hmask. apply Hmask, nth_In.
      destruct Hm as [Hl _]. len_lia. }
    destruct (Rle_lt_dec (reduce_sum (nth b mask [])) 0) as [Hle|Hlt];
      [|assumption].
    rewrite (Hzero b Hb) in Hx by lra. discriminate.
  - intros Hpos. eexists.
    apply (mask_and_avg_value values mask B T); try assumption.
    intros b Hb. rewrite <- (row_sum_below _ B T b) by assumption.
    specialize (Hpos b Hb). lra.
  - intros [b [Hb Hall]]. apply (Hzero b Hb). apply reduce_sum_zero.
    assumption.
Qed.

(** ** Coverage *)

Lemma madd_shape (m m' : mat) (B n : nat) :
  has_shape m B n -> has_shape m' B n -> has_shape (madd m m') B n.
Proof.
  intros [Hl Hf] [Hl' Hf']. split.
  - unfold madd. rewrite map2_length. len_lia.
  - apply Forall_forall. intros row Hin.
    destruct (In_nth _ _ [] Hin) as [b [Hb Hrow]].
    unfold madd in Hb, Hrow. rewrite map2_length in Hb.
    rewrite (nth_map2 (A:=vec) (B:=vec) (C:=vec) vadd [] [] []) in Hrow
      by len_lia.
    subst row. unfold vadd. rewrite map2_length.
    pose proof (has_shape_nth m B n b (conj Hl Hf)) as H1.
    pose proof (has_shape_nth m' B n b (conj Hl' Hf')) as H2.
    len_lia.
Qed.

Lemma get2_zeros_like (m : mat) (b i : nat) : get2 (zeros_like m) b i = 0.
Proof.
  unfold get2, zeros_like.
  destruct (Nat.lt_ge_cases b (length m)) as [Hb|Hb].
  - rewrite (nth_map_lt (A:=vec) (B:=vec) _ [] []) by assumption.
    destruct (Nat.lt_ge_cases i (length (nth b m []))) as [Hi|Hi].
    + rewrite (nth_map_lt (A:=R) (B:=R) _ 0 0) by assumption. reflexivity.
    + apply nth_overflow. rewrite length_map. assumption.
  - rewrite (nth_overflow (map _ m)) by (rewrite length_map; assumption).
    apply nth_nil.
Qed.

Lemma zeros_like_shape (m : mat) (B n : nat) :
  has_shape m B n -> has_shape (zeros_like m) B n.
Proof.
  intros [Hl Hf]. unfold zeros_like. split.
  - rewrite length_map. assumption.
  - rewrite Forall_forall in *. intros row Hin. apply in_map_iff in Hin.
    destruct Hin as [r [Hr Hin]]. subst row. rewrite length_map.
    apply Hf. assumption.
Qed.

(** The coverage loss of one step, example by example. *)
Lemma covloss_entries (a cov : mat) (B n : nat) :
  has_shape a B n -> has_shape cov B n ->
  reduce_sum_axis1 (mmin a cov)
  = map (fun b => sum_below n (fun i => Rmin (get2 a b i) (get2 cov b i)))
        (seq 0 B).
Proof.
  intros Ha Hc. pose proof Ha as [Hal _]. pose proof Hc as [Hcl _].
  unfold reduce_sum_axis1, mmin. apply (nth_ext _ _ 0 0).
  - rewrite !length_map, map2_length, length_seq. len_lia.
  - intros b Hb. rewrite length_map, map2_length in Hb.
    assert (HbB : (b < B)%nat) by len_lia.
    rewrite (nth_map_lt (A:=vec) (B:=R) reduce_sum [] 0)
      by (rewrite map2_length; len_lia).
    rewrite (nth_map2 (A:=vec) (B:=vec) (C:=vec) _ [] [] []) by len_lia.
    rewrite (nth_map_lt (A:=nat) (B:=R) _ O 0) by (rewrite length_seq; len_lia).
    rewrite seq_nth by len_lia. simpl.
    pose proof (has_shape_nth _ _ _ _ Ha HbB) as Hla.
    pose proof (has_shape_nth _ _ _ _ Hc HbB) as Hlc.
    rewrite reduce_sum_nth, map2_length.
    replace (Nat.min (length (nth b a [])) (length (nth b cov []))) with n
      by len_lia.
    apply sum_below_ext. intros i Hi.
    rewrite (nth_map2 Rmin 0 0 0) by len_lia. reflexivity.
Qed.

(** The loop of [_coverage_loss] after the steps [pre]: the coverage is
    the sum of the attention of [pre], and every further step appends
    its term. *)
Lemma coverage_fold (B n : nat) (post : list mat) :
  forall (pre : list mat) (acc : list vec) (cov : mat),
    Forall (fun a => has_shape a B n) (pre ++ post) ->
    has_shape cov B n ->
    (forall b i, (b < B)%nat -> (i < n)%nat ->
       get2 cov b i = coverage_before (pre ++ post) (length pre) b i) ->
    fst (fold_left coverage_step post (acc, cov))
    = acc ++ map (fun t => map (fun b => covloss_term n (pre ++ post) t b)
                               (seq 0 B))
                 (seq (length pre) (length post)).
Proof.
  induction post as [|a post IH]; intros pre acc cov Hf Hc Hcov.
  - simpl. rewrite app_nil_r. reflexivity.
  - assert (Hnth : nth (length pre) (pre ++ a :: post) [] = a)
      by apply nth_middle.
    assert (Ha : has_shape a B n).
    { rewrite Forall_forall in Hf. apply Hf, in_elt. }
    simpl fold_left. unfold coverage_step at 2. simpl fst; simpl snd.
    replace (pre ++ a :: post) with ((pre ++ [a]) ++ post) in *
      by (rewrite <- app_assoc; reflexivity).
    rewrite (IH (pre ++ [a])).
    + rewrite <- app_assoc. f_equal. rewrite length_app. simpl length.
      rewrite Nat.add_1_r. simpl seq. simpl map. cbn [app]. f_equal.
      rewrite (covloss_entries a cov B n) by assumption.
      apply map_ext_in. intros b Hb. apply in_seq in Hb.
      unfold covloss_term. rewrite Hnth.
      apply sum_below_ext. intros i Hi. rewrite Hcov by len_lia. reflexivity.
    + assumption.
    + apply madd_shape; assumption.
    + intros b i Hb Hi. rewrite length_app. simpl length.
      rewrite Nat.add_1_r. unfold coverage_before.
      rewrite sum_below_S, Hnth.
      pose proof Hc as [Hcl _]. pose proof Ha as [Hal _].
      pose proof (has_shape_nth _ _ _ _ Hc Hb) as Hlc.
      pose proof (has_shape_nth _ _ _ _ Ha Hb) as Hla.
      rewrite get2_madd by len_lia.
      rewrite Hcov by assumption. reflexivity.
Qed.

Lemma covlosses_of_terms (B n : nat) (attn_dists : list mat) :
  Forall (fun a => has_shape a B n) attn_dists ->
  covlosses_of attn_dists
  = map (fun t => map (fun b => covloss_term n attn_dists t b) (seq 0 B))
        (seq 0 (length attn_dists)).
Proof.
  intros Hf. unfold covlosses_of.
  destruct attn_dists as [|a0 rest]; [reflexivity|].
  cbn [hd].
  rewrite (coverage_fold B n (a0 :: rest) [] [] (zeros_like a0)).
  - reflexivity.
  - assumption.
  - apply zeros_like_shape. inversion Hf; assumption.
  - intros b i _ _. rewrite get2_zeros_like. reflexivity.
Qed.

(** [_coverage_loss] as a masked average of the per-step terms. *)
Lemma coverage_loss_value :
  forall (B T n : nat) (attn_dists : list mat) (padding_mask : mat),
    length attn_dists = T ->
    (0 < T)%nat ->
    Forall (fun a => has_shape a B n) attn_dists ->
    has_shape padding_mask B T ->
    (0 < B)%nat ->
    (forall b, (b < B)%nat -> reduce_sum (nth b padding_mask []) <> 0) ->
    _coverage_loss attn_dists padding_mask
    = Value (masked_average B T padding_mask (covloss_term n attn_dists)).
Proof.
  intros B T n attn_dists mask HT HTpos Hf Hm HB Hnz.
  unfold _coverage_loss.
  destruct attn_dists as [|a0 rest]; [simpl in HT; len_lia|].
  rewrite (covlosses_of_terms B n) by assumption.
  rewrite (mask_and_avg_value _ mask B T); try assumption.
  - f_equal. apply masked_average_ext. intros t b Ht Hb.
    rewrite (nth_map_lt (A:=nat) (B:=vec) _ O [])
      by (rewrite length_seq; len_lia).
    rewrite seq_nth by len_lia.
    rewrite (nth_map_lt (A:=nat) (B:=R) _ O 0) by (rewrite length_seq; len_lia).
    rewrite seq_nth by len_lia. reflexivity.
  - rewrite length_map, length_seq. assumption.
  - apply Forall_forall. intros v Hin. apply in_map_iff in Hin.
    destruct Hin as [t [Hv _]]. subst v.
    rewrite length_map, length_seq. reflexivity.
  - intros b Hb. rewrite <- (row_sum_below _ B T b) by assumption.
    apply Hnz. assumption.
Qed.

(** C4. The coverage loss: the accumulator starts at zero and grows by
    every step's attention, so before step [t] it is the sum of the
    attention of the earlier steps; step [t] contributes, per example,
    the sum over the encoder positions of the minimum of its attention
    and that accumulator; and the contributions are masked and averaged
    as the base loss is, each example's masked sum being divided by the
    sum of its mask row. *)
Theorem coverage_loss_masked_average :
  forall (B T n : nat) (attn_dists : list mat) (padding_mask : mat),
    length attn_dists = T ->
    (0 < T)%nat ->
    Forall (fun a => has_shape a B n) attn_dists ->
    has_shape padding_mask B T ->
    (0 < B)%nat ->
    (forall b, (b < B)%nat -> reduce_sum (nth b padding_mask []) <> 0) ->
    _coverage_loss attn_dists padding_mask
    = Value (masked_average B T padding_mask (covloss_term n attn_dists)).
Proof. exact coverage_loss_value. Qed.

(** ** Attention that stays on one position *)

Lemma sum_below_const (n : nat) (c : R) : sum_below n (fun _ => c) = INR n * c.
Proof.
  induction n as [|n IH]; [unfold sum_below; simpl; lra|].
  rewrite sum_below_S, IH, S_INR. lra.
Qed.

Lemma sum_below_after_first (T : nat) :
  (1 <= T)%nat ->
  sum_below T (fun t => if Nat.eqb t 0 then 0 else 1) = INR T - 1.
Proof.
  intros HT. destruct T as [|T]; [lia|].
  rewrite sum_below_S_head. simpl Nat.eqb. cbv iota.
  rewrite sum_below_const, S_INR. lra.
Qed.

Lemma one_hot_length (n p : nat) : length (one_hot n p) = n.
Proof. unfold one_hot. rewrite length_map, length_seq. reflexivity. Qed.

Lemma nth_one_hot (n p i : nat) :
  (i < n)%nat -> nth i (one_hot n p) 0 = if Nat.eqb i p then 1 else 0.
Proof.
  intros Hi. unfold one_hot.
  rewrite (nth_map_lt (A:=nat) (B:=R) _ O 0) by (rewrite length_seq; lia).
  rewrite seq_nth by lia. reflexivity.
Qed.

Lemma one_hots_shape (n : nat) (ps : list nat) :
  has_shape (map (one_hot n) ps) (length ps) n.
Proof.
  split.
  - apply length_map.
  - apply Forall_forall. intros row Hin. apply in_map_iff in Hin.
    destruct Hin as [p [Hp _]]. subst row. apply one_hot_length.
Qed.

Lemma get2_one_hots (n : nat) (ps : list nat) (b i : nat) :
  (b < length ps)%nat -> (i < n)%nat ->
  get2 (map (one_hot n) ps) b i = if Nat.eqb i (nth b ps O) then 1 else 0.
Proof.
  intros Hb Hi. unfold get2.
  rewrite (nth_map_lt (A:=nat) (B:=vec) (one_hot n) O []) by assumption.
  apply nth_one_hot. assumption.
Qed.

Lemma repeated_attention_shape (n : nat) (ps : list nat) (T : nat) :
  Forall (fun a => has_shape a (length ps) n) (repeated_attention n ps T).
Proof.
  apply Forall_forall. intros a Hin. apply repeat_spec in Hin. subst a.
  apply one_hots_shape.
Qed.

(** With the attention on one position every step, a step's term is 0
    at the first step and 1 at every later one. *)
Lemma covloss_term_repeated (n : nat) (ps : list nat) (T t b : nat) :
  Forall (fun p => (p < n)%nat) ps ->
  (t < T)%nat -> (b < length ps)%nat ->
  covloss_term n (repeated_attention n ps T) t b
  = if Nat.eqb t 0 then 0 else 1.
Proof.
  intros Hps Ht Hb. unfold covloss_term, repeated_attention.
  set (p := nth b ps O).
  assert (Hp : (p < n)%nat).
  { rewrite Forall_forall in Hps. apply Hps, nth_In. assumption. }
  rewrite (sum_below_ext _ _
             (fun i => if Nat.eqb p i
                       then (if Nat.eqb t 0 then 0 else 1) else 0)).
  - rewrite sum_below_indicator, (proj2 (Nat.ltb_lt p n)) by assumption.
    reflexivity.
  - intros i Hi. rewrite nth_repeat_lt by assumption.
    rewrite get2_one_hots by assumption. fold p.
    unfold coverage_before.
    rewrite (sum_below_ext _ _ (fun _ => if Nat.eqb i p then 1 else 0)).
    + rewrite sum_below_const, (Nat.eqb_sym p i).
      destruct (Nat.eqb i p).
      * destruct t as [|t]; simpl Nat.eqb; cbv iota.
        -- simpl. rewrite Rmult_0_l. apply Rmin_right. lra.
        -- apply Rmin_left. rewrite S_INR. pose proof (pos_INR t). lra.
      * rewrite Rmult_0_r. destruct (Nat.eqb t 0); apply Rmin_left; lra.
    + intros s Hs. rewrite nth_repeat_lt by lia.
      apply get2_one_hots; assumption.
Qed.

Lemma ones_shape (B T : nat) : has_shape (ones B T) B T.
Proof.
  split.
  - apply repeat_length.
  - apply Forall_forall. intros row Hin. apply repeat_spec in Hin.
    subst row. apply repeat_length.
Qed.

Lemma get2_ones (B T b t : nat) :
  (b < B)%nat -> (t < T)%nat -> get2 (ones B T) b t = 1.
Proof.
  intros Hb Ht. unfold get2, ones.
  rewrite (nth_repeat_lt _ _ _ _ Hb). apply nth_repeat_lt. assumption.
Qed.

Lemma ones_row_sum (B T b : nat) :
  (b < B)%nat -> reduce_sum (nth b (ones B T) []) = INR T.
Proof.
  intros Hb. rewrite (row_sum_below _ B T b) by (try apply ones_shape; assumption).
  rewrite (sum_below_ext _ _ (fun _ => 1))
    by (intros t Ht; apply get2_ones; assumption).
  rewrite sum_below_const. lra.
Qed.

(** The coverage loss of [T] unmasked steps of attention on one
    position is [(T - 1) / T]. *)
Lemma coverage_loss_repeated (n : nat) (ps : list nat) (T : nat) :
  ps <> [] ->
  Forall (fun p => (p < n)%nat) ps ->
  (1 <= T)%nat ->
  _coverage_loss (repeated_attention n ps T) (ones (length ps) T)
  = Value ((INR T - 1) / INR T).
Proof.
  intros Hne Hps HT.
  assert (HB : (0 < length ps)%nat).
  { destruct ps; [contradiction|simpl; lia]. }
  assert (HTR : INR T <> 0) by (apply not_0_INR; lia).
  assert (HBR : INR (length ps) <> 0) by (apply not_0_INR; lia).
  rewrite (coverage_loss_value (length ps) T n).
  - f_equal. unfold masked_average.
    rewrite (sum_below_ext _ _ (fun _ => (INR T - 1) / INR T)).
    + rewrite sum_below_const. field. split; assumption.
    + intros b Hb. f_equal.
      * rewrite <- (sum_below_after_first T HT).
        apply sum_below_ext. intros t Ht.
        rewrite (covloss_term_repeated n ps T t b Hps Ht Hb).
        rewrite (get2_ones (length ps) T b t Hb Ht). lra.
      * rewrite (sum_below_ext _ _ (fun _ => 1))
          by (intros t Ht; apply get2_ones; assumption).
        rewrite sum_below_const. lra.
  - unfold repeated_attention. apply repeat_length.
  - lia.
  - apply repeated_attention_shape.
  - apply ones_shape.
  - assumption.
  - intros b Hb. rewrite ones_row_sum by assumption. assumption.
Qed.

(** C5. For a fixed encoder length [n], with every step's attention on
    the same encoder position of each example and every step unmasked,
    the coverage loss does not decrease when the number of decoder steps
    grows from [T] to [T'], and every step after the first contributes a
    strictly positive coverage-loss term. *)
Theorem coverage_loss_monotone_in_steps :
  forall (n : nat) (ps : list nat) (T T' : nat),
    ps <> [] ->
    Forall (fun p => (p < n)%nat) ps ->
    (1 <= T)%nat -> (T <= T')%nat ->
    (exists x y,
       _coverage_loss (repeated_attention n ps T) (ones (length ps) T)
       = Value x
       /\ _coverage_loss (repeated_attention n ps T') (ones (length ps) T')
          = Value y
       /\ x <= y)
    /\ (forall t b, (1 <= t)%nat -> (t < T')%nat -> (b < length ps)%nat ->
          0 < nth b (nth t (covlosses_of (repeated_attention n ps T')) []) 0).
Proof.
  intros n ps T T' Hne Hps HT HTT'. split.
  - exists ((INR T - 1) / INR T), ((INR T' - 1) / INR T').
    repeat split; try (apply coverage_loss_repeated; (assumption || lia)).
    assert (H1 : 0 < INR T) by (apply lt_0_INR; lia).
    assert (H2 : INR T <= INR T') by (apply le_INR; assumption).
    assert (H3 : / INR T' <= / INR T)
      by (apply Rinv_le_contravar; assumption).
    assert (Ha : (INR T - 1) / INR T = 1 - / INR T) by (field; lra).
    assert (Hb : (INR T' - 1) / INR T' = 1 - / INR T') by (field; lra).
    rewrite Ha, Hb. lra.
  - intros t b Ht HtT Hb.
    rewrite (covlosses_of_terms (length ps) n)
      by apply repeated_attention_shape.
    unfold repeated_attention at 2. rewrite repeat_length.
    rewrite (nth_map_lt (A:=nat) (B:=vec) _ O [])
      by (rewrite length_seq; lia).
    rewrite seq_nth by lia.
    rewrite (nth_map_lt (A:=nat) (B:=R) _ O 0) by (rewrite length_seq; lia).
    rewrite seq_nth by lia. simpl Nat.add.
    rewrite covloss_term_repeated by assumption.
    destruct t as [|t]; [lia|]. simpl. lra.
Qed.

(** ** Top-k *)

Lemma insert_desc_length (x : nat * R) (l : list (nat * R)) :
  length (insert_desc x l) = S (length l).
Proof.
  induction l as [|y l IH]; simpl; [reflexivity|].
  destruct (Rle_dec (snd y) (snd x)); simpl; [reflexivity|].
  rewrite IH. reflexivity.
Qed.

Lemma insert_desc_in (x z : nat * R) (l : list (nat * R)) :
  In z (insert_desc x l) -> z = x \/ In z l.
Proof.
  induction l as [|y l IH]; simpl.
  - intros [H|[]]; left; symmetry; assumption.
  - destruct (Rle_dec (snd y) (snd x)); simpl.
    + intros [H|[H|H]]; auto.
    + intros [H|H]; auto. destruct (IH H); auto.
Qed.

Lemma insert_desc_hd (x y : nat * R) (l : list (nat * R)) :
  desc y x -> HdRel desc y l -> HdRel desc y (insert_desc x l).
Proof.
  intros Hyx Hl. destruct l as [|z l]; simpl.
  - constructor. assumption.
  - destruct (Rle_dec (snd z) (snd x)); constructor; auto.
    inversion Hl; assumption.
Qed.

Lemma insert_desc_sorted (x : nat * R) (l : list (nat * R)) :
  Sorted desc l -> Sorted desc (insert_desc x l).
Proof.
  induction 1 as [|y l Hs IH Hh]; simpl.
  - repeat constructor.
  - destruct (Rle_dec (snd y) (snd x)) as [Hle|Hnle].
    + constructor; [constructor; assumption|]. constructor. exact Hle.
    + constructor; [assumption|].
      apply insert_desc_hd; [|assumption]. unfold desc. lra.
Qed.

Lemma sort_desc_sorted (row : vec) : Sorted desc (sort_desc row).
Proof.
  unfold sort_desc. induction (combine (seq 0 (length row)) row); simpl.
  - constructor.
  - apply insert_desc_sorted. assumption.
Qed.

Lemma sort_desc_length (row : vec) : length (sort_desc row) = length row.
Proof.
  unfold sort_desc.
  assert (H : forall l : list (nat * R),
            length (fold_right insert_desc [] l) = length l).
  { induction l as [|x l IH]; simpl; [reflexivity|].
    rewrite insert_desc_length, IH. reflexivity. }
  rewrite H, length_combine, length_seq. apply Nat.min_id.
Qed.

Lemma sort_desc_in (row : vec) (z : nat * R) :
  In z (sort_desc row) -> In (snd z) row.
Proof.
  unfold sort_desc. intros H.
  assert (Hin : In z (combine (seq 0 (length row)) row)).
  { revert H. induction (combine (seq 0 (length row)) row) as [|x l IH];
      simpl; [tauto|].
    intros H. destruct (insert_desc_in _ _ _ H) as [->|H']; auto. }
  destruct z as [i v]. simpl. apply (in_combine_r _ _ _ _ Hin).
Qed.

Lemma firstn_in {A : Type} (k : nat) (l : list A) (x : A) :
  In x (firstn k l) -> In x l.
Proof.
  revert l. induction k as [|k IH]; intros [|a l]; simpl; try tauto.
  intros [H|H]; auto.
Qed.

Lemma firstn_sorted {A : Type} (R : A -> A -> Prop) (k : nat) (l : list A) :
  Sorted R l -> Sorted R (firstn k l).
Proof.
  intros Hs. revert k. induction Hs as [|a l Hs IH Hh]; intros [|k]; simpl;
    try constructor.
  - apply IH.
  - destruct Hh as [|b l' Hab]; destruct k; simpl; constructor. assumption.
Qed.

Lemma tf_log_monotone (a b : R) :
  0 <= a -> a <= b -> xle (tf_log a) (tf_log b).
Proof.
  intros Ha Hab. unfold tf_log.
  destruct (Rlt_dec a 0) as [Hlt|_]; [lra|].
  destruct (Rlt_dec b 0) as [Hlt|_]; [lra|].
  destruct (Req_dec_T a 0) as [Ha0|Ha0].
  - destruct (Req_dec_T b 0); exact I.
  - destruct (Req_dec_T b 0) as [Hb0|Hb0]; [lra|]. simpl.
    destruct (Req_dec_T a b) as [->|Hne]; [lra|].
    left. apply ln_increasing; lra.
Qed.

Lemma log_probs_non_increasing (l : list (nat * R)) :
  Sorted desc l ->
  Forall (fun x => 0 <= snd x) l ->
  non_increasing (map tf_log (map snd l)).
Proof.
  induction 1 as [|x l Hs IH Hh]; intros Hf; [exact I|].
  inversion Hf as [|? ? Hx Hl]; subst.
  destruct l as [|y l]; [exact I|].
  simpl map. split.
  - inversion Hh as [|? ? Hxy]; subst. inversion Hl; subst.
    apply tf_log_monotone; assumption.
  - apply IH. assumption.
Qed.

Lemma forallb_width (d : mat) (k bs W : nat) :
  has_shape d bs W -> (k <= W)%nat ->
  forallb (fun row => Nat.leb k (length row)) d = true.
Proof.
  intros [_ Hf] Hk. apply forallb_forall. intros row Hin.
  rewrite Forall_forall in Hf. rewrite (Hf row Hin).
  apply Nat.leb_le. assumption.
Qed.

(** What [tf.nn.top_k] yields when no row is shorter than [k]: [k]
    entries per row, and their logarithms never increase along a row of
    non-negative entries. *)
Lemma top_k_rows (d : mat) (k : nat) :
  forallb (fun row => Nat.leb k (length row)) d = true ->
  has_shape (map (fun row => map fst (firstn k (sort_desc row))) d)
            (length d) k
  /\ has_shape (map (map tf_log)
                    (map (fun row => map snd (firstn k (sort_desc row))) d))
               (length d) k
  /\ (nonneg d ->
      Forall non_increasing
        (map (map tf_log)
             (map (fun row => map snd (firstn k (sort_desc row))) d))).
Proof.
  intros Hall. rewrite forallb_forall in Hall.
  assert (Hk : forall row, In row d ->
            length (firstn k (sort_desc row)) = k).
  { intros row Hin. specialize (Hall row Hin). apply Nat.leb_le in Hall.
    rewrite length_firstn, sort_desc_length. lia. }
  split; [|split].
  - split; [apply length_map|].
    apply Forall_forall. intros r Hin. apply in_map_iff in Hin.
    destruct Hin as [row [Hr Hin]]. subst r. rewrite length_map.
    apply Hk. assumption.
  - split; [rewrite !length_map; reflexivity|].
    apply Forall_forall. intros r Hin. apply in_map_iff in Hin.
    destruct Hin as [r' [Hr Hin]]. subst r. apply in_map_iff in Hin.
    destruct Hin as [row [Hr Hin]]. subst r'. rewrite !length_map.
    apply Hk. assumption.
  - intros Hnn. apply Forall_forall. intros r Hin. apply in_map_iff in Hin.
    destruct Hin as [r' [Hr Hin]]. subst r. apply in_map_iff in Hin.
    destruct Hin as [row [Hr Hin]]. subst r'.
    apply log_probs_non_increasing.
    + apply firstn_sorted, sort_desc_sorted.
    + apply Forall_forall. intros z Hz.
      apply firstn_in, sort_desc_in in Hz.
      unfold nonneg in Hnn. rewrite Forall_forall in Hnn.
      specialize (Hnn row Hin). rewrite Forall_forall in Hnn.
      apply Hnn. assumption.
Qed.

(** C8. Decode mode asserts that exactly one step's distribution is
    present: any other number raises.  Whenever [_topk_ids] and
    [_topk_log_probs] are produced, from the one distribution [d], they
    have one row per row of [d] and [2 * batch_size] columns, and every
    row of log-probabilities of a distribution of probabilities is
    non-increasing.  They are produced, with shape
    (batch_size, 2 * batch_size), from every distribution of
    [batch_size] rows that is at least [2 * batch_size] wide. *)
Theorem decode_top_k :
  forall (hps_batch_size : nat) (final_dists : list mat),
    (length final_dists <> 1%nat ->
     add_decode hps_batch_size final_dists = Raised)
    /\ (forall g,
          add_decode hps_batch_size final_dists = Value g ->
          exists d,
            final_dists = [d]
            /\ has_shape (_topk_ids g) (length d) (hps_batch_size * 2)
            /\ has_shape (_topk_log_probs g) (length d) (hps_batch_size * 2)
            /\ (nonneg d -> Forall non_increasing (_topk_log_probs g)))
    /\ (forall (d : mat) (W : nat),
          final_dists = [d] ->
          has_shape d hps_batch_size W ->
          (hps_batch_size * 2 <= W)%nat ->
          nonneg d ->
          exists g,
            add_decode hps_batch_size final_dists = Value g
            /\ has_shape (_topk_ids g) hps_batch_size (hps_batch_size * 2)
            /\ has_shape (_topk_log_probs g) hps_batch_size
                         (hps_batch_size * 2)
            /\ Forall non_increasing (_topk_log_probs g)).
Proof.
  intros bs final_dists. split; [|split].
  - intros Hlen. destruct final_dists as [|d [|d' rest]]; simpl in *;
      try reflexivity. lia.
  - intros g Hg. destruct final_dists as [|d [|d' rest]]; simpl in Hg;
      try discriminate.
    exists d. split; [reflexivity|]. unfold top_k in Hg.
    destruct (forallb (fun row => Nat.leb (bs * 2) (length row)) d) eqn:Hall;
      simpl in Hg; [|discriminate].
    injection Hg as <-. simpl. apply top_k_rows. assumption.
  - intros d W -> Hd HW Hnn. unfold add_decode, top_k.
    pose proof (forallb_width d (bs * 2) bs W Hd HW) as Hall.
    rewrite Hall. simpl bind.
    eexists. split; [reflexivity|]. simpl.
    destruct (top_k_rows d (bs * 2) Hall) as [Hids [Hlogs Hsorted]].
    destruct Hd as [Hdl _]. subst bs.
    repeat split; try apply Hids; try apply Hlogs. apply Hsorted. assumption.
Qed.

(** ** The graph-convolution layer *)

Lemma sigmoid_0 : sigmoid 0 = 1 / 2.
Proof. unfold sigmoid. rewrite Ropp_0, exp_0. lra. Qed.

(** C10. The result of [_add_gcn_layer] does not depend on its keyword
    parameter [use_label_information]: the number of labels looped over
    is [max_labels] when the hyperparameter
    [self._hps.use_label_information] is set and 1 otherwise, whatever
    the parameter is. *)
Theorem add_gcn_layer_ignores_use_label_information :
  forall (nn_dropout : list nat -> R -> t3 -> t3) (hps : hparams)
         (vars : String.string -> nat -> layer_vars) (gcn_in : t3)
         (in_dim gcn_dim batch_size max_nodes max_labels : nat)
         (adj_in adj_out : list (list sparse)) (neighbour_count : mat)
         (num_layers : nat) (use_gating use_skip use_normalization : bool)
         (dropout : R) (name : String.string) (u u' : bool),
    _add_gcn_layer nn_dropout hps vars gcn_in in_dim gcn_dim batch_size
      max_nodes max_labels adj_in adj_out neighbour_count num_layers
      use_gating use_skip use_normalization dropout name u
    = _add_gcn_layer nn_dropout hps vars gcn_in in_dim gcn_dim batch_size
        max_nodes
        (if Hps.use_label_information hps then max_labels else 1%nat)
        adj_in adj_out neighbour_count num_layers
        use_gating use_skip use_normalization dropout name u'.
Proof.
  intros. unfold _add_gcn_layer.
  destruct (Hps.use_label_information hps); reflexivity.
Qed.

Lemma fold_left_raised {A B : Type} (f : outcome A -> B -> outcome A)
    (l : list B) :
  (forall x, f Raised x = Raised) -> fold_left f l Raised = Raised.
Proof.
  intros H. induction l as [|x l IH]; simpl; [reflexivity|].
  rewrite H. assumption.
Qed.

Lemma fold_left_raised_from {A B : Type} (f : outcome A -> B -> outcome A)
    (l : list B) (a : outcome A) (x : B) :
  (forall y, f Raised y = Raised) -> f a x = Raised ->
  fold_left f (x :: l) a = Raised.
Proof.
  intros H Hx. simpl. rewrite Hx. apply fold_left_raised. exact H.
Qed.

(** With gating, the scope of a label cannot be built: the variable
    ['b_gout'] is created at line 316 and once more at line 321. *)
Lemma label_scope_gating_raises (L : label_vars) (bound : option label_vars)
    (use_skip : bool) :
  label_scope L bound true use_skip = Raised.
Proof. reflexivity. Qed.

(** With gating, a layer raises: in the scope of its first label, or,
    without a label, where [b_gloop] is read. *)
Lemma gcn_layer_body_gating_raises :
  forall (nn_dropout : list nat -> R -> t3 -> t3) (V : layer_vars)
         (layer : nat) (gcn_in : t3)
         (in_dim gcn_dim batch_size max_nodes max_labels : nat)
         (adj_in adj_out : list (list sparse)) (neighbour_count : mat)
         (use_skip use_normalization : bool) (dropout : R),
    gcn_layer_body nn_dropout V layer gcn_in in_dim gcn_dim batch_size
      max_nodes max_labels adj_in adj_out neighbour_count
      true use_skip use_normalization dropout
    = Raised.
Proof.
  intros. unfold gcn_layer_body. cbv zeta.
  destruct max_labels as [|n]; [reflexivity|].
  cbn [seq].
  rewrite fold_left_raised_from;
    [reflexivity | intros y; reflexivity | reflexivity].
Qed.

(** C6. With [use_gating] no contribution is gated, because the layer
    is never built: on every input [_add_gcn_layer] raises. Each
    label's scope creates the variable ['b_gout'] twice (lines 316 and
    321); with no label to loop over [b_gloop] is read unbound, and
    with no layer [gcn_out] is. In particular the layer raises on the
    one-node graph. *)
Theorem gcn_gating_raises :
  (forall (nn_dropout : list nat -> R -> t3 -> t3) (hps : hparams)
          (vars : String.string -> nat -> layer_vars) (gcn_in : t3)
          (in_dim gcn_dim batch_size max_nodes max_labels : nat)
          (adj_in adj_out : list (list sparse)) (neighbour_count : mat)
          (num_layers : nat) (use_skip use_normalization : bool)
          (dropout : R) (name : String.string) (u : bool),
     _add_gcn_layer nn_dropout hps vars gcn_in in_dim gcn_dim batch_size
       max_nodes max_labels adj_in adj_out neighbour_count num_layers
       true use_skip use_normalization dropout name u
     = Raised)
  /\ (forall nn_dropout : list nat -> R -> t3 -> t3,
        ex_gcn nn_dropout = Raised).
Proof.
  assert (H : forall (nn_dropout : list nat -> R -> t3 -> t3) (hps : hparams)
          (vars : String.string -> nat -> layer_vars) (gcn_in : t3)
          (in_dim gcn_dim batch_size max_nodes max_labels : nat)
          (adj_in adj_out : list (list sparse)) (neighbour_count : mat)
          (num_layers : nat) (use_skip use_normalization : bool)
          (dropout : R) (name : String.string) (u : bool),
     _add_gcn_layer nn_dropout hps vars gcn_in in_dim gcn_dim batch_size
       max_nodes max_labels adj_in adj_out neighbour_count num_layers
       true use_skip use_normalization dropout name u
     = Raised).
  { intros. unfold _add_gcn_layer. cbv zeta.
    destruct num_layers as [|n]; [reflexivity|].
    cbn [seq].
    rewrite fold_left_raised_from; [reflexivity | intros y; reflexivity |].
    cbn [bind]. rewrite gcn_layer_body_gating_raises. reflexivity. }
  split; [exact H|].
  intros nn_dropout. unfold ex_gcn. apply H.
Qed.

(** ** Regularisation and the loss that is minimised *)

Lemma l2_loss_scalar (p : R) : l2_loss [p] = p * p / 2.
Proof. unfold l2_loss, reduce_sum. simpl. lra. Qed.

(** With a positive coefficient the term the loss block adds is, per
    tagged weight [w], [beta * (beta * l2_loss w)^2 / 2]: the regulariser
    applied to the weight's penalty. *)
Lemma regularization_term (beta : R) (tagged : list vec) :
  0 < beta -> tagged <> [] ->
  exists r,
    l2_regularizer beta = Value r
    /\ apply_regularization r
         (map (fun p => [p]) (regularization_losses r tagged))
       = Value (reduce_sum
                  (map (fun w => beta * ((beta * l2_loss w)
                                         * (beta * l2_loss w) / 2))
                       tagged)).
Proof.
  intros Hb Hne. unfold l2_regularizer.
  destruct (Rlt_dec beta 0) as [Hlt|_]; [lra|].
  destruct (Req_dec_T beta 0) as [Heq|_]; [lra|].
  eexists. split; [reflexivity|].
  assert (Hrl : regularization_losses
                  (fun weights => Some (beta * l2_loss weights)) tagged
                = map (fun w => beta * l2_loss w) tagged).
  { unfold regularization_losses. clear Hne.
    induction tagged as [|w tagged IH]; simpl; [reflexivity|].
    rewrite IH. reflexivity. }
  rewrite Hrl. destruct tagged as [|w tagged]; [contradiction|].
  unfold apply_regularization. simpl map. f_equal. f_equal.
  rewrite !map_map. rewrite l2_loss_scalar. do 3 f_equal.
  apply map_ext. intros w'. rewrite l2_loss_scalar. reflexivity.
Qed.

(** The loss that is minimised is the total loss when coverage is on
    and [self._loss] when it is off, and the total loss is [self._loss]
    plus [cov_loss_wt] times the coverage loss. *)
Lemma loss_to_minimize_composition (hps : hparams) (tagged : list vec)
    (base : outcome R) (attn_dists : list mat) (dec_padding_mask : mat)
    (g : loss_graph) :
  add_loss hps tagged base attn_dists dec_padding_mask = Value g ->
  if Hps.coverage hps
  then exists cl,
         _coverage_loss attn_dists dec_padding_mask = Value cl
         /\ loss_to_minimize hps g
            = Value (self_loss g + Hps.cov_loss_wt hps * cl)
  else loss_to_minimize hps g = Value (self_loss g).
Proof.
  unfold add_loss, loss_to_minimize.
  destruct (init_regularizer hps) as [r| |]; simpl; try discriminate.
  destruct base as [l| |]; simpl; try discriminate.
  destruct (Hps.use_regularizer hps).
  - destruct (apply_regularization r _) as [pen| |]; simpl; try discriminate.
    destruct (Hps.coverage hps).
    + destruct (_coverage_loss attn_dists dec_padding_mask) as [cl| |];
        simpl; try discriminate.
      intros H. injection H as <-. simpl. exists cl. split; reflexivity.
    + intros H. injection H as <-. reflexivity.
  - simpl. destruct (Hps.coverage hps).
    + destruct (_coverage_loss attn_dists dec_padding_mask) as [cl| |];
        simpl; try discriminate.
      intros H. injection H as <-. simpl. exists cl. split; reflexivity.
    + intros H. injection H as <-. reflexivity.
Qed.

(** C7, with regularisation on, coefficient 1, coverage off, base loss 0
    and the single tagged weight [[1]]: the loss that is minimised is
    1/8, the regulariser applied to the weight's penalty 1/2, and not
    the base loss plus that penalty. *)
Theorem regularization_applied_to_penalties :
  add_loss (ex_hps true false) [[1]] (Value 0) [] []
  = Value {| self_loss := 1 / 8;
             self_coverage_loss := None;
             self_total_loss := None |}
  /\ loss_to_minimize (ex_hps true false)
       {| self_loss := 1 / 8;
          self_coverage_loss := None;
          self_total_loss := None |} = Value (1 / 8)
  /\ 0 + l2_penalty 1 [[1]] = 1 / 2.
Proof.
  split; [|split].
  - unfold add_loss, init_regularizer, l2_regularizer, ex_hps. simpl.
    destruct (Rlt_dec 1 0) as [Hlt|_]; [lra|].
    destruct (Req_dec_T 1 0) as [Heq|_]; [lra|].
    simpl. do 2 f_equal. unfold l2_loss, reduce_sum. simpl. lra.
  - reflexivity.
  - unfold l2_penalty, l2_loss, reduce_sum. simpl. lra.
Qed.

(** ** The theorems at concrete inputs *)

(** Shapes and lengths of concrete tensors. *)
Ltac shape_tac :=
  first [ split; [reflexivity | repeat (apply Forall_cons || apply Forall_nil);
                                reflexivity ]
        | simpl; lia ].

Lemma calc_final_dist_entry_witness :
  get2 (nth 0 (_calc_final_dist ex_self ex_vocab_dists ex_attn_dists) []) 0 2
  = 3 / 8.
Proof.
  pose proof (calc_final_dist_entry ex_self ex_vocab_dists ex_attn_dists
                3 0 0 2) as H.
  cbv zeta in H. rewrite H; try shape_tac.
  simpl. lra.
Defined.

Lemma calc_final_dist_sums_to_one_witness :
  length (nth 0 (nth 0 (_calc_final_dist ex_self ex_vocab_dists ex_attn_dists)
                     []) []) = 3%nat
  /\ reduce_sum (nth 0 (nth 0 (_calc_final_dist ex_self ex_vocab_dists
                                                 ex_attn_dists) []) []) = 1.
Proof.
  apply (calc_final_dist_sums_to_one ex_self ex_vocab_dists ex_attn_dists
           3 0 0); try shape_tac.
  - unfold reduce_sum. simpl. lra.
  - unfold reduce_sum. simpl. lra.
  - intros i Hi Hge. simpl in Hge.
    destruct i as [|[|[|i]]]; simpl in Hge; lia.
  - simpl. lra.
Defined.

Lemma pointer_gen_loss_masked_average_witness :
  pointer_gen_loss 1 ex_final_dists ex_target_batch ex_padding_mask
  = Value (masked_average 1 2 ex_padding_mask
             (target_nll ex_final_dists ex_target_batch)).
Proof.
  apply pointer_gen_loss_masked_average; try shape_tac.
  - intros t b Ht Hb.
    destruct b as [|b]; [|lia].
    destruct t as [|[|t]]; [| |lia]; unfold get2; simpl; lra.
  - intros b Hb. destruct b as [|b]; [|lia].
    unfold reduce_sum. simpl. lra.
Defined.

Lemma mask_and_avg_defined_iff_witness :
  ((exists x, _mask_and_avg ex_values ex_padding_mask = Value x)
   <-> (forall b, (b < 1)%nat -> 0 < reduce_sum (nth b ex_padding_mask [])))
  /\ ((exists b, (b < 1)%nat
                 /\ Forall (fun x => x = 0) (nth b ex_padding_mask []))
      -> _mask_and_avg ex_values ex_padding_mask = NotFinite).
Proof.
  apply (mask_and_avg_defined_iff ex_values ex_padding_mask 1 2).
  - reflexivity.
  - unfold ex_values.
    repeat (apply Forall_cons || apply Forall_nil); reflexivity.
  - shape_tac.
  - lia.
  - unfold is_mask, ex_padding_mask.
    repeat (apply Forall_cons || apply Forall_nil); auto.
Defined.

Lemma coverage_loss_masked_average_witness :
  _coverage_loss ex_attn_steps ex_padding_mask
  = Value (masked_average 1 2 ex_padding_mask (covloss_term 2 ex_attn_steps)).
Proof.
  apply coverage_loss_masked_average; try shape_tac.
  - unfold ex_attn_steps.
    repeat (apply Forall_cons || apply Forall_nil); shape_tac.
  - intros b Hb. destruct b as [|b]; [|lia].
    unfold reduce_sum. simpl. lra.
Defined.

Lemma coverage_loss_monotone_in_steps_witness :
  (exists x y,
     _coverage_loss (repeated_attention 3 [1%nat] 1) (ones 1 1) = Value x
     /\ _coverage_loss (repeated_attention 3 [1%nat] 2) (ones 1 2) = Value y
     /\ x <= y)
  /\ (forall t b, (1 <= t)%nat -> (t < 2)%nat -> (b < 1)%nat ->
        0 < nth b (nth t (covlosses_of (repeated_attention 3 [1%nat] 2)) []) 0).
Proof.
  apply (coverage_loss_monotone_in_steps 3%nat [1%nat] 1%nat 2%nat).
  - discriminate.
  - repeat (apply Forall_cons || apply Forall_nil). lia.
  - lia.
  - lia.
Defined.

Lemma decode_top_k_witness :
  add_decode 1 [] = Raised
  /\ exists g,
       add_decode 1 ex_attn_dists = Value g
       /\ has_shape (_topk_ids g) 1 (1 * 2)
       /\ has_shape (_topk_log_probs g) 1 (1 * 2)
       /\ Forall non_increasing (_topk_log_probs g).
Proof.
  split.
  - apply (proj1 (decode_top_k 1 [])). simpl. lia.
  - apply (proj2 (proj2 (decode_top_k 1 ex_attn_dists))
             [[1 / 4; 1 / 2; 1 / 4]] 3%nat).
    + reflexivity.
    + shape_tac.
    + simpl. lia.
    + unfold nonneg. repeat (apply Forall_cons || apply Forall_nil); lra.
Defined.

(** ** More on the copy/pointer combiner *)

Lemma concat1_shape (m n : mat) (B V M : nat) :
  has_shape m B V -> has_shape n B M -> has_shape (concat1 m n) B (V + M).
Proof.
  intros [Hml Hmf] [Hnl Hnf]. unfold concat1. split.
  - rewrite map2_length. len_lia.
  - apply Forall_forall. intros row Hin.
    destruct (In_nth _ _ [] Hin) as [b [Hb Hrow]].
    rewrite map2_length in Hb.
    rewrite (nth_map2 (A:=vec) (B:=vec) (C:=vec) (@app R) [] [] []) in Hrow
      by len_lia.
    subst row. rewrite length_app.
    pose proof (has_shape_nth m B V b (conj Hml Hmf)) as H1.
    pose proof (has_shape_nth n B M b (conj Hnl Hnf)) as H2.
    len_lia.
Qed.

Lemma bcast_mul_shape (p : vec) (m : mat) (B V : nat) :
  length p = B -> has_shape m B V -> has_shape (bcast_mul p m) B V.
Proof.
  intros Hp [Hml Hmf]. unfold bcast_mul. split.
  - rewrite map2_length. len_lia.
  - apply Forall_forall. intros row Hin.
    destruct (In_nth _ _ [] Hin) as [b [Hb Hrow]].
    rewrite map2_length in Hb.
    rewrite (nth_map2 (A:=R) (B:=vec) (C:=vec) _ 0 [] []) in Hrow by len_lia.
    subst row. rewrite length_map.
    apply (has_shape_nth m B V b (conj Hml Hmf)). len_lia.
Qed.

Lemma zeros_shape (B M : nat) : has_shape (zeros B M) B M.
Proof.
  split.
  - apply repeat_length.
  - apply Forall_forall. intros row Hin. apply repeat_spec in Hin.
    subst row. apply repeat_length.
Qed.

Lemma calc_final_dist_length (self : pointer_state)
    (vocab_dists attn_dists : list mat) :
  length (_calc_final_dist self vocab_dists attn_dists)
  = Nat.min (length (p_gens self))
            (Nat.min (length vocab_dists) (length attn_dists)).
Proof.
  unfold _calc_final_dist. cbv zeta.
  rewrite map2_length, !length_map, !map2_length. len_lia.
Qed.

Lemma calc_final_dist_nth (self : pointer_state)
    (vocab_dists attn_dists : list mat) (t : nat) :
  (t < length (p_gens self))%nat ->
  (t < length vocab_dists)%nat ->
  (t < length attn_dists)%nat ->
  nth t (_calc_final_dist self vocab_dists attn_dists) []
  = madd (concat1 (bcast_mul (nth t (p_gens self) []) (nth t vocab_dists []))
                  (zeros (batch_size self) (max_art_oovs self)))
         (scatter_nd
            (stack2 (tile1 (range (batch_size self))
                           (shape1 (enc_batch_extend_vocab self)))
                    (enc_batch_extend_vocab self))
            (bcast_mul (map (fun p => 1 - p) (nth t (p_gens self) []))
                       (nth t attn_dists []))
            (batch_size self, (vocab_size self + max_art_oovs self)%nat)).
Proof.
  intros Htp Htv Hta. unfold _calc_final_dist. cbv zeta.
  rewrite (nth_map2 (A:=mat) (B:=mat) (C:=mat) madd [] [] []).
  2:{ rewrite length_map, map2_length. apply Nat.min_glb_lt; assumption. }
  2:{ rewrite length_map, map2_length. apply Nat.min_glb_lt; assumption. }
  rewrite (nth_map_lt (A:=mat) (B:=mat) _ [] [])
    by (rewrite map2_length; apply Nat.min_glb_lt; assumption).
  rewrite (nth_map_lt (A:=mat) (B:=mat) _ [] [])
    by (rewrite map2_length; apply Nat.min_glb_lt; assumption).
  rewrite (nth_map2 (A:=vec) (B:=mat) (C:=mat) bcast_mul [] [] [])
    by assumption.
  rewrite (nth_map2 (A:=vec) (B:=mat) (C:=mat) _ [] [] []) by assumption.
  reflexivity.
Qed.

(** [_calc_final_dist] returns one distribution per decoder step for
    which a generation probability, a vocabulary distribution and an
    attention distribution are all present, and each has shape
    (batch_size, vocab_size + max_art_oovs). *)
Theorem calc_final_dist_shapes :
  forall (self : pointer_state) (vocab_dists attn_dists : list mat),
    length (_calc_final_dist self vocab_dists attn_dists)
    = Nat.min (length (p_gens self))
              (Nat.min (length vocab_dists) (length attn_dists))
    /\ (forall t,
          (t < length (p_gens self))%nat ->
          (t < length vocab_dists)%nat ->
          (t < length attn_dists)%nat ->
          length (nth t (p_gens self) []) = batch_size self ->
          has_shape (nth t vocab_dists []) (batch_size self)
                    (vocab_size self) ->
          has_shape (nth t (_calc_final_dist self vocab_dists attn_dists) [])
                    (batch_size self)
                    (vocab_size self + max_art_oovs self)).
Proof.
  intros self vocab_dists attn_dists. split.
  - apply calc_final_dist_length.
  - intros t Htp Htv Hta Hp Hv.
    rewrite calc_final_dist_nth by assumption.
    apply madd_shape.
    + apply concat1_shape; [|apply zeros_shape].
      apply bcast_mul_shape; assumption.
    + apply scatter_nd_shape.
Qed.

Lemma copy_mass_nonneg (j : nat) (ids : list nat) :
  forall ws : vec, Forall (fun w => 0 <= w) ws -> 0 <= copy_mass j ids ws.
Proof.
  induction ids as [|id ids IH]; intros [|w ws] Hf; simpl; try lra.
  inversion Hf as [|? ? Hw Hws]; subst. specialize (IH ws Hws).
  destruct (Nat.eqb id j); lra.
Qed.

Lemma nonneg_row (m : mat) (b : nat) :
  nonneg m -> Forall (fun x => 0 <= x) (nth b m []).
Proof.
  intros Hm. unfold nonneg in Hm. rewrite Forall_forall in Hm.
  destruct (Nat.lt_ge_cases b (length m)) as [Hb|Hb].
  - apply Hm, nth_In. assumption.
  - rewrite nth_overflow by assumption. constructor.
Qed.

Lemma nonneg_get2 (m : mat) (b j : nat) : nonneg m -> 0 <= get2 m b j.
Proof.
  intros Hm. pose proof (nonneg_row m b Hm) as Hr. unfold get2.
  rewrite Forall_forall in Hr.
  destruct (Nat.lt_ge_cases j (length (nth b m []))) as [Hj|Hj].
  - apply Hr, nth_In. assumption.
  - rewrite nth_overflow by assumption. lra.
Qed.

(** With non-negative vocabulary and attention weights and a generation
    probability in [0, 1], no entry of the final distribution is
    negative. *)
Theorem calc_final_dist_nonneg :
  forall (self : pointer_state) (vocab_dists attn_dists : list mat)
         (n t b j : nat),
    has_shape (enc_batch_extend_vocab self) (batch_size self) n ->
    (t < length (p_gens self))%nat ->
    (t < length vocab_dists)%nat ->
    (t < length attn_dists)%nat ->
    length (nth t (p_gens self) []) = batch_size self ->
    has_shape (nth t vocab_dists []) (batch_size self) (vocab_size self) ->
    has_shape (nth t attn_dists []) (batch_size self) n ->
    (b < batch_size self)%nat ->
    (j < vocab_size self + max_art_oovs self)%nat ->
    nonneg (nth t vocab_dists []) ->
    nonneg (nth t attn_dists []) ->
    0 <= nth b (nth t (p_gens self) []) 0 <= 1 ->
    0 <= get2 (nth t (_calc_final_dist self vocab_dists attn_dists) []) b j.
Proof.
  intros self vocab_dists attn_dists n t b j Hext Htp Htv Hta Hp Hv Ha Hb Hj
         Hnv Hna Hpg.
  pose proof (final_dist_entry self vocab_dists attn_dists n t b j
                Hext Htp Htv Hta Hp Hv Ha Hb Hj) as H.
  cbv zeta in H. rewrite H.
  pose proof (nonneg_get2 (nth t vocab_dists []) b j Hnv) as H1.
  pose proof (copy_mass_nonneg j (nth b (enc_batch_extend_vocab self) [])
                (nth b (nth t attn_dists []) [])
                (nonneg_row _ b Hna)) as H2.
  destruct (Nat.ltb j (vocab_size self)); nra.
Qed.

Lemma copy_mass_in_range (W : nat) (ids : list nat) :
  forall ws : vec,
    copy_mass 0 (map (fun id => if Nat.ltb id W then O else 1%nat) ids) ws
    = in_range_mass W ids ws.
Proof.
  unfold in_range_mass, reduce_sum.
  induction ids as [|id ids IH]; intros [|w ws]; simpl; try reflexivity.
  rewrite IH. destruct (Nat.ltb id W); reflexivity.
Qed.

(** The entries of a row of the final distribution sum to the
    generation probability times the sum of the vocabulary distribution
    plus [1 - p_gen] times the attention on encoder positions whose
    extended-vocabulary id is below [vocab_size + max_art_oovs]. *)
Lemma final_dist_row_sum :
  forall (self : pointer_state) (vocab_dists attn_dists : list mat)
         (n t b : nat),
    has_shape (enc_batch_extend_vocab self) (batch_size self) n ->
    (t < length (p_gens self))%nat ->
    (t < length vocab_dists)%nat ->
    (t < length attn_dists)%nat ->
    length (nth t (p_gens self) []) = batch_size self ->
    has_shape (nth t vocab_dists []) (batch_size self) (vocab_size self) ->
    has_shape (nth t attn_dists []) (batch_size self) n ->
    (b < batch_size self)%nat ->
    let p_gen := nth b (nth t (p_gens self) []) 0 in
    reduce_sum (nth b (nth t (_calc_final_dist self vocab_dists attn_dists) [])
                    [])
    = p_gen * reduce_sum (nth b (nth t vocab_dists []) [])
      + (1 - p_gen)
        * in_range_mass (vocab_size self + max_art_oovs self)
            (nth b (enc_batch_extend_vocab self) [])
            (nth b (nth t attn_dists []) []).
Proof.
  intros self vocab_dists attn_dists n t b Hext Htp Htv Hta Hp Hv Ha Hb p_gen.
  assert (Hshape : has_shape
            (nth t (_calc_final_dist self vocab_dists attn_dists) [])
            (batch_size self) (vocab_size self + max_art_oovs self)).
  { rewrite calc_final_dist_nth by assumption.
    apply madd_shape.
    - apply concat1_shape; [|apply zeros_shape].
      apply bcast_mul_shape; assumption.
    - apply scatter_nd_shape. }
  rewrite (row_sum_below _ _ _ b Hshape Hb).
  rewrite (sum_below_ext _ _
             (fun j => p_gen
                       * (if Nat.ltb j (vocab_size self)
                          then nth j (nth b (nth t vocab_dists []) []) 0
                          else 0)
                       + (1 - p_gen)
                         * copy_mass j (nth b (enc_batch_extend_vocab self) [])
                                     (nth b (nth t attn_dists []) []))).
  2:{ intros j Hj.
      apply (final_dist_entry self vocab_dists attn_dists n t b j);
        assumption. }
  rewrite sum_below_plus, !sum_below_scale, sum_below_prefix.
  pose proof (has_shape_nth _ _ _ _ Hv Hb) as Hlv.
  rewrite <- Hlv at 1. rewrite <- reduce_sum_nth.
  rewrite sum_copy_mass, copy_mass_in_range. reflexivity.
Qed.

Lemma in_range_mass_all (W : nat) (ids : list nat) :
  Forall (fun id => (id < W)%nat) ids ->
  forall ws : vec, length ids = length ws ->
    in_range_mass W ids ws = reduce_sum ws.
Proof.
  unfold in_range_mass, reduce_sum.
  induction 1 as [|id ids Hid Hids IH]; intros [|w ws] Hlen;
    simpl in *; try discriminate; [reflexivity|].
  rewrite (proj2 (Nat.ltb_lt id W) Hid).
  rewrite IH by (injection Hlen as Hlen; exact Hlen). reflexivity.
Qed.

(** No attention is lost in the final distribution of an example whose
    extended-vocabulary ids are all below [vocab_size + max_art_oovs]:
    the entries of its row sum to the generation probability times the
    sum of the vocabulary distribution plus [1 - p_gen] times the sum
    of the attention distribution, normalised or not. *)
Theorem calc_final_dist_row_sum :
  forall (self : pointer_state) (vocab_dists attn_dists : list mat)
         (n t b : nat),
    has_shape (enc_batch_extend_vocab self) (batch_size self) n ->
    (t < length (p_gens self))%nat ->
    (t < length vocab_dists)%nat ->
    (t < length attn_dists)%nat ->
    length (nth t (p_gens self) []) = batch_size self ->
    has_shape (nth t vocab_dists []) (batch_size self) (vocab_size self) ->
    has_shape (nth t attn_dists []) (batch_size self) n ->
    (b < batch_size self)%nat ->
    Forall (fun id => (id < vocab_size self + max_art_oovs self)%nat)
           (nth b (enc_batch_extend_vocab self) []) ->
    let p_gen := nth b (nth t (p_gens self) []) 0 in
    reduce_sum (nth b (nth t (_calc_final_dist self vocab_dists attn_dists) [])
                    [])
    = p_gen * reduce_sum (nth b (nth t vocab_dists []) [])
      + (1 - p_gen) * reduce_sum (nth b (nth t attn_dists []) []).
Proof.
  intros self vocab_dists attn_dists n t b Hext Htp Htv Hta Hp Hv Ha Hb Hin
         p_gen.
  pose proof (final_dist_row_sum self vocab_dists attn_dists n t b
                Hext Htp Htv Hta Hp Hv Ha Hb) as H.
  cbv zeta in H. unfold p_gen. rewrite H.
  rewrite (in_range_mass_all _ _ Hin); [reflexivity|].
  pose proof (has_shape_nth _ _ _ _ Hext Hb) as H1.
  pose proof (has_shape_nth _ _ _ _ Ha Hb) as H2.
  len_lia.
Qed.

(** ** More on the masked average *)

Lemma sum_below_le (n : nat) (f g : nat -> R) :
  (forall i, (i < n)%nat -> f i <= g i) -> sum_below n f <= sum_below n g.
Proof.
  induction n as [|n IH]; intros H; [unfold sum_below; simpl; lra|].
  rewrite !sum_below_S.
  assert (H1 : sum_below n f <= sum_below n g)
    by (apply IH; intros i Hi; apply H; len_lia).
  assert (H2 : f n <= g n) by (apply H; len_lia).
  lra.
Qed.

Lemma is_mask_get2 (m : mat) (b t : nat) :
  is_mask m -> get2 m b t = 0 \/ get2 m b t = 1.
Proof.
  intros Hm. unfold is_mask in Hm. rewrite Forall_forall in Hm. unfold get2.
  destruct (Nat.lt_ge_cases b (length m)) as [Hb|Hb].
  - specialize (Hm (nth b m []) (nth_In _ _ Hb)).
    rewrite Forall_forall in Hm.
    destruct (Nat.lt_ge_cases t (length (nth b m []))) as [Ht|Ht].
    + apply Hm, nth_In. assumption.
    + left. apply nth_overflow. assumption.
  - left. rewrite (nth_overflow m) by assumption. apply nth_nil.
Qed.

(** A masked average lies between any two bounds of the values it
    averages at the unmasked steps. *)
Lemma masked_average_bounds (B T : nat) (mask : mat) (f : nat -> nat -> R)
    (lo hi : R) :
  is_mask mask ->
  (0 < B)%nat ->
  (forall b, (b < B)%nat -> 0 < sum_below T (fun t => get2 mask b t)) ->
  (forall t b, (t < T)%nat -> (b < B)%nat -> get2 mask b t <> 0 ->
     lo <= f t b <= hi) ->
  lo <= masked_average B T mask f <= hi.
Proof.
  intros Hm HB Hpos Hf. unfold masked_average.
  assert (HBR : 0 < INR B) by (apply lt_0_INR; assumption).
  assert (Hq : forall b, (b < B)%nat ->
            lo <= sum_below T (fun t => f t b * get2 mask b t)
                  / sum_below T (fun t => get2 mask b t) <= hi).
  { intros b Hb. specialize (Hpos b Hb).
    set (D := sum_below T (fun t => get2 mask b t)) in *.
    assert (H1 : sum_below T (fun t => lo * get2 mask b t)
                 <= sum_below T (fun t => f t b * get2 mask b t)).
    { apply sum_below_le. intros t Ht.
      destruct (is_mask_get2 mask b t Hm) as [H0|H1].
      - rewrite H0. lra.
      - specialize (Hf t b Ht Hb). rewrite H1 in *.
        assert (1 <> 0) by lra. specialize (Hf H). lra. }
    assert (H2 : sum_below T (fun t => f t b * get2 mask b t)
                 <= sum_below T (fun t => hi * get2 mask b t)).
    { apply sum_below_le. intros t Ht.
      destruct (is_mask_get2 mask b t Hm) as [H0|H1'].
      - rewrite H0. lra.
      - specialize (Hf t b Ht Hb). rewrite H1' in *.
        assert (1 <> 0) by lra. specialize (Hf H). lra. }
    rewrite sum_below_scale in H1, H2.
    change (sum_below T (get2 mask b)) with D in H1, H2.
    split.
    - apply (Rmult_le_reg_r D); [assumption|].
      unfold Rdiv. rewrite Rmult_assoc, Rinv_l by lra. nra.
    - apply (Rmult_le_reg_r D); [assumption|].
      unfold Rdiv. rewrite Rmult_assoc, Rinv_l by lra. nra. }
  assert (Hlo : sum_below B (fun _ => lo)
                <= sum_below B (fun b =>
                     sum_below T (fun t => f t b * get2 mask b t)
                     / sum_below T (fun t => get2 mask b t)))
    by (apply sum_below_le; intros b Hb; apply Hq; assumption).
  assert (Hhi : sum_below B (fun b =>
                     sum_below T (fun t => f t b * get2 mask b t)
                     / sum_below T (fun t => get2 mask b t))
                <= sum_below B (fun _ => hi))
    by (apply sum_below_le; intros b Hb; apply Hq; assumption).
  rewrite sum_below_const in Hlo, Hhi.
  split.
  - apply (Rmult_le_reg_r (INR B)); [assumption|].
    unfold Rdiv. rewrite Rmult_assoc, Rinv_l by lra. nra.
  - apply (Rmult_le_reg_r (INR B)); [assumption|].
    unfold Rdiv. rewrite Rmult_assoc, Rinv_l by lra. nra.
Qed.

(** Two lists of per-step numbers that agree wherever the mask is not
    0 have the same masked average. *)
Lemma mask_and_avg_agree :
  forall (values values' : list vec) (padding_mask : mat) (B T : nat),
    length values = T -> length values' = T ->
    Forall (fun v => length v = B) values ->
    Forall (fun v => length v = B) values' ->
    has_shape padding_mask B T ->
    (forall t b, (t < T)%nat -> (b < B)%nat ->
       get2 padding_mask b t <> 0 ->
       nth b (nth t values []) 0 = nth b (nth t values' []) 0) ->
    _mask_and_avg values padding_mask = _mask_and_avg values' padding_mask.
Proof.
  intros values values' mask B T HT HT' Hv Hv' [Hml Hmf] Hagree.
  unfold _mask_and_avg. cbv zeta.
  assert (Hdl : length (reduce_sum_axis1 mask) = B)
    by (unfold reduce_sum_axis1; rewrite length_map; assumption).
  rewrite Hdl.
  replace (py_sum B
             (map2 (fun dec_step v => vmul v (column mask dec_step))
                   (seq 0 (length values')) values'))
    with (py_sum B
            (map2 (fun dec_step v => vmul v (column mask dec_step))
                  (seq 0 (length values)) values));
    [reflexivity|].
  apply (nth_ext _ _ 0 0).
  - rewrite !masked_sum_length by assumption. reflexivity.
  - intros b Hb. rewrite masked_sum_length in Hb by assumption.
    rewrite !masked_sum_entry by assumption. rewrite HT, HT'.
    apply sum_below_ext. intros t Ht.
    destruct (Req_dec_T (get2 mask b t) 0) as [H0|Hne].
    + rewrite H0. lra.
    + rewrite (Hagree t b Ht Hb Hne). reflexivity.
Qed.

Lemma mapM_finite_row (l : list xreal) :
  mapM finite l
  = if forallb is_finb l then Value (map to_real l) else NotFinite.
Proof.
  induction l as [|x l IH]; [reflexivity|].
  simpl. destruct x; simpl; try reflexivity.
  rewrite IH. destruct (forallb is_finb l); reflexivity.
Qed.

Lemma mapM_finite_rows (ls : list (list xreal)) :
  mapM (mapM finite) ls
  = if forallb (forallb is_finb) ls
    then Value (map (map to_real) ls) else NotFinite.
Proof.
  induction ls as [|l ls IH]; [reflexivity|].
  simpl. rewrite mapM_finite_row.
  destruct (forallb is_finb l); simpl; [|reflexivity].
  rewrite IH. destruct (forallb (forallb is_finb) ls); reflexivity.
Qed.

Lemma forallb_nth {A : Type} (p : A -> bool) (l : list A) (d : A) :
  forallb p l = true <->
  (forall i, (i < length l)%nat -> p (nth i l d) = true).
Proof.
  rewrite forallb_forall. split.
  - intros H i Hi. apply H. apply nth_In. exact Hi.
  - intros H x Hx. destruct (In_nth l x d Hx) as [i [Hi <-]].
    apply H. exact Hi.
Qed.

Lemma all_finite_entries (values : list (list xreal)) (B T : nat) :
  length values = T ->
  Forall (fun v => length v = B) values ->
  (forallb (forallb is_finb) values = true <->
   (forall t b, (t < T)%nat -> (b < B)%nat ->
      is_finb (nth b (nth t values []) NaN) = true)).
Proof.
  intros HT Hrows.
  rewrite (forallb_nth (forallb is_finb) values []). rewrite HT.
  assert (Hlen : forall t, (t < T)%nat -> length (nth t values []) = B).
  { intros t Ht. rewrite Forall_forall in Hrows. apply Hrows.
    apply nth_In. rewrite HT. exact Ht. }
  split.
  - intros H t b Ht Hb.
    apply (proj1 (forallb_nth is_finb (nth t values []) NaN) (H t Ht)).
    rewrite (Hlen t Ht). exact Hb.
  - intros H t Ht. apply (forallb_nth is_finb (nth t values []) NaN).
    intros b Hb. rewrite (Hlen t Ht) in Hb. apply H; assumption.
Qed.

Lemma is_finite_finb (x : xreal) : is_finite x <-> is_finb x = true.
Proof.
  split.
  - intros [r ->]. reflexivity.
  - destruct x; simpl; try discriminate. intros _. eexists. reflexivity.
Qed.

(** Numbers at padded steps have no influence on [_mask_and_avg]: two
    lists of per-step values that agree wherever the mask is not 0, and
    hold a number wherever it is 0, give the same result. The values
    at the other steps may be infinite or NaN. *)
Theorem mask_and_avg_ignores_padding :
  forall (values values' : list (list xreal)) (padding_mask : mat)
         (B T : nat),
    length values = T -> length values' = T ->
    Forall (fun v => length v = B) values ->
    Forall (fun v => length v = B) values' ->
    has_shape padding_mask B T ->
    (forall t b, (t < T)%nat -> (b < B)%nat ->
       get2 padding_mask b t <> 0 ->
       nth b (nth t values []) NaN = nth b (nth t values' []) NaN) ->
    (forall t b, (t < T)%nat -> (b < B)%nat ->
       get2 padding_mask b t = 0 ->
       is_finite (nth b (nth t values []) NaN)
       /\ is_finite (nth b (nth t values' []) NaN)) ->
    _mask_and_avg_float values padding_mask
    = _mask_and_avg_float values' padding_mask.
Proof.
  intros values values' mask B T HT HT' Hv Hv' Hshape Hagree Hpad.
  unfold _mask_and_avg_float. rewrite !mapM_finite_rows.
  assert (Hsame : forallb (forallb is_finb) values
                  = forallb (forallb is_finb) values').
  { apply eq_true_iff_eq.
    rewrite (all_finite_entries values B T HT Hv).
    rewrite (all_finite_entries values' B T HT' Hv').
    split; intros H t b Ht Hb.
    - destruct (Req_dec_T (get2 mask b t) 0) as [H0|Hne].
      + apply is_finite_finb. apply (Hpad t b Ht Hb H0).
      + rewrite <- (Hagree t b Ht Hb Hne). apply H; assumption.
    - destruct (Req_dec_T (get2 mask b t) 0) as [H0|Hne].
      + apply is_finite_finb. apply (Hpad t b Ht Hb H0).
      + rewrite (Hagree t b Ht Hb Hne). apply H; assumption. }
  rewrite <- Hsame.
  destruct (forallb (forallb is_finb) values); [|reflexivity].
  cbn [bind].
  apply (mask_and_avg_agree _ _ mask B T).
  - rewrite length_map. exact HT.
  - rewrite length_map. exact HT'.
  - apply Forall_forall. intros v Hin. apply in_map_iff in Hin.
    destruct Hin as [v0 [<- Hin]]. rewrite length_map.
    rewrite Forall_forall in Hv. apply Hv. exact Hin.
  - apply Forall_forall. intros v Hin. apply in_map_iff in Hin.
    destruct Hin as [v0 [<- Hin]]. rewrite length_map.
    rewrite Forall_forall in Hv'. apply Hv'. exact Hin.
  - exact Hshape.
  - intros t b Ht Hb Hne.
    change (@nil R) with (map to_real []).
    rewrite !(map_nth (map to_real)).
    change 0 with (to_real NaN).
    rewrite !(map_nth to_real).
    rewrite (Hagree t b Ht Hb Hne). reflexivity.
Qed.


(** ** More on the pointer-generator loss *)

Lemma mapM_not_finite {A B : Type} (f : A -> outcome B) (l : list A) :
  (forall a, In a l -> f a <> Raised) ->
  (exists a, In a l /\ f a = NotFinite) ->
  mapM f l = NotFinite.
Proof.
  induction l as [|a l IH]; intros Hnr [a0 [Hin Hnf]]; [destruct Hin|].
  simpl. destruct (f a) as [b| |] eqn:Hfa; simpl.
  - rewrite IH; [reflexivity| |].
    + intros a' Ha'. apply Hnr. right. assumption.
    + destruct Hin as [Heq|Hin].
      * subst a0. rewrite Hfa in Hnf. discriminate.
      * exists a0. split; assumption.
  - reflexivity.
  - exfalso. apply (Hnr a); [left; reflexivity|assumption].
Qed.

Lemma mapM_not_raised {A B : Type} (f : A -> outcome B) (l : list A) :
  (forall a, In a l -> f a <> Raised) -> mapM f l <> Raised.
Proof.
  induction l as [|a l IH]; intros Hnr; simpl; [discriminate|].
  destruct (f a) as [b| |] eqn:Hfa; simpl.
  - destruct (mapM f l) as [bs| |] eqn:Hl; simpl; try discriminate.
    exfalso. apply IH; [|reflexivity].
    intros a' Ha'. apply Hnr. right. assumption.
  - discriminate.
  - exfalso. apply (Hnr a); [left; reflexivity|assumption].
Qed.

Lemma neg_log_entry_cases (p : R) :
  finite (xopp (tf_log p)) <> Raised
  /\ (p <= 0 -> finite (xopp (tf_log p)) = NotFinite).
Proof.
  unfold tf_log.
  destruct (Rlt_dec p 0) as [Hlt|Hge]; simpl.
  - split; [discriminate|reflexivity].
  - destruct (Req_dec_T p 0) as [H0|Hne]; simpl.
    + split; [discriminate|reflexivity].
    + split; [discriminate|]. intros Hle. lra.
Qed.

Lemma neg_log_not_raised (gold_probs : vec) : neg_log gold_probs <> Raised.
Proof.
  unfold neg_log. apply mapM_not_raised. intros p _.
  apply neg_log_entry_cases.
Qed.

Lemma neg_log_not_finite (gold_probs : vec) (p : R) :
  In p gold_probs -> p <= 0 -> neg_log gold_probs = NotFinite.
Proof.
  intros Hin Hp. unfold neg_log. apply mapM_not_finite.
  - intros q _. apply neg_log_entry_cases.
  - exists p. split; [assumption|]. apply neg_log_entry_cases. assumption.
Qed.

(** A target token to which some step's distribution gives no
    probability makes the pointer-generator loss not finite, whatever
    the padding mask is: also when the step is a padded one. *)
Theorem pointer_gen_loss_zero_target_probability :
  forall (B T : nat) (final_dists : list mat) (target_batch : list (list nat))
         (dec_padding_mask : mat) (t b : nat),
    length final_dists = T ->
    length target_batch = B ->
    (t < T)%nat -> (b < B)%nat ->
    get2 (nth t final_dists []) b (nth t (nth b target_batch []) O) <= 0 ->
    pointer_gen_loss B final_dists target_batch dec_padding_mask = NotFinite.
Proof.
  intros B T final_dists target_batch mask t b HT HB Ht Hb Hp.
  unfold pointer_gen_loss. cbv zeta.
  rewrite mapM_not_finite; [reflexivity| |].
  - intros sd _. apply neg_log_not_raised.
  - exists (t, nth t final_dists []). split.
    + replace (t, nth t final_dists [])
        with (nth t (combine (seq 0 (length final_dists)) final_dists)
                  (O, [])).
      * apply nth_In. rewrite length_combine, length_seq. len_lia.
      * rewrite nth_combine by (rewrite ?length_seq; len_lia).
        rewrite seq_nth by len_lia. reflexivity.
    + simpl fst; simpl snd.
      apply (neg_log_not_finite _
               (get2 (nth t final_dists []) b
                     (nth t (nth b target_batch []) O))); [|assumption].
      rewrite gather_nd_range
        by (unfold column_nat; rewrite length_map; assumption).
      apply in_map_iff. exists b. split.
      * f_equal. unfold column_nat.
        apply (nth_map_lt (A:=list nat) (B:=nat) (fun row => nth t row O) [] O).
        len_lia.
      * apply in_seq. len_lia.
Qed.

(** ** Bounds on the losses *)

(** The value of the pointer-generator loss, for use below. *)
Lemma pointer_gen_loss_value :
  forall (B T : nat) (final_dists : list mat) (target_batch : list (list nat))
         (dec_padding_mask : mat),
    length final_dists = T ->
    has_shape target_batch B T ->
    has_shape dec_padding_mask B T ->
    (0 < B)%nat ->
    (forall t b, (t < T)%nat -> (b < B)%nat ->
       0 < get2 (nth t final_dists []) b (nth t (nth b target_batch []) O)) ->
    (forall b, (b < B)%nat -> reduce_sum (nth b dec_padding_mask []) <> 0) ->
    pointer_gen_loss B final_dists target_batch dec_padding_mask
    = Value (masked_average B T dec_padding_mask
               (target_nll final_dists target_batch)).
Proof.
  intros B T final_dists target_batch mask HT Htgt Hmask HB Hpos Hnz.
  unfold pointer_gen_loss. cbv zeta.
  set (step := fun sd : nat * mat =>
         map (fun b => - ln (get2 (snd sd) b
                               (nth (fst sd) (nth b target_batch []) O)))
             (seq 0 B)).
  assert (Hcol : forall t, length (column_nat target_batch t) = B).
  { intros t. unfold column_nat. rewrite length_map. apply Htgt. }
  assert (Hnthcol : forall t b, (b < B)%nat ->
            nth b (column_nat target_batch t) O
            = nth t (nth b target_batch []) O).
  { intros t b Hb. unfold column_nat.
    apply (nth_map_lt (A:=list nat) (B:=nat) (fun row => nth t row O) [] O).
    destruct Htgt as [Hl _]. len_lia. }
  rewrite (mapM_value _ step).
  - simpl bind.
    rewrite (mask_and_avg_value _ mask B T); try assumption.
    + f_equal. apply masked_average_ext. intros t b Ht Hb.
      rewrite (nth_map_lt (A:=nat * mat) (B:=vec) step (O, []) [])
        by (rewrite length_combine, length_seq; len_lia).
      rewrite nth_combine by (rewrite ?length_seq; len_lia).
      rewrite seq_nth by len_lia. unfold step. simpl fst; simpl snd.
      rewrite (nth_map_lt (A:=nat) (B:=R) _ O 0) by (rewrite length_seq; len_lia).
      rewrite seq_nth by len_lia. reflexivity.
    + rewrite length_map, length_combine, length_seq. len_lia.
    + apply Forall_forall. intros v Hin. apply in_map_iff in Hin.
      destruct Hin as [sd [Hsd _]]. subst v. unfold step.
      rewrite length_map, length_seq. reflexivity.
    + intros b Hb. rewrite <- (row_sum_below _ B T b) by assumption.
      apply Hnz. assumption.
  - intros [t dist] Hin. simpl fst; simpl snd.
    destruct (In_nth _ _ (O, []) Hin) as [k [Hk Hnth]].
    rewrite length_combine, length_seq in Hk.
    rewrite nth_combine in Hnth by (rewrite ?length_seq; len_lia).
    rewrite seq_nth in Hnth by len_lia.
    injection Hnth as Ht Hd. simpl in Ht. subst t.
    rewrite gather_nd_range by apply Hcol.
    rewrite neg_log_value.
    + unfold step. simpl fst; simpl snd. rewrite map_map. f_equal.
      apply map_ext_in. intros b Hb. apply in_seq in Hb.
      rewrite Hnthcol by len_lia. reflexivity.
    + apply Forall_forall. intros p Hp. apply in_map_iff in Hp.
      destruct Hp as [b [Hp Hb]]. apply in_seq in Hb. subst p.
      rewrite Hnthcol by len_lia. rewrite <- Hd. apply Hpos; len_lia.
Qed.

Lemma ln_nonpos (p : R) : 0 < p -> p <= 1 -> ln p <= 0.
Proof.
  intros Hp Hle. destruct (Req_dec_T p 1) as [->|Hne].
  - rewrite ln_1. lra.
  - rewrite <- ln_1. left. apply ln_increasing; lra.
Qed.

(** A masked average is at least any lower bound of the values it
    averages at the unmasked steps. *)
Lemma masked_average_lower (B T : nat) (mask : mat) (f : nat -> nat -> R)
    (lo : R) :
  is_mask mask ->
  (0 < B)%nat ->
  (forall b, (b < B)%nat -> 0 < sum_below T (fun t => get2 mask b t)) ->
  (forall t b, (t < T)%nat -> (b < B)%nat -> get2 mask b t <> 0 ->
     lo <= f t b) ->
  lo <= masked_average B T mask f.
Proof.
  intros Hm HB Hpos Hf. unfold masked_average.
  assert (HBR : 0 < INR B) by (apply lt_0_INR; assumption).
  assert (Hq : forall b, (b < B)%nat ->
            lo <= sum_below T (fun t => f t b * get2 mask b t)
                  / sum_below T (fun t => get2 mask b t)).
  { intros b Hb. specialize (Hpos b Hb).
    set (D := sum_below T (fun t => get2 mask b t)) in *.
    assert (H1 : sum_below T (fun t => lo * get2 mask b t)
                 <= sum_below T (fun t => f t b * get2 mask b t)).
    { apply sum_below_le. intros t Ht.
      destruct (is_mask_get2 mask b t Hm) as [H0|H1].
      - rewrite H0. lra.
      - specialize (Hf t b Ht Hb). rewrite H1 in *.
        assert (H : 1 <> 0) by lra. specialize (Hf H). lra. }
    rewrite sum_below_scale in H1.
    change (sum_below T (get2 mask b)) with D in H1.
    apply (Rmult_le_reg_r D); [assumption|].
    unfold Rdiv. rewrite Rmult_assoc, Rinv_l by lra. nra. }
  assert (Hlo : sum_below B (fun _ => lo)
                <= sum_below B (fun b =>
                     sum_below T (fun t => f t b * get2 mask b t)
                     / sum_below T (fun t => get2 mask b t)))
    by (apply sum_below_le; intros b Hb; apply Hq; assumption).
  rewrite sum_below_const in Hlo.
  apply (Rmult_le_reg_r (INR B)); [assumption|].
  unfold Rdiv. rewrite Rmult_assoc, Rinv_l by lra. nra.
Qed.

(** When every target token has a probability in (0, 1] and every
    example an unpadded step, the pointer-generator loss is a number
    and is not negative. *)
Theorem pointer_gen_loss_nonneg :
  forall (B T : nat) (final_dists : list mat) (target_batch : list (list nat))
         (dec_padding_mask : mat),
    length final_dists = T ->
    has_shape target_batch B T ->
    has_shape dec_padding_mask B T ->
    (0 < B)%nat ->
    is_mask dec_padding_mask ->
    (forall t b, (t < T)%nat -> (b < B)%nat ->
       0 < get2 (nth t final_dists []) b (nth t (nth b target_batch []) O)
       <= 1) ->
    (forall b, (b < B)%nat -> 0 < reduce_sum (nth b dec_padding_mask [])) ->
    exists x,
      pointer_gen_loss B final_dists target_batch dec_padding_mask = Value x
      /\ 0 <= x.
Proof.
  intros B T final_dists target_batch mask HT Htgt Hmask HB Hm Hp Hpos.
  eexists. split.
  - apply (pointer_gen_loss_value B T); try assumption.
    + intros t b Ht Hb. apply Hp; assumption.
    + intros b Hb. specialize (Hpos b Hb). lra.
  - apply masked_average_lower; try assumption.
    + intros b Hb. rewrite <- (row_sum_below _ B T b) by assumption.
      apply Hpos. assumption.
    + intros t b Ht Hb _. unfold target_nll.
      destruct (Hp t b Ht Hb) as [H0 H1].
      pose proof (ln_nonpos _ H0 H1). lra.
Qed.

(** ** More on the coverage loss *)

Lemma sum_below_nonneg (n : nat) (f : nat -> R) :
  (forall i, (i < n)%nat -> 0 <= f i) -> 0 <= sum_below n f.
Proof.
  intros H. rewrite <- (sum_below_zero n). apply sum_below_le. assumption.
Qed.

Lemma nonneg_attn_get2 (attn_dists : list mat) (s b i : nat) :
  Forall nonneg attn_dists -> 0 <= get2 (nth s attn_dists []) b i.
Proof.
  intros Hf. apply nonneg_get2.
  destruct (Nat.lt_ge_cases s (length attn_dists)) as [Hs|Hs].
  - rewrite Forall_forall in Hf. apply Hf, nth_In. assumption.
  - rewrite nth_overflow by assumption. constructor.
Qed.

(** A step's coverage term lies between 0 and the step's total
    attention. *)
Lemma covloss_term_bounds (n : nat) (attn_dists : list mat) (t b : nat) :
  Forall nonneg attn_dists ->
  0 <= covloss_term n attn_dists t b
  <= sum_below n (fun i => get2 (nth t attn_dists []) b i).
Proof.
  intros Hf. unfold covloss_term.
  assert (Hc : forall i, 0 <= coverage_before attn_dists t b i).
  { intros i. unfold coverage_before. apply sum_below_nonneg.
    intros s _. apply nonneg_attn_get2. assumption. }
  split.
  - apply sum_below_nonneg. intros i _.
    apply Rmin_glb; [apply nonneg_attn_get2; assumption|apply Hc].
  - apply sum_below_le. intros i _. apply Rmin_l.
Qed.

(** For attention distributions (non-negative weights that sum to at
    most 1 per example and step) and a mask of 0s and 1s with an
    unpadded step in every row, the coverage loss is a number between 0
    and 1. *)
Theorem coverage_loss_bounds :
  forall (B T n : nat) (attn_dists : list mat) (padding_mask : mat),
    length attn_dists = T ->
    (0 < T)%nat ->
    Forall (fun a => has_shape a B n) attn_dists ->
    has_shape padding_mask B T ->
    (0 < B)%nat ->
    is_mask padding_mask ->
    (forall b, (b < B)%nat -> 0 < reduce_sum (nth b padding_mask [])) ->
    Forall nonneg attn_dists ->
    (forall t b, (t < T)%nat -> (b < B)%nat ->
       reduce_sum (nth b (nth t attn_dists []) []) <= 1) ->
    exists x,
      _coverage_loss attn_dists padding_mask = Value x /\ 0 <= x <= 1.
Proof.
  intros B T n attn_dists mask HT HTpos Hsh Hm HB Hmask Hpos Hnn Hsum.
  eexists. split.
  - apply (coverage_loss_value B T n); try assumption.
    intros b Hb. specialize (Hpos b Hb). lra.
  - apply masked_average_bounds; try assumption.
    + intros b Hb. rewrite <- (row_sum_below _ B T b) by assumption.
      apply Hpos. assumption.
    + intros t b Ht Hb _.
      pose proof (covloss_term_bounds n attn_dists t b Hnn) as [H0 H1].
      split; [assumption|].
      assert (Hshape : has_shape (nth t attn_dists []) B n).
      { rewrite Forall_forall in Hsh. apply Hsh, nth_In. len_lia. }
      rewrite <- (row_sum_below _ B n b Hshape Hb) in H1.
      specialize (Hsum t b Ht Hb). lra.
Qed.

(** When no encoder position receives attention at two different
    steps, the coverage loss is 0. *)
Theorem coverage_loss_zero_without_repetition :
  forall (B T n : nat) (attn_dists : list mat) (padding_mask : mat),
    length attn_dists = T ->
    (0 < T)%nat ->
    Forall (fun a => has_shape a B n) attn_dists ->
    has_shape padding_mask B T ->
    (0 < B)%nat ->
    (forall b, (b < B)%nat -> reduce_sum (nth b padding_mask []) <> 0) ->
    Forall nonneg attn_dists ->
    (forall s t b i, (s < t)%nat -> (t < T)%nat -> (b < B)%nat ->
       (i < n)%nat ->
       get2 (nth s attn_dists []) b i = 0
       \/ get2 (nth t attn_dists []) b i = 0) ->
    _coverage_loss attn_dists padding_mask = Value 0.
Proof.
  intros B T n attn_dists mask HT HTpos Hsh Hm HB Hnz Hnn Hdisj.
  rewrite (coverage_loss_value B T n) by assumption.
  f_equal.
  rewrite (masked_average_ext B T mask _ (fun _ _ => 0)).
  - unfold masked_average.
    rewrite (sum_below_ext _ _ (fun _ => 0)).
    + rewrite sum_below_zero. unfold Rdiv. apply Rmult_0_l.
    + intros b Hb.
      rewrite (sum_below_ext _ _ (fun _ => 0))
        by (intros t Ht; apply Rmult_0_l).
      rewrite sum_below_zero. unfold Rdiv. apply Rmult_0_l.
  - intros t b Ht Hb. unfold covloss_term.
    rewrite (sum_below_ext _ _ (fun _ => 0)); [apply sum_below_zero|].
    intros i Hi.
    pose proof (nonneg_attn_get2 attn_dists t b i Hnn) as Ha.
    destruct (Req_dec_T (get2 (nth t attn_dists []) b i) 0) as [H0|Hne].
    + rewrite H0. apply Rmin_left. unfold coverage_before.
      apply sum_below_nonneg. intros s _. apply nonneg_attn_get2.
      assumption.
    + assert (Hc : coverage_before attn_dists t b i = 0).
      { unfold coverage_before.
        rewrite (sum_below_ext _ _ (fun _ => 0)); [apply sum_below_zero|].
        intros s Hs. destruct (Hdisj s t b i Hs Ht Hb Hi); tauto. }
      rewrite Hc. apply Rmin_right. assumption.
Qed.

(** ** More on regularisation *)

(** With regularisation switched on, the loss block raises unless the
    coefficient [beta_l2] is positive and some weight is tagged: a
    negative coefficient is refused when the regulariser is made, and
    with a zero coefficient or no tagged weight there is nothing in the
    collection to regularise. *)
Theorem add_loss_regularizer_raises :
  forall (hps : hparams) (tagged : list vec) (l : R)
         (attn_dists : list mat) (dec_padding_mask : mat),
    Hps.use_regularizer hps = true ->
    Hps.beta_l2 hps <= 0 \/ tagged = [] ->
    add_loss hps tagged (Value l) attn_dists dec_padding_mask = Raised.
Proof.
  intros hps tagged l attn_dists mask Hreg Hcase.
  unfold add_loss, init_regularizer, l2_regularizer. rewrite Hreg.
  destruct (Rlt_dec (Hps.beta_l2 hps) 0) as [Hlt|Hge]; [reflexivity|].
  destruct (Req_dec_T (Hps.beta_l2 hps) 0) as [H0|Hne].
  - simpl.
    assert (Hnil : regularization_losses (fun _ : vec => None) tagged = []).
    { unfold regularization_losses.
      clear Hcase. induction tagged as [|w tagged IH];
        [reflexivity|simpl; exact IH]. }
    rewrite Hnil. reflexivity.
  - destruct Hcase as [Hle|Hnil]; [lra|]. subst tagged. reflexivity.
Qed.

(** ** More on the top-k selection *)

Lemma insert_desc_perm (x : nat * R) (l : list (nat * R)) :
  Permutation (insert_desc x l) (x :: l).
Proof.
  induction l as [|y l IH]; simpl; [apply Permutation_refl|].
  destruct (Rle_dec (snd y) (snd x)); [apply Permutation_refl|].
  apply (Permutation_trans (perm_skip y IH)). apply perm_swap.
Qed.

Lemma sort_desc_perm (row : vec) :
  Permutation (sort_desc row) (combine (seq 0 (length row)) row).
Proof.
  unfold sort_desc.
  induction (combine (seq 0 (length row)) row) as [|x l IH]; simpl;
    [apply Permutation_refl|].
  apply (Permutation_trans (insert_desc_perm x _)).
  apply perm_skip. assumption.
Qed.

Lemma in_combine_seq (row : vec) :
  forall (s i : nat) (v : R),
    In (i, v) (combine (seq s (length row)) row) <->
    (s <= i)%nat /\ (i - s < length row)%nat /\ v = nth (i - s) row 0.
Proof.
  induction row as [|x row IH]; intros s i v; simpl.
  - split; [tauto|]. intros [_ [H _]]. lia.
  - rewrite IH. split.
    + intros [Heq|[Hle [Hlt Hv]]].
      * injection Heq as <- <-. rewrite Nat.sub_diag. split; [lia|].
        split; [lia|reflexivity].
      * replace (i - s)%nat with (S (i - S s)) by lia.
        split; [lia|]. split; [lia|assumption].
    + intros [Hle [Hlt Hv]]. destruct (Nat.eq_dec s i) as [->|Hne].
      * left. rewrite Nat.sub_diag in Hv. subst v. reflexivity.
      * right. replace (i - s)%nat with (S (i - S s)) in Hlt, Hv by lia.
        split; [lia|]. split; [lia|assumption].
Qed.

Lemma map_fst_combine_seq (row : vec) (s : nat) :
  map fst (combine (seq s (length row)) row) = seq s (length row).
Proof.
  revert s. induction row as [|x row IH]; intros s; simpl; [reflexivity|].
  rewrite IH. reflexivity.
Qed.

Lemma firstn_nodup {A : Type} (k : nat) (l : list A) :
  NoDup l -> NoDup (firstn k l).
Proof.
  intros H. rewrite <- (firstn_skipn k l) in H.
  apply NoDup_app_remove_r in H. assumption.
Qed.

Lemma desc_transitive : forall x y z, desc x y -> desc y z -> desc x z.
Proof. unfold desc. intros x y z Hxy Hyz. lra. Qed.

Lemma sorted_app_le (l1 l2 : list (nat * R)) :
  Sorted desc (l1 ++ l2) ->
  forall x y, In x l1 -> In y l2 -> snd y <= snd x.
Proof.
  intros Hs x y Hx Hy.
  apply Sorted_StronglySorted in Hs; [|exact desc_transitive].
  induction l1 as [|a l1 IH]; [destruct Hx|].
  simpl in Hs. apply StronglySorted_inv in Hs. destruct Hs as [Hs Hall].
  destruct Hx as [->|Hx].
  - rewrite Forall_forall in Hall. apply (Hall y).
    apply in_or_app. right. assumption.
  - apply IH; assumption.
Qed.

(** The [k] entries [tf.nn.top_k] selects from a row: every id is a
    position of the row and comes with the entry at that position, the
    ids are pairwise distinct, and no entry that is left out exceeds a
    selected one. *)
Lemma top_k_row_spec (row : vec) (k : nat) :
  let sel := firstn k (sort_desc row) in
  (forall z, In z sel ->
     (fst z < length row)%nat /\ snd z = nth (fst z) row 0)
  /\ NoDup (map fst sel)
  /\ (forall i z, (i < length row)%nat -> ~ In i (map fst sel) ->
        In z sel -> nth i row 0 <= snd z).
Proof.
  intros sel. split; [|split].
  - intros [i v] Hz. apply firstn_in in Hz.
    apply (Permutation_in _ (sort_desc_perm row)) in Hz.
    apply (in_combine_seq row 0 i v) in Hz. simpl.
    rewrite Nat.sub_0_r in Hz. tauto.
  - subst sel. rewrite <- firstn_map. apply firstn_nodup.
    apply (Permutation_NoDup
             (Permutation_sym (Permutation_map fst (sort_desc_perm row)))).
    rewrite map_fst_combine_seq. apply seq_NoDup.
  - intros i z Hi Hnot Hz.
    assert (Hin : In (i, nth i row 0) (sort_desc row)).
    { apply (Permutation_in _ (Permutation_sym (sort_desc_perm row))).
      apply in_combine_seq. rewrite Nat.sub_0_r.
      split; [lia|]. split; [assumption|reflexivity]. }
    rewrite <- (firstn_skipn k (sort_desc row)) in Hin.
    apply in_app_or in Hin. destruct Hin as [Hin|Hin].
    + exfalso. apply Hnot. apply in_map_iff.
      exists (i, nth i row 0). split; [reflexivity|assumption].
    + apply (sorted_app_le (firstn k (sort_desc row))
                           (skipn k (sort_desc row))
               ltac:(rewrite firstn_skipn; apply sort_desc_sorted)
               z (i, nth i row 0) Hz Hin).
Qed.

Lemma add_decode_rows (bs : nat) (d : mat) (g : topk_graph) (b : nat) :
  add_decode bs [d] = Value g ->
  (b < length d)%nat ->
  nth b (_topk_ids g) []
  = map fst (firstn (bs * 2) (sort_desc (nth b d [])))
  /\ nth b (_topk_log_probs g) []
     = map tf_log (map snd (firstn (bs * 2) (sort_desc (nth b d [])))).
Proof.
  intros Hg Hb. unfold add_decode, top_k in Hg.
  destruct (forallb (fun row => Nat.leb (bs * 2) (length row)) d);
    simpl in Hg; [|discriminate].
  injection Hg as <-. simpl. split.
  - rewrite (nth_map_lt (A:=vec) (B:=list nat)
               (fun row => map fst (firstn (bs * 2) (sort_desc row))) [] [])
      by assumption.
    reflexivity.
  - rewrite (nth_map_lt (A:=vec) (B:=list xreal) (map tf_log) [] [])
      by (rewrite length_map; assumption).
    rewrite (nth_map_lt (A:=vec) (B:=vec)
               (fun row => map snd (firstn (bs * 2) (sort_desc row))) [] [])
      by assumption.
    reflexivity.
Qed.

Lemma decode_rows_length (bs : nat) (d : mat) (g : topk_graph) (b : nat) :
  add_decode bs [d] = Value g ->
  (b < length d)%nat ->
  length (firstn (bs * 2) (sort_desc (nth b d []))) = (bs * 2)%nat.
Proof.
  intros Hg Hb. unfold add_decode, top_k in Hg.
  destruct (forallb (fun row => Nat.leb (bs * 2) (length row)) d) eqn:Hall;
    simpl in Hg; [|discriminate].
  rewrite forallb_forall in Hall.
  specialize (Hall (nth b d []) (nth_In _ _ Hb)). apply Nat.leb_le in Hall.
  rewrite length_firstn, sort_desc_length. lia.
Qed.

(** In decode mode every id of [_topk_ids] is a position of its row of
    the distribution, the ids of a row are pairwise distinct, and the
    entry of [_topk_log_probs] at the same place is the logarithm of the
    probability at that position. *)
Theorem topk_ids_index_log_probs :
  forall (hps_batch_size : nat) (d : mat) (g : topk_graph) (b : nat),
    add_decode hps_batch_size [d] = Value g ->
    (b < length d)%nat ->
    NoDup (nth b (_topk_ids g) [])
    /\ forall j, (j < hps_batch_size * 2)%nat ->
         let id := nth j (nth b (_topk_ids g) []) O in
         (id < length (nth b d []))%nat
         /\ nth j (nth b (_topk_log_probs g) []) NaN = tf_log (get2 d b id).
Proof.
  intros bs d g b Hg Hb.
  destruct (add_decode_rows bs d g b Hg Hb) as [Hids Hlogs].
  destruct (top_k_row_spec (nth b d []) (bs * 2)) as [Hent [Hnd _]].
  assert (Hlen : length (firstn (bs * 2) (sort_desc (nth b d [])))
                 = (bs * 2)%nat).
  { apply (decode_rows_length bs d g b Hg Hb). }
  rewrite Hids, Hlogs. split; [assumption|].
  intros j Hj id. subst id.
  rewrite (nth_map_lt (A:=nat * R) (B:=nat) fst (O, 0) O) by lia.
  rewrite (nth_map_lt (A:=R) (B:=xreal) tf_log 0 NaN)
    by (rewrite length_map; lia).
  rewrite (nth_map_lt (A:=nat * R) (B:=R) snd (O, 0) 0) by lia.
  destruct (Hent (nth j (firstn (bs * 2) (sort_desc (nth b d []))) (O, 0)))
    as [Hlt Hval].
  { apply nth_In. lia. }
  split; [assumption|]. rewrite Hval. reflexivity.
Qed.

(** In decode mode no probability that is left out of the top-k
    exceeds a selected one: a position of a row whose id is not in
    [_topk_ids] holds an entry at most as large as the entry at any
    selected id. *)
Theorem topk_dominates_the_rest :
  forall (hps_batch_size : nat) (d : mat) (g : topk_graph) (b i j : nat),
    add_decode hps_batch_size [d] = Value g ->
    (b < length d)%nat ->
    (i < length (nth b d []))%nat ->
    ~ In i (nth b (_topk_ids g) []) ->
    (j < hps_batch_size * 2)%nat ->
    get2 d b i <= get2 d b (nth j (nth b (_topk_ids g) []) O).
Proof.
  intros bs d g b i j Hg Hb Hi Hnot Hj.
  destruct (add_decode_rows bs d g b Hg Hb) as [Hids _].
  destruct (top_k_row_spec (nth b d []) (bs * 2)) as [Hent [_ Hdom]].
  assert (Hlen : length (firstn (bs * 2) (sort_desc (nth b d [])))
                 = (bs * 2)%nat).
  { apply (decode_rows_length bs d g b Hg Hb). }
  rewrite Hids in *.
  rewrite (nth_map_lt (A:=nat * R) (B:=nat) fst (O, 0) O) by lia.
  set (z := nth j (firstn (bs * 2) (sort_desc (nth b d []))) (O, 0)).
  assert (Hz : In z (firstn (bs * 2) (sort_desc (nth b d []))))
    by (apply nth_In; lia).
  destruct (Hent z Hz) as [_ Hval]. unfold get2 at 2. rewrite <- Hval.
  apply (Hdom i z Hi Hnot Hz).
Qed.

(** ** More on the graph-convolution layer *)

Lemma fold_left_ext_in {A B : Type} (f g : A -> B -> A) (l : list B) :
  (forall a x, In x l -> f a x = g a x) ->
  forall a, fold_left f l a = fold_left g l a.
Proof.
  induction l as [|x l IH]; intros H a; [reflexivity|].
  simpl. rewrite (H a x) by (left; reflexivity).
  apply IH. intros a' x' Hx'. apply H. right. assumption.
Qed.

Lemma mapM_ext {A B : Type} (f g : A -> outcome B) (l : list A) :
  (forall a, In a l -> f a = g a) -> mapM f l = mapM g l.
Proof.
  induction l as [|a l IH]; intros H; [reflexivity|].
  simpl. rewrite (H a) by (left; reflexivity).
  rewrite IH by (intros a' Ha'; apply H; right; assumption). reflexivity.
Qed.

Lemma arcs_ext (adj adj' : list (list sparse)) (lbl batch_size : nat) :
  (forall i, adj_at adj i lbl = adj_at adj' i lbl) ->
  arcs adj lbl batch_size = arcs adj' lbl batch_size.
Proof.
  intros H. apply functional_extensionality. intros inp.
  unfold arcs. apply mapM_ext. intros i _. rewrite H. reflexivity.
Qed.

(** When the hyperparameter [use_label_information] is off, the layer
    reads the adjacency matrices of label 0 only: the arcs of every
    other label are left out of the convolution. *)
Theorem add_gcn_layer_single_label_reads_label_0 :
  forall (nn_dropout : list nat -> R -> t3 -> t3) (hps : hparams)
         (vars : String.string -> nat -> layer_vars) (gcn_in : t3)
         (in_dim gcn_dim batch_size max_nodes max_labels : nat)
         (adj_in adj_out adj_in' adj_out' : list (list sparse))
         (neighbour_count : mat)
         (num_layers : nat) (use_gating use_skip use_normalization : bool)
         (dropout : R) (name : String.string) (u : bool),
    Hps.use_label_information hps = false ->
    (forall i, adj_at adj_in i 0 = adj_at adj_in' i 0) ->
    (forall i, adj_at adj_out i 0 = adj_at adj_out' i 0) ->
    _add_gcn_layer nn_dropout hps vars gcn_in in_dim gcn_dim batch_size
      max_nodes max_labels adj_in adj_out neighbour_count num_layers
      use_gating use_skip use_normalization dropout name u
    = _add_gcn_layer nn_dropout hps vars gcn_in in_dim gcn_dim batch_size
        max_nodes max_labels adj_in' adj_out' neighbour_count num_layers
        use_gating use_skip use_normalization dropout name u.
Proof.
  intros nn_dropout hps vars gcn_in in_dim gcn_dim batch_size max_nodes
         max_labels adj_in adj_out adj_in' adj_out' neighbour_count
         num_layers use_gating use_skip use_normalization dropout name u
         Hflag Hin Hout.
  unfold _add_gcn_layer. cbv zeta. rewrite Hflag. simpl negb. cbv iota.
  f_equal. apply fold_left_ext_in. intros st layer _.
  destruct st as [out| |]; simpl bind; try reflexivity.
  f_equal. unfold gcn_layer_body. cbv zeta. cbn [seq fold_left].
  rewrite (arcs_ext adj_in adj_in' 0 batch_size Hin).
  rewrite (arcs_ext adj_out adj_out' 0 batch_size Hout).
  reflexivity.
Qed.

(** [_add_gcn_layer] raises when it is asked for no layer, and when
    gating is on while the number of labels looped over is 0: in the
    first case [gcn_out], in the second [b_gloop], is never bound. *)
Theorem add_gcn_layer_raises :
  forall (nn_dropout : list nat -> R -> t3 -> t3) (hps : hparams)
         (vars : String.string -> nat -> layer_vars) (gcn_in : t3)
         (in_dim gcn_dim batch_size max_nodes max_labels : nat)
         (adj_in adj_out : list (list sparse)) (neighbour_count : mat)
         (num_layers : nat) (use_gating use_skip use_normalization : bool)
         (dropout : R) (name : String.string) (u : bool),
    num_layers = O
    \/ (use_gating = true /\ Hps.use_label_information hps = true
        /\ max_labels = O) ->
    _add_gcn_layer nn_dropout hps vars gcn_in in_dim gcn_dim batch_size
      max_nodes max_labels adj_in adj_out neighbour_count num_layers
      use_gating use_skip use_normalization dropout name u
    = Raised.
Proof.
  intros nn_dropout hps vars gcn_in in_dim gcn_dim batch_size max_nodes
         max_labels adj_in adj_out neighbour_count num_layers use_gating
         use_skip use_normalization dropout name u [Hn|[Hg [Hflag Hl]]].
  - subst num_layers. reflexivity.
  - subst use_gating max_labels. unfold _add_gcn_layer. cbv zeta.
    rewrite Hflag. simpl negb. cbv iota.
    destruct num_layers as [|n]; [reflexivity|].
    cbn [seq fold_left].
    replace (bind (Value [gcn_in]) _) with (@Raised (list t3)).
    + rewrite fold_left_raised by reflexivity. reflexivity.
    + simpl bind. unfold gcn_layer_body. cbv zeta. reflexivity.
Qed.

Lemma fold_left_seq_S {A : Type} (f : A -> nat -> A) (n : nat) (a : A) :
  fold_left f (seq 0 (S n)) a = f (fold_left f (seq 0 n) a) n.
Proof. rewrite seq_S, fold_left_app. reflexivity. Qed.

Lemma t3map_relu_nonneg (t : t3) : Forall nonneg (t3map (Rmax 0) t).
Proof.
  unfold t3map, nonneg. apply Forall_forall. intros m Hm.
  apply in_map_iff in Hm. destruct Hm as [m' [<- _]].
  apply Forall_forall. intros row Hr.
  apply in_map_iff in Hr. destruct Hr as [row' [<- _]].
  apply Forall_forall. intros x Hx.
  apply in_map_iff in Hx. destruct Hx as [x' [<- _]].
  apply Rmax_l.
Qed.

(** Without the skip connection every entry of the result of
    [_add_gcn_layer] is non-negative: it is the ReLU of the last
    layer's sum. *)
Theorem add_gcn_layer_without_skip_nonneg :
  forall (nn_dropout : list nat -> R -> t3 -> t3) (hps : hparams)
         (vars : String.string -> nat -> layer_vars) (gcn_in : t3)
         (in_dim gcn_dim batch_size max_nodes max_labels : nat)
         (adj_in adj_out : list (list sparse)) (neighbour_count : mat)
         (num_layers : nat) (use_gating use_normalization : bool)
         (dropout : R) (name : String.string) (u : bool) (res : t3),
    _add_gcn_layer nn_dropout hps vars gcn_in in_dim gcn_dim batch_size
      max_nodes max_labels adj_in adj_out neighbour_count num_layers
      use_gating false use_normalization dropout name u
    = Value res ->
    Forall nonneg res.
Proof.
  intros nn_dropout hps vars gcn_in in_dim gcn_dim batch_size max_nodes
         max_labels adj_in adj_out neighbour_count num_layers use_gating
         use_normalization dropout name u res.
  unfold _add_gcn_layer. cbv zeta.
  destruct num_layers as [|n].
  - simpl. discriminate.
  - rewrite fold_left_seq_S.
    match goal with
    | |- context [fold_left ?F (seq 0 n) ?a] =>
        destruct (fold_left F (seq 0 n) a) as [out| |]
    end; simpl bind; try discriminate.
    match goal with
    | |- context [gcn_layer_body ?a ?b ?c ?d ?e ?f ?g ?h ?i ?j ?k ?l ?m ?o
                                 ?p ?q] =>
        destruct (gcn_layer_body a b c d e f g h i j k l m o p q)
          as [gcn_out| |] eqn:Hbody
    end; simpl bind; try discriminate.
    intros H. injection H as <-. rewrite last_last.
    unfold gcn_layer_body in Hbody. cbv zeta in Hbody.
    repeat match type of Hbody with
           | bind ?m _ = _ =>
               destruct m; simpl bind in Hbody; try discriminate Hbody
           end.
    injection Hbody as <-. apply t3map_relu_nonneg.
Qed.

(** ** The further properties at concrete inputs *)

Ltac forall_tac := repeat (apply Forall_cons || apply Forall_nil).

Lemma calc_final_dist_shapes_witness :
  has_shape (nth 0 (_calc_final_dist ex_self ex_vocab_dists ex_attn_dists) [])
            1 (2 + 1).
Proof.
  apply (proj2 (calc_final_dist_shapes ex_self ex_vocab_dists ex_attn_dists)
           O); try shape_tac.
Defined.

Lemma calc_final_dist_nonneg_witness :
  0 <= get2 (nth 0 (_calc_final_dist ex_self ex_vocab_dists ex_attn_dists) [])
            0 2.
Proof.
  apply (calc_final_dist_nonneg ex_self ex_vocab_dists ex_attn_dists
           3 0 0 2); try shape_tac.
  - unfold nonneg. simpl. forall_tac; lra.
  - unfold nonneg. simpl. forall_tac; lra.
  - simpl. lra.
Defined.

Lemma calc_final_dist_row_sum_witness :
  reduce_sum (nth 0 (nth 0 (_calc_final_dist ex_self ex_vocab_dists
                                              ex_attn_dists) []) [])
  = 1 / 2 * reduce_sum [1 / 2; 1 / 2]
    + (1 - 1 / 2) * reduce_sum [1 / 4; 1 / 2; 1 / 4].
Proof.
  apply (calc_final_dist_row_sum ex_self ex_vocab_dists ex_attn_dists 3 0 0);
    try shape_tac.
  simpl. forall_tac; lia.
Defined.

Lemma mask_and_avg_ignores_padding_witness :
  _mask_and_avg_float ex_values_float ex_padding_mask
  = _mask_and_avg_float ex_values_float_alt ex_padding_mask.
Proof.
  apply (mask_and_avg_ignores_padding ex_values_float ex_values_float_alt
           ex_padding_mask 1 2).
  - reflexivity.
  - reflexivity.
  - unfold ex_values_float. forall_tac; reflexivity.
  - unfold ex_values_float_alt. forall_tac; reflexivity.
  - shape_tac.
  - intros t b Ht Hb Hm.
    destruct b as [|b]; [|lia].
    destruct t as [|[|t]]; [reflexivity| |lia].
    exfalso. apply Hm. reflexivity.
  - intros t b Ht Hb Hm.
    destruct b as [|b]; [|lia].
    destruct t as [|[|t]]; [| |lia].
    + split; eexists; reflexivity.
    + split; eexists; reflexivity.
Defined.


Lemma pointer_gen_loss_zero_target_probability_witness :
  pointer_gen_loss 1 ex_final_dists_zero ex_target_batch ex_padding_mask
  = NotFinite.
Proof.
  apply (pointer_gen_loss_zero_target_probability 1 2 ex_final_dists_zero
           ex_target_batch ex_padding_mask 1 0).
  - reflexivity.
  - reflexivity.
  - lia.
  - lia.
  - unfold get2. simpl. lra.
Defined.

Lemma pointer_gen_loss_nonneg_witness :
  exists x,
    pointer_gen_loss 1 ex_final_dists ex_target_batch ex_padding_mask
    = Value x
    /\ 0 <= x.
Proof.
  apply (pointer_gen_loss_nonneg 1 2); try shape_tac.
  - unfold is_mask, ex_padding_mask. forall_tac; auto.
  - intros t b Ht Hb.
    destruct b as [|b]; [|lia].
    destruct t as [|[|t]]; [| |lia]; unfold get2; simpl; lra.
  - intros b Hb. destruct b as [|b]; [|lia].
    unfold reduce_sum. simpl. lra.
Defined.

Lemma coverage_loss_bounds_witness :
  exists x,
    _coverage_loss ex_attn_steps ex_padding_mask = Value x /\ 0 <= x <= 1.
Proof.
  apply (coverage_loss_bounds 1 2 2); try shape_tac.
  - unfold ex_attn_steps. forall_tac; shape_tac.
  - unfold is_mask, ex_padding_mask. forall_tac; auto.
  - intros b Hb. destruct b as [|b]; [|lia].
    unfold reduce_sum. simpl. lra.
  - unfold ex_attn_steps, nonneg. forall_tac; lra.
  - intros t b Ht Hb.
    destruct b as [|b]; [|lia].
    destruct t as [|[|t]]; [| |lia]; unfold reduce_sum; simpl; lra.
Defined.

Lemma coverage_loss_zero_without_repetition_witness :
  _coverage_loss ex_attn_disjoint ex_padding_mask = Value 0.
Proof.
  apply (coverage_loss_zero_without_repetition 1 2 2); try shape_tac.
  - unfold ex_attn_disjoint. forall_tac; shape_tac.
  - intros b Hb. destruct b as [|b]; [|lia].
    unfold reduce_sum. simpl. lra.
  - unfold ex_attn_disjoint, nonneg. forall_tac; lra.
  - intros s t b i Hst Ht Hb Hi.
    destruct b as [|b]; [|lia].
    destruct t as [|[|t]]; [lia| |lia].
    destruct s as [|s]; [|lia].
    destruct i as [|[|i]]; [right|left|lia]; reflexivity.
Defined.

Lemma add_loss_regularizer_raises_witness :
  add_loss (ex_hps true false) [] (Value 0) [] [] = Raised.
Proof.
  apply add_loss_regularizer_raises.
  - reflexivity.
  - right. reflexivity.
Defined.

(** The decode block on [ex_attn_dists], a single distribution. *)
Lemma ex_decode_value :
  add_decode 1 ex_attn_dists
  = Value {| _topk_ids := [[1; 0]]%nat;
             _topk_log_probs := [[tf_log (1 / 2); tf_log (1 / 4)]] |}.
Proof.
  unfold add_decode, top_k, ex_attn_dists, sort_desc. simpl.
  repeat match goal with
         | |- context [Rle_dec ?a ?b] =>
             destruct (Rle_dec a b); try lra; simpl
         end.
  reflexivity.
Qed.

Lemma topk_ids_index_log_probs_witness :
  NoDup [1; 0]%nat
  /\ forall j, (j < 1 * 2)%nat ->
       let id := nth j [1; 0]%nat O in
       (id < 3)%nat
       /\ nth j [tf_log (1 / 2); tf_log (1 / 4)] NaN
          = tf_log (get2 [[1 / 4; 1 / 2; 1 / 4]] 0 id).
Proof.
  apply (topk_ids_index_log_probs 1 [[1 / 4; 1 / 2; 1 / 4]]
           {| _topk_ids := [[1; 0]]%nat;
              _topk_log_probs := [[tf_log (1 / 2); tf_log (1 / 4)]] |} 0).
  - exact ex_decode_value.
  - simpl. lia.
Defined.

Lemma topk_dominates_the_rest_witness :
  get2 [[1 / 4; 1 / 2; 1 / 4]] 0 2
  <= get2 [[1 / 4; 1 / 2; 1 / 4]] 0 (nth 0 [1; 0]%nat O).
Proof.
  apply (topk_dominates_the_rest 1 [[1 / 4; 1 / 2; 1 / 4]]
           {| _topk_ids := [[1; 0]]%nat;
              _topk_log_probs := [[tf_log (1 / 2); tf_log (1 / 4)]] |}
           0 2 0).
  - exact ex_decode_value.
  - simpl. lia.
  - simpl. lia.
  - simpl. intros [H|[H|[]]]; discriminate.
  - lia.
Defined.

(** Without gating, the layer on the one-node graph with the arc of a
    second label returns 1 when it reads one label. *)
Lemma ex_gcn_two_labels_value :
  _add_gcn_layer ex_dropout ex_hps_unlabelled (fun _ _ => ex_layer_vars)
    [[[1]]] 1 1 1 1 2 ex_adj_in_two_labels ex_adj_out [[1]] 1
    false false false 1 String.EmptyString false
  = Value [[[1]]].
Proof.
  unfold _add_gcn_layer, gcn_layer_body, dropout_at.
  destruct (Req_dec_T 1 1) as [_|Hne]; [|contradiction].
  simpl. unfold vadd, vscale. simpl.
  rewrite !Rmult_0_r, !Rplus_0_l, !Rmult_1_l, !Rplus_0_r.
  rewrite Rmax_right by lra. reflexivity.
Qed.

Lemma add_gcn_layer_single_label_reads_label_0_witness :
  _add_gcn_layer ex_dropout ex_hps_unlabelled (fun _ _ => ex_layer_vars)
    [[[1]]] 1 1 1 1 2 ex_adj_in ex_adj_out [[1]] 1
    false false false 1 String.EmptyString false
  = Value [[[1]]].
Proof.
  rewrite <- ex_gcn_two_labels_value.
  apply add_gcn_layer_single_label_reads_label_0.
  - reflexivity.
  - intros i. destruct i as [|[|i]]; reflexivity.
  - intros i. reflexivity.
Defined.

Lemma add_gcn_layer_raises_witness :
  _add_gcn_layer ex_dropout (ex_hps false false) (fun _ _ => ex_layer_vars)
    [[[1]]] 1 1 1 1 0 ex_adj_in ex_adj_out [[1]] 1
    true false false 1 String.EmptyString false
  = Raised.
Proof.
  apply add_gcn_layer_raises.
  right. repeat split; reflexivity.
Defined.

(** Without gating, the layer on the one-node graph returns 1. *)
Lemma ex_gcn_ungated_value (nn_dropout : list nat -> R -> t3 -> t3) :
  ex_gcn_ungated nn_dropout = Value [[[1]]].
Proof.
  unfold ex_gcn_ungated, _add_gcn_layer, gcn_layer_body, dropout_at.
  destruct (Req_dec_T 1 1) as [_|Hne]; [|contradiction].
  simpl. unfold vadd, vscale. simpl.
  rewrite !Rmult_0_r, !Rplus_0_l, !Rmult_1_l, !Rplus_0_r.
  rewrite Rmax_right by lra. reflexivity.
Qed.

Lemma add_gcn_layer_without_skip_nonneg_witness :
  Forall nonneg [[[1]]].
Proof.
  apply (add_gcn_layer_without_skip_nonneg ex_dropout (ex_hps false false)
           (fun _ _ => ex_layer_vars)
           [[[1]]] 1 1 1 1 1 ex_adj_in ex_adj_out [[1]] 1
           false false 1 String.EmptyString false).
  exact (ex_gcn_ungated_value ex_dropout).
Defined.

Lemma regularization_term_witness :
  exists r,
    l2_regularizer 1 = Value r
    /\ apply_regularization r
         (map (fun p => [p]) (regularization_losses r [[1]]))
       = Value (reduce_sum
                  (map (fun w => 1 * ((1 * l2_loss w) * (1 * l2_loss w) / 2))
                       [[1]])).
Proof.
  apply regularization_term.
  - lra.
  - discriminate.
Defined.

(** The loss block with coverage on and regularisation off. *)
Lemma ex_add_loss_value :
  add_loss (ex_hps false true) [] (Value 0) ex_attn_steps ex_padding_mask
  = Value {| self_loss := 0;
             self_coverage_loss :=
               Some (masked_average 1 2 ex_padding_mask
                       (covloss_term 2 ex_attn_steps));
             self_total_loss :=
               Some (0 + 1 * masked_average 1 2 ex_padding_mask
                                 (covloss_term 2 ex_attn_steps)) |}.
Proof.
  unfold add_loss, init_regularizer, l2_regularizer, ex_hps.
  cbn [Hps.use_regularizer Hps.beta_l2 Hps.coverage Hps.cov_loss_wt].
  destruct (Rlt_dec 0 0) as [Hlt|_]; [lra|].
  destruct (Req_dec_T 0 0) as [_|Hne]; [|contradiction].
  cbn [bind].
  rewrite (coverage_loss_value 1 2 2); try shape_tac.
  - reflexivity.
  - unfold ex_attn_steps. forall_tac; shape_tac.
  - intros b Hb. destruct b as [|b]; [|lia].
    unfold reduce_sum. simpl. lra.
Qed.

Lemma loss_to_minimize_composition_witness :
  exists cl,
    _coverage_loss ex_attn_steps ex_padding_mask = Value cl
    /\ loss_to_minimize (ex_hps false true)
         {| self_loss := 0;
            self_coverage_loss :=
              Some (masked_average 1 2 ex_padding_mask
                      (covloss_term 2 ex_attn_steps));
            self_total_loss :=
              Some (0 + 1 * masked_average 1 2 ex_padding_mask
                                (covloss_term 2 ex_attn_steps)) |}
       = Value (0 + 1 * cl).
Proof.
  exact (loss_to_minimize_composition (ex_hps false true) [] (Value 0)
           ex_attn_steps ex_padding_mask _ ex_add_loss_value).
Defined.

(** ** The wiring of the encoders *)

Ltac flag_cases f :=
  destruct f as [nle st wg par cwe cgl qe nlq qg sc ed hd wd qd];
  unfold Topology.add_seq2seq_wiring, Topology.add_gcn_seq2seq_wiring,
    Topology.encoder_part, Topology.word_part, Topology.query_part,
    Topology.mix, Topology.broadcastable;
  cbn [Topology.no_lstm_encoder Topology.stacked_lstm Topology.word_gcn
       Topology.use_gcn_lstm_parallel Topology.concat_with_word_embedding
       Topology.concat_gcn_lstm Topology.query_encoder
       Topology.no_lstm_query_encoder Topology.query_gcn
       Topology.simple_concat Topology.emb_dim Topology.hidden_dim
       Topology.word_gcn_dim Topology.query_gcn_dim].

Ltac dims :=
  cbn [andb orb negb fst snd bind Topology.last_dim Topology.well_shaped
       Topology._enc_states Topology._query_states
       Topology.emb_dim Topology.hidden_dim Topology.word_gcn_dim
       Topology.query_gcn_dim Topology.no_lstm_encoder Topology.word_gcn
       Topology.use_gcn_lstm_parallel Topology.concat_with_word_embedding
       Topology.concat_gcn_lstm Topology.query_gcn
       Topology.no_lstm_query_encoder Topology.query_encoder
       Topology.simple_concat] in *.

Ltac eqb_cases :=
  repeat (dims;
          match goal with
          | |- context [Nat.eqb ?a ?b] =>
              destruct (Nat.eqb_spec a b); try lia
          | H : context [Nat.eqb ?a ?b] |- _ =>
              destruct (Nat.eqb_spec a b); try lia
          end);
  dims.

(** With the calls of [_add_encoder] and [_add_gcn_layer] taken as
    returning, building the encoders raises in exactly three families
    of configurations: a word GCN mixed with the outputs of an encoder
    that was not built ([NameError], line 644); a query GCN mixed with
    the query encoder's outputs, either through the weights
    [q_gcn_word_w], [q_lstm_word_w] that nothing defines (line 684)
    or, with [simple_concat], when the query encoder was not built
    (line 682); and, without a recurrent encoder, a word GCN over the
    mix of the embeddings projected to width [2 * hidden_dim] with the
    embeddings themselves, of another width that is not 1
    ([ValueError], line 615). *)
Theorem add_seq2seq_wiring_raises_iff (f : Topology.flags) :
  Topology.add_seq2seq_wiring f = Raised <->
  (Topology.word_gcn f = true /\ Topology.concat_gcn_lstm f = true /\
   Topology.no_lstm_encoder f = true) \/
  (Topology.query_encoder f = true /\ Topology.query_gcn f = true /\
   Topology.concat_gcn_lstm f = true /\
   (Topology.simple_concat f = false \/
    Topology.no_lstm_query_encoder f = true)) \/
  (Topology.word_gcn f = true /\ Topology.no_lstm_encoder f = true /\
   Topology.use_gcn_lstm_parallel f = false /\
   Topology.concat_with_word_embedding f = true /\
   Topology.emb_dim f <> (Topology.hidden_dim f * 2)%nat /\
   Topology.emb_dim f <> 1%nat).
Proof.
  flag_cases f.
  destruct nle, st, wg, par, cwe, cgl, qe, nlq, qg, sc; eqb_cases;
    (split;
     [ intro H; try discriminate H; clear H;
       first [ left; repeat split; reflexivity
             | right; left; repeat split;
               first [left; reflexivity | right; reflexivity]
             | right; right; repeat split;
               first [reflexivity | assumption | lia] ]
     | intros [(H1 & H2 & H3)|[(H1 & H2 & H3 & [H4|H4])
                              |(H1 & H2 & H3 & H4 & H5 & H6)]];
       first [discriminate | reflexivity | contradiction | lia] ]).
Qed.

Lemma add_seq2seq_wiring_raises_iff_witness :
  Topology.add_seq2seq_wiring Topology.ex_flags_mismatch = Raised.
Proof.
  apply (proj2 (add_seq2seq_wiring_raises_iff Topology.ex_flags_mismatch)).
  right. right. simpl. repeat split; try reflexivity; lia.
Defined.

(** Every wiring that [_add_seq2seq] builds is well shaped: each
    [in_dim] passed to [_add_gcn_layer] is the last dimension of the
    tensor passed as [gcn_in], each adjustment matrix has as many rows
    as its input is wide, and the two tensors of each mix have last
    axes that can be broadcast. *)
Theorem add_seq2seq_wiring_well_shaped (f : Topology.flags)
    (w : Topology.wiring) :
  Topology.add_seq2seq_wiring f = Value w ->
  Topology.well_shaped f (Topology._enc_states w) /\
  (forall q, Topology._query_states w = Some q ->
             Topology.well_shaped f q).
Proof.
  flag_cases f.
  destruct nle, st, wg, par, cwe, cgl, qe, nlq, qg, sc; eqb_cases;
    intro H; try discriminate H; injection H as <-;
    dims; unfold Topology.broadcastable; eqb_cases;
    (split;
     [ repeat split; first [reflexivity | assumption | lia]
     | intros q Hq; first [ discriminate Hq | injection Hq as <- ];
       dims; repeat split; first [reflexivity | lia] ]).
Qed.

Lemma add_seq2seq_wiring_well_shaped_witness :
  exists w, Topology.add_seq2seq_wiring Topology.ex_flags = Value w /\
            Topology.well_shaped Topology.ex_flags (Topology._enc_states w).
Proof.
  eexists. split; [reflexivity|].
  exact (proj1 (add_seq2seq_wiring_well_shaped Topology.ex_flags _ eq_refl)).
Defined.

(** The width of the attention memories the decoder receives: the
    encoder memory has the recurrent encoder's [2 * hidden_dim]
    whenever the GCN is mixed with it, the GCN's own width when the
    GCN replaces it, and the embedding width only without both; the
    query memory concatenated with [simple_concat] has
    [2 * hidden_dim + query_gcn_dim]. *)
Theorem add_seq2seq_wiring_last_dims (f : Topology.flags)
    (w : Topology.wiring) :
  Topology.add_seq2seq_wiring f = Value w ->
  Topology.last_dim f (Topology._enc_states w) =
    (if Topology.word_gcn f
     then if Topology.concat_gcn_lstm f
          then Topology.hidden_dim f * 2
          else Topology.word_gcn_dim f
     else if Topology.no_lstm_encoder f
          then Topology.emb_dim f
          else Topology.hidden_dim f * 2)%nat /\
  (forall q, Topology._query_states w = Some q ->
     Topology.last_dim f q =
       (if Topology.query_gcn f
        then if Topology.concat_gcn_lstm f
             then Topology.hidden_dim f * 2 + Topology.query_gcn_dim f
             else Topology.query_gcn_dim f
        else if Topology.no_lstm_query_encoder f
             then Topology.emb_dim f
             else Topology.hidden_dim f * 2)%nat).
Proof.
  flag_cases f.
  destruct nle, st, wg, par, cwe, cgl, qe, nlq, qg, sc; eqb_cases;
    intro H; try discriminate H; injection H as <-; eqb_cases;
    (split;
     [ first [reflexivity | lia]
     | intros q Hq; first [ discriminate Hq | injection Hq as <- ];
       dims; first [reflexivity | lia] ]).
Qed.

Lemma add_seq2seq_wiring_last_dims_witness :
  exists w, Topology.add_seq2seq_wiring Topology.ex_flags = Value w /\
            Topology.last_dim Topology.ex_flags (Topology._enc_states w)
            = 16%nat.
Proof.
  eexists. split; [reflexivity|].
  exact (proj1 (add_seq2seq_wiring_last_dims Topology.ex_flags _ eq_refl)).
Defined.

(** With the GCN before the recurrent encoder, and the calls of
    [_add_encoder] and [_add_gcn_layer] taken as returning, the wiring
    raises in exactly two families of configurations: without
    [word_gcn], where the call of line 807 reads placeholders that
    were never created ([AttributeError]), and when a query GCN is to
    be mixed with the query encoder without [simple_concat]
    ([NameError], line 871). *)
Theorem add_gcn_seq2seq_wiring_raises_iff (f : Topology.flags) :
  Topology.add_gcn_seq2seq_wiring f = Raised <->
  Topology.word_gcn f = false \/
  (Topology.query_encoder f = true /\ Topology.query_gcn f = true /\
   Topology.concat_gcn_lstm f = true /\ Topology.simple_concat f = false).
Proof.
  flag_cases f.
  destruct wg, cwe, cgl, qe, qg, sc; dims;
    (split;
     [ intro H; try discriminate H;
       first [ left; reflexivity | right; repeat split; reflexivity ]
     | intros [H|(H1 & H2 & H3 & H4)];
       first [discriminate | reflexivity] ]).
Qed.

Lemma add_gcn_seq2seq_wiring_raises_iff_witness :
  Topology.add_gcn_seq2seq_wiring Topology.ex_flags_raising = Raised.
Proof.
  apply (proj2 (add_gcn_seq2seq_wiring_raises_iff Topology.ex_flags_raising)).
  left. reflexivity.
Defined.

(** With the GCN before the recurrent encoder, every configuration
    whose wiring is built is well shaped: the GCNs read the
    embeddings with [in_dim = emb_dim], and the matrices [w_word] and
    [w_gcn_lstm] have as many rows as the concatenations they are
    applied to are wide. *)
Theorem add_gcn_seq2seq_wiring_well_shaped (f : Topology.flags)
    (w : Topology.wiring) :
  Topology.add_gcn_seq2seq_wiring f = Value w ->
  Topology.well_shaped f (Topology._enc_states w) /\
  (forall q, Topology._query_states w = Some q ->
             Topology.well_shaped f q).
Proof.
  flag_cases f.
  destruct wg, cwe, cgl, qe, qg, sc; dims;
    intro H; try discriminate H; injection H as <-; dims;
    (split;
     [ repeat split; lia
     | intros q Hq; first [ discriminate Hq | injection Hq as <- ];
       dims; repeat split; lia ]).
Qed.

Lemma add_gcn_seq2seq_wiring_well_shaped_witness :
  exists w, Topology.add_gcn_seq2seq_wiring Topology.ex_flags = Value w /\
            Topology.well_shaped Topology.ex_flags (Topology._enc_states w).
Proof.
  eexists. split; [reflexivity|].
  exact (proj1 (add_gcn_seq2seq_wiring_well_shaped
                  Topology.ex_flags _ eq_refl)).
Defined.

(** ** Decoder states in beam search *)

Lemma mapM_Forall2 {A B : Type} (f : A -> outcome B) (l : list A)
    (bs : list B) :
  mapM f l = Value bs <-> Forall2 (fun a b => f a = Value b) l bs.
Proof.
  revert bs. induction l as [|a l IH]; intros bs; simpl.
  - split.
    + intros H. injection H as <-. constructor.
    + intros H. inversion H. reflexivity.
  - destruct (f a) as [b| |] eqn:Hfa; simpl.
    + destruct (mapM f l) as [bs'| |] eqn:Hl; simpl.
      * split.
        -- intros H. injection H as <-. constructor; [assumption|].
           apply IH. reflexivity.
        -- intros H. inversion H as [|a0 b0 l0 bs0 Hab Hrest]; subst.
           rewrite Hfa in Hab. injection Hab as <-.
           apply IH in Hrest. injection Hrest as <-. reflexivity.
      * split; [discriminate|].
        intros H. inversion H as [|a0 b0 l0 bs0 Hab Hrest]; subst.
        apply IH in Hrest. discriminate.
      * split; [discriminate|].
        intros H. inversion H as [|a0 b0 l0 bs0 Hab Hrest]; subst.
        apply IH in Hrest. discriminate.
    + split; [discriminate|].
      intros H. inversion H as [|a0 b0 l0 bs0 Hab Hrest]; subst.
      rewrite Hfa in Hab. discriminate.
    + split; [discriminate|].
      intros H. inversion H as [|a0 b0 l0 bs0 Hab Hrest]; subst.
      rewrite Hfa in Hab. discriminate.
Qed.

Lemma mapM_raised {A B : Type} (f : A -> outcome B) (l : list A) :
  (forall a, In a l -> f a <> NotFinite) ->
  (exists a, In a l /\ f a = Raised) ->
  mapM f l = Raised.
Proof.
  induction l as [|a l IH]; intros Hnf [a0 [Hin Hr]]; [destruct Hin|].
  simpl. destruct (f a) as [b| |] eqn:Hfa; simpl.
  - rewrite IH; [reflexivity| |].
    + intros a' Ha'. apply Hnf. right. assumption.
    + destruct Hin as [Heq|Hin].
      * subst a0. rewrite Hfa in Hr. discriminate.
      * exists a0. split; assumption.
  - exfalso. apply (Hnf a); [left; reflexivity|assumption].
  - reflexivity.
Qed.

Lemma mapM_map {A B C : Type} (f : B -> outcome C) (g : A -> B)
    (l : list A) :
  mapM f (map g l) = mapM (fun a => f (g a)) l.
Proof.
  induction l as [|a l IH]; [reflexivity|]. simpl. rewrite IH. reflexivity.
Qed.

Lemma np_concatenate_value (rows : list vec) (r : mat) :
  Beam.np_concatenate rows = Value r <->
  r = rows /\ rows <> [] /\ exists n, Forall (fun x => length x = n) rows.
Proof.
  unfold Beam.np_concatenate. destruct rows as [|r0 rest].
  - split; [discriminate|]. intros (_ & H & _). exfalso. apply H. reflexivity.
  - destruct (forallb (fun x => Nat.eqb (length x) (length r0)) rest) eqn:Hf.
    + split.
      * intros H. injection H as <-. split; [reflexivity|].
        split; [discriminate|]. exists (length r0).
        constructor; [reflexivity|].
        apply Forall_forall. intros x Hx.
        rewrite forallb_forall in Hf. apply Nat.eqb_eq. apply Hf. exact Hx.
      * intros (-> & _ & _). reflexivity.
    + split; [discriminate|].
      intros (_ & _ & n & Hn). exfalso.
      inversion Hn as [|x l Hx Hrest]; subst.
      assert (Ht : forallb (fun x => Nat.eqb (length x) (length r0)) rest
                   = true).
      { apply forallb_forall. intros x Hx.
        rewrite Forall_forall in Hrest. apply Nat.eqb_eq.
        apply Hrest. exact Hx. }
      rewrite Ht in Hf. discriminate.
Qed.

(** What a successful stacking consists of. *)
Lemma stack_states_inv (states : list Beam.beam_state)
    (s : Beam.batch_state) :
  Beam.stack_states states = Value s ->
  exists cells hiddens,
    s = Beam.BatchLSTMStateTuple cells hiddens /\
    Forall2 (fun st c => Beam.state_c st = Value c) states cells /\
    Forall2 (fun st h => Beam.state_h st = Value h) states hiddens /\
    cells <> [] /\
    (exists n, Forall (fun x => length x = n) cells) /\
    (exists m, Forall (fun x => length x = m) hiddens).
Proof.
  unfold Beam.stack_states. intros H.
  destruct (mapM Beam.state_c states) as [cells| |] eqn:Hc;
    simpl in H; try discriminate H.
  destruct (mapM Beam.state_h states) as [hiddens| |] eqn:Hh;
    simpl in H; try discriminate H.
  destruct (Beam.np_concatenate cells) as [new_c| |] eqn:Hnc;
    simpl in H; try discriminate H.
  destruct (Beam.np_concatenate hiddens) as [new_h| |] eqn:Hnh;
    simpl in H; try discriminate H.
  injection H as <-.
  apply np_concatenate_value in Hnc. destruct Hnc as (-> & Hne & Hn).
  apply np_concatenate_value in Hnh. destruct Hnh as (-> & _ & Hm).
  exists cells, hiddens. repeat split; try assumption.
  - apply mapM_Forall2. exact Hc.
  - apply mapM_Forall2. exact Hh.
Qed.

Lemma split_rows (states : list Beam.beam_state) (cells hiddens : mat) :
  Forall2 (fun st c => Beam.state_c st = Value c) states cells ->
  Forall2 (fun st h => Beam.state_h st = Value h) states hiddens ->
  Beam.split_states (length states)
                    (Beam.BatchLSTMStateTuple cells hiddens)
  = Value states.
Proof.
  unfold Beam.split_states. intros Hc. revert hiddens.
  induction Hc as [|st c states cells Hst Hc IH]; intros hiddens Hh.
  - reflexivity.
  - inversion Hh as [|st' h states' hiddens' Hsth Hh']; subst.
    cbn [length seq mapM]. unfold Beam.row_at at 1 2. cbn [nth_error bind].
    rewrite <- seq_shift, mapM_map.
    rewrite (mapM_ext _
      (fun i => ci <- Beam.row_at i cells ;;
                hi <- Beam.row_at i hiddens' ;;
                Value (Beam.LSTMStateTuple ci hi)))
      by (intros i _; reflexivity).
    rewrite (IH hiddens' Hh'). cbn [bind].
    destruct st as [c0 h0|a|a]; simpl in Hst, Hsth; try discriminate.
    injection Hst as <-. injection Hsth as <-. reflexivity.
Qed.

(** The states that [decode_onestep] stacks into one batch state
    are, in order, the states it gets back by splitting that batch
    state into [beam_size] rows. *)
Theorem decode_onestep_states_round_trip (states : list Beam.beam_state)
    (s : Beam.batch_state) :
  Beam.stack_states states = Value s ->
  Beam.split_states (length states) s = Value states.
Proof.
  intros H. apply stack_states_inv in H.
  destruct H as (cells & hiddens & -> & Hc & Hh & _).
  apply split_rows; assumption.
Qed.

Lemma decode_onestep_states_round_trip_witness :
  exists s, Beam.stack_states Beam.ex_beam = Value s /\
            Beam.split_states 3 s = Value Beam.ex_beam.
Proof.
  eexists. split; [reflexivity|].
  exact (decode_onestep_states_round_trip Beam.ex_beam _ eq_refl).
Defined.

Lemma Forall2_state_c (n m : nat) (states : list Beam.beam_state) :
  Forall (Beam.lstm_state_of n m) states ->
  exists cells hiddens,
    mapM Beam.state_c states = Value cells /\
    mapM Beam.state_h states = Value hiddens /\
    length cells = length states /\
    length hiddens = length states /\
    Forall (fun x => length x = n) cells /\
    Forall (fun x => length x = m) hiddens.
Proof.
  induction 1 as [|st states Hst Hrest IH].
  - exists [], []. repeat split; constructor.
  - destruct IH as (cells & hiddens & Hc & Hh & Hlc & Hlh & Hn & Hm).
    destruct st as [c h|a|a]; simpl in Hst; try contradiction.
    destruct Hst as [Hcn Hhm].
    exists (c :: cells), (h :: hiddens). simpl.
    rewrite Hc, Hh. simpl.
    repeat split; try (f_equal; assumption); constructor; assumption.
Qed.

(** [decode_onestep] can stack the states of a beam exactly when
    the beam is not empty and all its states are [LSTMStateTuple]s of
    the same dimensions; otherwise it raises. *)
Theorem stack_states_value_iff (states : list Beam.beam_state) :
  (exists s, Beam.stack_states states = Value s) <->
  states <> [] /\ exists n m, Forall (Beam.lstm_state_of n m) states.
Proof.
  split.
  - intros [s H]. apply stack_states_inv in H.
    destruct H as (cells & hiddens & _ & Hc & Hh & Hne & [n Hn] & [m Hm]).
    split.
    + intros ->. inversion Hc. subst. apply Hne. reflexivity.
    + exists n, m. clear Hne. revert hiddens Hh Hm Hn.
      induction Hc as [|st c states cells Hst Hc IH]; intros hiddens Hh Hm Hn.
      * constructor.
      * inversion Hh as [|st' h states' hiddens' Hsth Hh']; subst.
        inversion Hn; subst. inversion Hm; subst.
        constructor.
        -- destruct st as [c0 h0|a|a]; simpl in Hst, Hsth;
             try discriminate.
           injection Hst as <-. injection Hsth as <-.
           simpl. split; reflexivity.
        -- apply (IH hiddens'); assumption.
  - intros [Hne (n & m & HF)].
    destruct (Forall2_state_c n m states HF)
      as (cells & hiddens & Hc & Hh & Hlc & Hlh & Hn & Hm).
    exists (Beam.BatchLSTMStateTuple cells hiddens).
    unfold Beam.stack_states. rewrite Hc, Hh. cbn [bind].
    assert (Hcne : cells <> []).
    { intros ->. destruct states; [apply Hne; reflexivity|discriminate]. }
    assert (Hhne : hiddens <> []).
    { intros ->. destruct states; [apply Hne; reflexivity|discriminate]. }
    rewrite (proj2 (np_concatenate_value cells cells))
      by (split; [reflexivity|split; [assumption|exists n; assumption]]).
    cbn [bind].
    rewrite (proj2 (np_concatenate_value hiddens hiddens))
      by (split; [reflexivity|split; [assumption|exists m; assumption]]).
    reflexivity.
Qed.

Lemma stack_states_value_iff_witness :
  exists s, Beam.stack_states Beam.ex_beam = Value s.
Proof.
  apply (proj2 (stack_states_value_iff Beam.ex_beam)).
  split; [discriminate|]. exists 2%nat, 2%nat.
  repeat constructor.
Defined.

Lemma state_c_not_finite (st : Beam.beam_state) :
  Beam.state_c st <> NotFinite.
Proof. destruct st; discriminate. Qed.

(** Without [use_lstm], the state that [run_encoder] returns is a
    bare array, and [decode_onestep] raises on every beam that
    contains it: beam search cannot take a step. *)
Theorem decode_onestep_rejects_state_without_lstm
    (dec_in_state : Beam.batch_state) (st : Beam.beam_state)
    (states : list Beam.beam_state) :
  Beam.run_encoder_state false dec_in_state = Value st ->
  In st states ->
  Beam.stack_states states = Raised.
Proof.
  intros Hrun Hin. unfold Beam.stack_states.
  rewrite (mapM_raised Beam.state_c states); [reflexivity| |].
  - intros a _. apply state_c_not_finite.
  - exists st. split; [assumption|].
    unfold Beam.run_encoder_state in Hrun.
    destruct dec_in_state as [c h|a].
    + injection Hrun as <-. reflexivity.
    + destruct (Beam.row_at 0 a) as [a0| |]; simpl in Hrun;
        try discriminate Hrun.
      injection Hrun as <-. reflexivity.
Qed.

Lemma decode_onestep_rejects_state_without_lstm_witness :
  Beam.stack_states [Beam.array1 [5; 6]; Beam.array1 [5; 6]] = Raised.
Proof.
  apply (decode_onestep_rejects_state_without_lstm
           (Beam.get_initial_cell_state (Beam.size_int 2) Beam.ex_var 2)
           (Beam.array1 [5; 6])).
  - reflexivity.
  - left. reflexivity.
Defined.

Lemma mapM_repeat {A B : Type} (f : A -> outcome B) (a : A) (b : B)
    (k : nat) :
  f a = Value b -> mapM f (repeat a k) = Value (repeat b k).
Proof.
  intros H. induction k as [|k IH]; [reflexivity|].
  simpl. rewrite H, IH. reflexivity.
Qed.

Lemma np_concatenate_repeat (r : vec) (k : nat) :
  (0 < k)%nat -> Beam.np_concatenate (repeat r k) = Value (repeat r k).
Proof.
  intros Hk. apply np_concatenate_value. split; [reflexivity|]. split.
  - destruct k; [lia|discriminate].
  - exists (length r). apply Forall_forall. intros x Hx.
    apply repeat_spec in Hx. subst. reflexivity.
Qed.

(** The initial decoder state that [get_initial_cell_state] builds
    for an LSTM cell has the same row for every example, so the top
    row that [run_encoder] keeps, repeated over the beam, stacks
    back to the whole state in [decode_onestep]. *)
Theorem initial_cell_state_survives_beam (c h : nat)
    (var : option nat -> vec) (batch_size : nat) :
  (0 < batch_size)%nat ->
  exists st,
    Beam.run_encoder_state true
      (Beam.get_initial_cell_state (Beam.size_tuple c h) var batch_size)
    = Value st /\
    Beam.stack_states (repeat st batch_size)
    = Value (Beam.get_initial_cell_state (Beam.size_tuple c h) var
                                         batch_size).
Proof.
  intros Hk.
  exists (Beam.LSTMStateTuple (var (Some 0%nat)) (var (Some 1%nat))).
  unfold Beam.get_initial_cell_state, Beam.variable_state_initializer.
  split.
  - destruct batch_size as [|k]; [lia|]. reflexivity.
  - unfold Beam.stack_states.
    rewrite (mapM_repeat Beam.state_c _ (var (Some 0%nat))) by reflexivity.
    cbn [bind].
    rewrite (mapM_repeat Beam.state_h _ (var (Some 1%nat))) by reflexivity.
    cbn [bind].
    rewrite !np_concatenate_repeat by assumption. reflexivity.
Qed.

Lemma initial_cell_state_survives_beam_witness :
  exists st,
    Beam.run_encoder_state true
      (Beam.get_initial_cell_state (Beam.size_tuple 2 2) Beam.ex_var 3)
    = Value st /\
    Beam.stack_states (repeat st 3)
    = Value (Beam.get_initial_cell_state (Beam.size_tuple 2 2)
                                         Beam.ex_var 3).
Proof.
  apply (initial_cell_state_survives_beam 2 2 Beam.ex_var 3). lia.
Defined.
